(** * The array container of CRoaring

A shallow embedding of [src/containers/array.c]: a growable buffer of 16-bit
values kept strictly increasing, with point mutators and the set algorithms
built on it.

Conventions of the embedding.
- [int32_t] values are integers of [Z]; every arithmetic operation of the
  source that can leave the 32-bit range is written with its two's-complement
  wrap-around ([int32]), which is what the x86 targets of the library
  compute.  Division is C's truncating division ([Z.quot]).
- A buffer of [uint16_t] is a [list Z] whose length is the number of
  allocated slots.  Every access is bounds-checked: an access outside the
  allocated slots is undefined behaviour in C and is [None] here.
- An allocation returns NULL for a negative number of slots, and
  [realloc] for no slot; every other request is granted.  Where the source
  asserts that an allocation succeeded, a NULL aborts the call, which is
  [None] as well: [None] is a call that does not return.
- Functions that receive a single container pointer are state-passing
  functions on the pointee.  Functions that receive several container
  pointers run in a store of containers addressed by pointers, so that
  aliasing and the frame of each operation are visible. *)

From Stdlib Require Import ZArith Lia.
From stdpp Require Import base option list sorting gmap.

Local Open Scope Z_scope.

(** ** Machine integers *)

Definition INT32_MAX : Z := 2147483647.
Definition INT32_MIN : Z := -2147483648.

(** Two's-complement reduction of an integer to [int32_t]. *)
Definition int32 (z : Z) : Z := (z + 2147483648) mod 4294967296 - 2147483648.

Definition in_int32 (z : Z) : Prop := INT32_MIN ≤ z ≤ INT32_MAX.

(** The values a [uint16_t] can hold. *)
Definition uint16 (x : Z) : Prop := 0 ≤ x < 65536.

Global Instance in_int32_dec z : Decision (in_int32 z).
Proof. unfold in_int32. apply _. Defined.

Global Instance uint16_dec x : Decision (uint16 x).
Proof. unfold uint16. apply _. Defined.

(** ** Buffers *)

Module Mem.

(** [array[i]] as an rvalue. *)
Definition read (b : list Z) (i : Z) : option Z :=
  if decide (0 ≤ i) then b !! Z.to_nat i else None.

(** [array[i] = v]. *)
Definition write (b : list Z) (i v : Z) : option (list Z) :=
  if decide (0 ≤ i < Z.of_nat (length b)) then Some (<[Z.to_nat i := v]> b)
  else None.

(** The [n] slots starting at slot [off], as a region handed to [memcpy],
    [memmove] or a collaborator: it must lie inside the buffer. *)
Definition span (b : list Z) (off n : Z) : option (list Z) :=
  if decide (0 ≤ off ∧ 0 ≤ n ∧ off + n ≤ Z.of_nat (length b))
  then Some (take (Z.to_nat n) (drop (Z.to_nat off) b))
  else None.

(** Overwrite the slots starting at [off] with [vs]; the written region must
    lie inside the buffer. *)
Definition blit (b : list Z) (off : Z) (vs : list Z) : option (list Z) :=
  if decide (0 ≤ off ∧ off + Z.of_nat (length vs) ≤ Z.of_nat (length b))
  then Some (take (Z.to_nat off) b ++ vs
             ++ drop (Z.to_nat off + length vs) b)
  else None.

(** [memcpy(dst, src, n * sizeof(uint16_t))] between two distinct buffers. *)
Definition memcpy (dst src : list Z) (n : Z) : option (list Z) :=
  vs ← span src 0 n; blit dst 0 vs.

(** [memmove(b + dst_off, b + src_off, n * sizeof(uint16_t))] inside one
    buffer: the source region is read whole, then written. *)
Definition memmove (b : list Z) (dst_off src_off n : Z) : option (list Z) :=
  vs ← span b src_off n; blit b dst_off vs.

End Mem.

(** ** The container *)

Record array_container_t : Type := mk_array_container {
  cardinality : Z;
  capacity : Z;
  array : list Z
}.

(** [c->cardinality = n] and [c->array = a] on the record. *)
Definition with_cardinality (c : array_container_t) (n : Z) :=
  {| cardinality := n; capacity := capacity c; array := array c |}.

Definition with_array (c : array_container_t) (a : list Z) :=
  {| cardinality := cardinality c; capacity := capacity c; array := a |}.

(** The meaningful part of the buffer: slots [[0, cardinality)]. *)
Definition contents (c : array_container_t) : list Z :=
  take (Z.to_nat (cardinality c)) (array c).

(** The data model of the container: the cardinality lies within the
capacity, the buffer has [capacity] slots, and the meaningful slots hold
strictly increasing 16-bit values. *)
Definition wf (c : array_container_t) : Prop :=
  0 ≤ cardinality c ≤ capacity c ∧
  Z.of_nat (length (array c)) = capacity c ∧
  Forall uint16 (contents c) ∧
  StronglySorted Z.lt (contents c).

Global Instance wf_dec c : Decision (wf c).
Proof. unfold wf. apply _. Defined.

Definition DEFAULT_INIT_SIZE : Z := 16.

(** Modelled from the spec: [array_container_empty], [array_container_full]
and [array_container_cardinality] are declared [extern] in array.c and
defined in array.h, which is absent; the spec gives them as the emptiness
check, the fullness check (cardinality == capacity) and the cardinality
accessor. *)
Definition array_container_cardinality (c : array_container_t) : Z :=
  cardinality c.

Definition array_container_empty (c : array_container_t) : bool :=
  cardinality c =? 0.

Definition array_container_full (c : array_container_t) : bool :=
  cardinality c =? capacity c.

(** ** The collaborators of array_util *)

Module ArrayUtil.

(** Modelled from the spec: [binarySearch] lives in array_util, which is
    absent.  The spec words it as a binary search among the first
    [lenarray] entries that returns a non-negative index on a hit, or a
    negative encoding of the insertion point on a miss such that
    insertion_index = -(result) - 1.  The loop halves the window
    [[low, high]] at each turn; [fuel] bounds the number of turns. *)
Fixpoint binarySearch_loop (fuel : nat) (a : list Z) (low high ikey : Z)
    : option Z :=
  match fuel with
  | O => None
  | S fuel =>
    if low <=? high then
      let middleIndex := Z.shiftr (low + high) 1 in
      middleValue ← Mem.read a middleIndex;
      if middleValue <? ikey
      then binarySearch_loop fuel a (middleIndex + 1) high ikey
      else if middleValue >? ikey
      then binarySearch_loop fuel a low (middleIndex - 1) ikey
      else Some middleIndex
    else Some (- (low + 1))
  end.

Definition binarySearch (a : list Z) (lenarray ikey : Z) : option Z :=
  binarySearch_loop (S (Z.to_nat lenarray)) a 0 (lenarray - 1) ikey.

(** Modelled from the spec: the merge behind [union_uint16] (array_util,
    absent): merge the two sorted sequences, eliminating duplicates, in
    ascending order. *)
Fixpoint union_merge (l1 : list Z) : list Z → list Z :=
  fix inner (l2 : list Z) : list Z :=
    match l1, l2 with
    | [], _ => l2
    | _, [] => l1
    | x1 :: l1', x2 :: l2' =>
      if x1 <? x2 then x1 :: union_merge l1' l2
      else if x2 <? x1 then x2 :: inner l2'
      else x1 :: union_merge l1' l2'
    end.

(** Modelled from the spec: [union_uint16] (array_util, absent) writes the
    merge into the output buffer from slot 0 and returns the number of
    values written. *)
Definition union_uint16 (set_1 : list Z) (size_1 : Z) (set_2 : list Z)
    (size_2 : Z) (buffer : list Z) : option (Z * list Z) :=
  s1 ← Mem.span set_1 0 size_1;
  s2 ← Mem.span set_2 0 size_2;
  let r := union_merge s1 s2 in
  buffer' ← Mem.blit buffer 0 r;
  Some (Z.of_nat (length r), buffer').

(** Modelled from the spec: the balanced path, [intersect_uint16]
    (array_util, absent): a linear two-pointer merge comparing both
    sequences element by element and emitting the matches. *)
Fixpoint intersect_merge (l1 : list Z) : list Z → list Z :=
  fix inner (l2 : list Z) : list Z :=
    match l1, l2 with
    | [], _ => []
    | _, [] => []
    | x1 :: l1', x2 :: l2' =>
      if x1 <? x2 then intersect_merge l1' l2
      else if x2 <? x1 then inner l2'
      else x1 :: intersect_merge l1' l2'
    end.

Definition intersect_uint16 (A : list Z) (lenA : Z) (B : list Z) (lenB : Z)
    (out : list Z) : option (Z * list Z) :=
  a ← Mem.span A 0 lenA;
  b ← Mem.span B 0 lenB;
  let r := intersect_merge a b in
  out' ← Mem.blit out 0 r;
  Some (Z.of_nat (length r), out').

(** Modelled from the spec: the skewed path, [intersect_skewed_uint16]
    (array_util, absent): the smaller sequence is a probe sequence, each
    probe searched inside the larger one by exponential (galloping) steps
    and then a binary search.

    [gallop] doubles [span] while the slot [base + span] exists and is
    below the probe, and returns the window [[lo, hi)] left for the binary
    search. *)
Fixpoint gallop (fuel : nat) (large : list Z) (len base span key : Z)
    : option (Z * Z) :=
  match fuel with
  | O => Some (base + span / 2 + 1, len)
  | S fuel =>
    if base + span <? len then
      v ← Mem.read large (base + span);
      if v <? key then gallop fuel large len base (2 * span) key
      else Some (base + span / 2 + 1, base + span)
    else Some (base + span / 2 + 1, len)
  end.

(** The first index at or after [pos] whose slot is not below [key], or
    [len] when there is none. *)
Definition advanceUntil (large : list Z) (len pos key : Z) : option Z :=
  if len <=? pos then Some len
  else
    v ← Mem.read large pos;
    if key <=? v then Some pos
    else
      '(lo, hi) ← gallop (Z.to_nat len) large len pos 1 key;
      r ← binarySearch_loop (S (Z.to_nat (hi - lo))) large lo (hi - 1) key;
      Some (if r <? 0 then - r - 1 else r).

Fixpoint skewed_probe (large : list Z) (size_l : Z) (small : list Z)
    (idx_l : Z) : option (list Z) :=
  match small with
  | [] => Some []
  | val_s :: small' =>
    idx ← advanceUntil large size_l idx_l val_s;
    if idx <? size_l then
      val_l ← Mem.read large idx;
      if val_l =? val_s
      then out ← skewed_probe large size_l small' idx; Some (val_s :: out)
      else skewed_probe large size_l small' idx
    else Some []
  end.

Definition intersect_skewed_uint16 (small : list Z) (size_s : Z)
    (large : list Z) (size_l : Z) (buffer : list Z) : option (Z * list Z) :=
  s ← Mem.span small 0 size_s;
  _ ← Mem.span large 0 size_l;
  r ← skewed_probe large size_l s 0;
  buffer' ← Mem.blit buffer 0 r;
  Some (Z.of_nat (length r), buffer').

End ArrayUtil.

Import ArrayUtil.

(** ** Growth policy *)

Definition grow_capacity (capacity : Z) : Z :=
  if capacity <=? 0 then DEFAULT_INIT_SIZE
  else if capacity <? 64 then int32 (capacity * 2)
  else if capacity <? 1024 then Z.quot (int32 (capacity * 3)) 2
  else Z.quot (int32 (capacity * 5)) 4.

Definition clamp (val min max : Z) : Z :=
  if val <? min then min else if val >? max then max else val.

(** The growth policy as the specification words it, over unbounded
integers: 16 for a capacity that is not positive, twice the capacity below
64, one and a half times below 1024, one and a quarter times otherwise
(rounded down). *)
Definition grow_capacity_spec (capacity : Z) : Z :=
  if capacity <=? 0 then 16
  else if capacity <? 64 then 2 * capacity
  else if capacity <? 1024 then 3 * capacity / 2
  else 5 * capacity / 4.

(** The specification's snap: a candidate within one-sixteenth of [max] is
raised to [max]. *)
Definition snap_to_max (candidate max : Z) : Z :=
  if decide (max - Z.quot max 16 < candidate) then max else candidate.

Section ArrayContainer.

(** What freshly allocated memory happens to hold, slot by slot: C leaves it
unspecified, so the definitions that allocate are parameterised by it and
the theorems hold whatever it is. *)
Variable junk : nat → Z.

Definition uninit (from len : nat) : list Z :=
  (λ i, junk i mod 65536) <$> seq from len.

(** The block of [n] slots that a successful allocation returns, and the
block that a successful reallocation of [b] to [n] slots returns: the common
prefix is kept. *)
Definition fresh_block (n : Z) : list Z := uninit 0 (Z.to_nat n).

Definition resized_block (b : list Z) (n : Z) : list Z :=
  take (Z.to_nat n) b ++ uninit (length b) (Z.to_nat n - length b).

(** [malloc(n * sizeof(uint16_t))], with [None] for NULL.  A negative count
makes the product, a [size_t], a request beyond what any allocator grants:
the result is NULL.  Every other request is taken to succeed; for a count of
zero the result is a block without slots, as with glibc. *)
Definition malloc (n : Z) : option (list Z) :=
  if n <? 0 then None else Some (fresh_block n).

(** [realloc(b, n * sizeof(uint16_t))], with [None] for NULL.  A negative
count fails as for [malloc]; a count of zero releases [b] and returns NULL,
as with glibc.  Every other request is taken to succeed. *)
Definition realloc (b : list Z) (n : Z) : option (list Z) :=
  if n <=? 0 then None else Some (resized_block b n).

(** The capacity is assigned before the buffer is replaced.  When the
allocator returns NULL the source releases the old buffer (a second time
after a reallocation to no slot) and the assertion
[container->array != NULL] aborts the program: the call does not return
([None]). *)
Definition array_container_grow (container : array_container_t)
    (min max : Z) (preserve : bool) : option array_container_t :=
  let new_capacity := clamp (grow_capacity (capacity container)) min max in
  let new_capacity :=
    if new_capacity >? int32 (max - Z.quot max 16) then max
    else new_capacity in
  let array0 := array container in
  new_array ← (if preserve then realloc array0 new_capacity
               else malloc new_capacity);
  Some {| cardinality := cardinality container;
          capacity := new_capacity;
          array := new_array |}.

(** ** The store of containers *)

(** A pointer to a container, and the store the pointers live in.  A
computation either does not return, because it runs into undefined
behaviour or a failed assertion aborts it ([None]), or returns a value and
the updated store. *)
Definition M (A : Type) : Type :=
  gmap positive array_container_t → option (A * gmap positive array_container_t).

Global Instance M_ret : MRet M := λ A a h, Some (a, h).

Global Instance M_bind : MBind M := λ A B k m h,
  match m h with
  | Some (a, h') => k a h'
  | None => None
  end.

Definition lift {A} (o : option A) : M A := λ h,
  match o with
  | Some a => Some (a, h)
  | None => None
  end.

(** Dereferencing a pointer that addresses no container is undefined. *)
Definition load (p : positive) : M array_container_t := λ h,
  match h !! p with
  | Some c => Some (c, h)
  | None => None
  end.

Definition store (p : positive) (c : array_container_t) : M () := λ h,
  match h !! p with
  | Some _ => Some ((), <[p := c]> h)
  | None => None
  end.

(** A successful [malloc(sizeof(array_container_t))]: a pointer that
addresses no container yet. *)
Definition alloc (c : array_container_t) : M positive := λ h,
  let p := fresh (dom h) in Some (p, <[p := c]> h).

Definition get {A} (field : array_container_t → A) (p : positive) : M A :=
  c ← load p; mret (field c).

Definition set_cardinality (p : positive) (n : Z) : M () :=
  c ← load p; store p (with_cardinality c n).

Definition set_array (p : positive) (a : list Z) : M () :=
  c ← load p; store p (with_array c a).

(** A function of a single container pointer, run on the pointee. *)
Definition on {A} (p : positive)
    (f : array_container_t → option (A * array_container_t)) : M A :=
  c ← load p; '(a, c') ← lift (f c); _ ← store p c'; mret a.

(** ** Lifecycle *)

(** When the allocation of the buffer fails the record is released and the
result is NULL ([None]): the store is as before. *)
Definition array_container_create_given_capacity (size : Z)
    : M (option positive) :=
  match malloc size with
  | None => mret None
  | Some buffer =>
    container ← alloc {| cardinality := 0; capacity := size;
                         array := buffer |};
    mret (Some container)
  end.

Definition array_container_create : M (option positive) :=
  array_container_create_given_capacity DEFAULT_INIT_SIZE.

Definition array_container_clone (src : positive) : M (option positive) :=
  src_capacity ← get capacity src;
  new ← array_container_create_given_capacity src_capacity;
  match new with
  | None => mret None
  | Some new =>
    src_cardinality ← get cardinality src;
    _ ← set_cardinality new src_cardinality;
    new_array ← get array new;
    src_array ← get array src;
    src_cardinality ← get cardinality src;
    buf ← lift (Mem.memcpy new_array src_array src_cardinality);
    _ ← set_array new buf;
    mret (Some new)
  end.

Definition array_container_copy (src dst : positive) : M () :=
  cardinality0 ← get cardinality src;
  dst_capacity ← get capacity dst;
  _ ← (if cardinality0 <? dst_capacity
       then on dst (λ c,
              c ← array_container_grow c cardinality0 INT32_MAX false;
              Some ((), c))
       else mret ());
  _ ← set_cardinality dst cardinality0;
  dst_array ← get array dst;
  src_array ← get array src;
  buf ← lift (Mem.memcpy dst_array src_array cardinality0);
  set_array dst buf.

(** ** Point mutators *)

Definition array_container_append (arr : array_container_t) (pos : Z)
    : option array_container_t :=
  let capacity0 := capacity arr in
  arr ← (if array_container_full arr
         then array_container_grow arr (int32 (capacity0 + 1)) INT32_MAX true
         else Some arr);
  buf ← Mem.write (array arr) (cardinality arr) pos;
  Some {| cardinality := int32 (cardinality arr + 1);
          capacity := capacity arr; array := buf |}.

Definition array_container_add (arr : array_container_t) (pos : Z)
    : option (bool * array_container_t) :=
  let cardinality0 := cardinality arr in
  best_case ←
    (if array_container_empty arr then Some true
     else last ← Mem.read (array arr) (int32 (cardinality0 - 1));
          Some (last <? pos));
  if best_case : bool then
    arr ← array_container_append arr pos; Some (true, arr)
  else
    loc ← binarySearch (array arr) cardinality0 pos;
    let not_found := loc <? 0 in
    if not_found then
      arr ← (if array_container_full arr
             then array_container_grow arr (int32 (capacity arr + 1))
                    INT32_MAX true
             else Some arr);
      let insert_idx := int32 (int32 (- loc) - 1) in
      buf ← Mem.memmove (array arr) (insert_idx + 1) insert_idx
              (int32 (cardinality0 - insert_idx));
      buf ← Mem.write buf insert_idx pos;
      Some (not_found, {| cardinality := int32 (cardinality arr + 1);
                          capacity := capacity arr; array := buf |})
    else Some (not_found, arr).

Definition array_container_remove (arr : array_container_t) (pos : Z)
    : option (bool * array_container_t) :=
  idx ← binarySearch (array arr) (cardinality arr) pos;
  let is_present := idx >=? 0 in
  if is_present then
    buf ← Mem.memmove (array arr) idx (idx + 1)
            (int32 (cardinality arr - idx));
    Some (is_present, {| cardinality := int32 (cardinality arr - 1);
                         capacity := capacity arr; array := buf |})
  else Some (is_present, arr).

Definition array_container_contains (arr : array_container_t) (pos : Z)
    : option bool :=
  idx ← binarySearch (array arr) (cardinality arr) pos;
  Some (idx >=? 0).

(** ** Set algorithms

The output container is assumed distinct from both inputs: each call below
hands the collaborator the input buffers and the output buffer as separate
regions, as the source does. *)

Definition array_container_union (array_1 array_2 out : positive) : M () :=
  card_1 ← get cardinality array_1;
  card_2 ← get cardinality array_2;
  let max_cardinality := int32 (card_1 + card_2) in
  out_capacity ← get capacity out;
  _ ← (if out_capacity <? max_cardinality
       then on out (λ c,
              c ← array_container_grow c max_cardinality INT32_MAX false;
              Some ((), c))
       else mret ());
  a1 ← get array array_1;
  a2 ← get array array_2;
  o ← get array out;
  '(n, buf) ← lift (if card_1 <? card_2
                    then union_uint16 a1 card_1 a2 card_2 o
                    else union_uint16 a2 card_2 a1 card_1 o);
  _ ← set_array out buf;
  set_cardinality out n.

Definition minimum (a b : Z) : Z := if a <? b then a else b.

(** The three ways the intersection can be computed. *)
Inductive strategy : Type :=
  | Skewed_first_small
  | Skewed_second_small
  | Balanced.

Definition intersect_with (s : strategy) (a1 : list Z) (card_1 : Z)
    (a2 : list Z) (card_2 : Z) (o : list Z) : option (Z * list Z) :=
  match s with
  | Skewed_first_small => intersect_skewed_uint16 a1 card_1 a2 card_2 o
  | Skewed_second_small => intersect_skewed_uint16 a2 card_2 a1 card_1 o
  | Balanced => intersect_uint16 a1 card_1 a2 card_2 o
  end.

(** The path [array_container_intersection] takes, read off the conditions
of its if-chain. *)
Definition intersection_strategy (card_1 card_2 : Z) : strategy :=
  let threshold := 64 in
  if int32 (card_1 * threshold) <? card_2 then Skewed_first_small
  else if int32 (card_2 * threshold) <? card_1 then Skewed_second_small
  else Balanced.

(** The source is compiled without USEAVX: the balanced path is the scalar
merge. *)
Definition array_container_intersection (array1 array2 out : positive)
    : M () :=
  card_1 ← get cardinality array1;
  card_2 ← get cardinality array2;
  let min_card := minimum card_1 card_2 in
  let threshold := 64 in
  out_capacity ← get capacity out;
  _ ← (if out_capacity <? min_card
       then on out (λ c,
              c ← array_container_grow c min_card INT32_MAX false;
              Some ((), c))
       else mret ());
  a1 ← get array array1;
  a2 ← get array array2;
  o ← get array out;
  '(n, buf) ← lift (if int32 (card_1 * threshold) <? card_2
                    then intersect_skewed_uint16 a1 card_1 a2 card_2 o
                    else if int32 (card_2 * threshold) <? card_1
                    then intersect_skewed_uint16 a2 card_2 a1 card_1 o
                    else intersect_uint16 a1 card_1 a2 card_2 o);
  _ ← set_array out buf;
  set_cardinality out n.

(** The same operation with the choice of the path taken out of its hands:
the reference for the claims on the selection and on its independence. *)
Definition array_container_intersection_forced (s : strategy)
    (array1 array2 out : positive) : M () :=
  card_1 ← get cardinality array1;
  card_2 ← get cardinality array2;
  let min_card := minimum card_1 card_2 in
  out_capacity ← get capacity out;
  _ ← (if out_capacity <? min_card
       then on out (λ c,
              c ← array_container_grow c min_card INT32_MAX false;
              Some ((), c))
       else mret ());
  a1 ← get array array1;
  a2 ← get array array2;
  o ← get array out;
  '(n, buf) ← lift (intersect_with s a1 card_1 a2 card_2 o);
  _ ← set_array out buf;
  set_cardinality out n.

(** The selection as the specification words it: the skewed path when one
cardinality exceeds the other by more than the factor 64, the balanced path
otherwise. *)
Definition strategy_spec (card_1 card_2 : Z) : strategy :=
  if decide (64 * card_1 < card_2) then Skewed_first_small
  else if decide (64 * card_2 < card_1) then Skewed_second_small
  else Balanced.

(** The cursors of the in-place merge. *)
Record cursors : Type := mk_cursors {
  card : Z;
  read1_pos : Z;
  read2_pos : Z
}.

(** One turn of the [while] loop of [array_container_intersection_inplace]:
[None] when the loop condition fails, the next cursors otherwise.  Every
access goes through the store, so a write into [src_1] is seen by the later
reads. *)
Definition intersection_inplace_step (src_1 src_2 : positive) (k : cursors)
    : M (option cursors) :=
  card_1 ← get cardinality src_1;
  card_2 ← get cardinality src_2;
  if (read1_pos k <? card_1) && (read2_pos k <? card_2) then
    a1 ← get array src_1;
    a2 ← get array src_2;
    v1 ← lift (Mem.read a1 (read1_pos k));
    v2 ← lift (Mem.read a2 (read2_pos k));
    if v1 <? v2 then
      mret (Some (mk_cursors (card k) (int32 (read1_pos k + 1)) (read2_pos k)))
    else if v1 >? v2 then
      mret (Some (mk_cursors (card k) (read1_pos k) (int32 (read2_pos k + 1))))
    else
      buf ← lift (Mem.write a1 (card k) v1);
      _ ← set_array src_1 buf;
      mret (Some (mk_cursors (int32 (card k + 1)) (int32 (read1_pos k + 1))
                             (int32 (read2_pos k + 1))))
  else mret None.

(** The loop: [fuel] bounds the number of turns. *)
Fixpoint intersection_inplace_loop (fuel : nat) (src_1 src_2 : positive)
    (k : cursors) : M cursors :=
  match fuel with
  | O => lift None
  | S fuel =>
    next ← intersection_inplace_step src_1 src_2 k;
    match next with
    | None => mret k
    | Some k' => intersection_inplace_loop fuel src_1 src_2 k'
    end
  end.

(** The cursors after [n] turns, when the loop runs that long. *)
Fixpoint intersection_inplace_turns (n : nat) (src_1 src_2 : positive)
    (k : cursors) : M (option cursors) :=
  match n with
  | O => mret (Some k)
  | S n =>
    next ← intersection_inplace_step src_1 src_2 k;
    match next with
    | None => mret None
    | Some k' => intersection_inplace_turns n src_1 src_2 k'
    end
  end.

(** The one-time diagnostic on stderr has no effect on the containers and
is left out.  Each turn advances a read cursor, so the sum of the two
cardinalities, plus the final test, bounds the number of turns. *)
Definition array_container_intersection_inplace (src_1 src_2 : positive)
    : M positive :=
  card_1 ← get cardinality src_1;
  card_2 ← get cardinality src_2;
  k ← intersection_inplace_loop (S (Z.to_nat card_1 + Z.to_nat card_2))
        src_1 src_2 (mk_cursors 0 0 0);
  _ ← set_cardinality src_1 (card k);
  mret src_1.

(** ** Public calls *)

Inductive call : Type :=
  | Create_given_capacity (size : Z)
  | Create
  | Clone (src : positive)
  | Copy (src dst : positive)
  | Add (arr : positive) (pos : Z)
  | Remove (arr : positive) (pos : Z)
  | Union (array_1 array_2 out : positive)
  | Intersection (array1 array2 out : positive)
  | Intersection_inplace (src_1 src_2 : positive).

(** What the types and the documented preconditions of the calls ask of
their arguments: integers of the right width, and an output container
distinct from the inputs. *)
Definition legal (c : call) : Prop :=
  match c with
  | Create_given_capacity size => in_int32 size
  | Create => True
  | Clone _ => True
  | Copy src dst => src ≠ dst
  | Add _ pos => uint16 pos
  | Remove _ pos => uint16 pos
  | Union array_1 array_2 out => out ≠ array_1 ∧ out ≠ array_2
  | Intersection array1 array2 out => out ≠ array1 ∧ out ≠ array2
  | Intersection_inplace src_1 src_2 => src_1 ≠ src_2
  end.

Definition exec (c : call) : M () :=
  match c with
  | Create_given_capacity size =>
    _ ← array_container_create_given_capacity size; mret ()
  | Create => _ ← array_container_create; mret ()
  | Clone src => _ ← array_container_clone src; mret ()
  | Copy src dst => array_container_copy src dst
  | Add arr pos => _ ← on arr (λ c, array_container_add c pos); mret ()
  | Remove arr pos => _ ← on arr (λ c, array_container_remove c pos); mret ()
  | Union array_1 array_2 out => array_container_union array_1 array_2 out
  | Intersection array1 array2 out =>
    array_container_intersection array1 array2 out
  | Intersection_inplace src_1 src_2 =>
    _ ← array_container_intersection_inplace src_1 src_2; mret ()
  end.

(** The stores a program can reach from the empty store by public calls
that run to completion. *)
Inductive reachable : gmap positive array_container_t → Prop :=
  | reachable_empty : reachable ∅
  | reachable_call h c h' :
      reachable h → legal c → exec c h = Some ((), h') → reachable h'.

(** ** Vocabulary of the specifications *)

(** The contract of [binarySearch] on the meaningful part of a buffer. *)
Definition search_hit (a : list Z) (n key r : Z) : Prop :=
  0 ≤ r < n ∧ Mem.read a r = Some key.

Definition search_miss (a : list Z) (n key r : Z) : Prop :=
  0 ≤ - r - 1 ≤ n ∧
  (∀ i v, i < - r - 1 → Mem.read a i = Some v → v < key) ∧
  (∀ i v, - r - 1 ≤ i < n → Mem.read a i = Some v → key < v).

(** Every slot before [idx] is below [key]. *)
Definition below (a : list Z) (idx key : Z) : Prop :=
  ∀ j v, j < idx → Mem.read a j = Some v → v < key.

(** Every slot from [idx] to the end of the prefix is at least [key]. *)
Definition not_below (a : list Z) (n idx key : Z) : Prop :=
  ∀ j v, idx ≤ j < n → Mem.read a j = Some v → key ≤ v.

(** The intersection of two sequences, in the order of the first. *)
Definition intersection_list (a b : list Z) : list Z := filter (.∈ b) a.

(** The container that [array_container_grow] leaves when it returns. *)
Definition grown (c : array_container_t) (min max : Z) (preserve : bool)
    : array_container_t :=
  let new_capacity := clamp (grow_capacity (capacity c)) min max in
  let new_capacity :=
    if new_capacity >? int32 (max - Z.quot max 16) then max
    else new_capacity in
  {| cardinality := cardinality c;
     capacity := new_capacity;
     array := if preserve then resized_block (array c) new_capacity
              else fresh_block new_capacity |}.

(** The output container as a set algorithm receives it: grown without
preserving when its capacity is below what the algorithm needs. *)
Definition prepared (O : array_container_t) (needed : Z) : array_container_t :=
  if capacity O <? needed then grown O needed INT32_MAX false else O.

(** The output container once the strictly increasing sequence [r] has been
written at the start of the buffer of [O1] and counted. *)
Definition output_of (O1 : array_container_t) (r : list Z)
    : array_container_t :=
  with_cardinality (with_array O1 (r ++ drop (length r) (array O1)))
    (Z.of_nat (length r)).

(** Every container of the store satisfies the data model. *)
Definition heap_wf (h : gmap positive array_container_t) : Prop :=
  map_Forall (λ _ c, wf c) h.

(** The store while the in-place merge of the containers at [src_1] (holding
[A] before the call) and [src_2] runs: only the buffer of [src_1] differs
from the store [h] of the call. *)
Definition inplace_store (h : gmap positive array_container_t)
    (src_1 : positive) (A : array_container_t) (a : list Z)
    : gmap positive array_container_t :=
  <[src_1 := with_array A a]> h.

(** The loop invariant: the cursors are ordered, the write cursor has not
passed the read cursor, and the slots of [src_1] not yet read are intact. *)
Definition inplace_inv (A B : array_container_t) (k : cursors) (a : list Z)
    : Prop :=
  length a = length (array A) ∧
  0 ≤ card k ≤ read1_pos k ∧ read1_pos k ≤ cardinality A ∧
  0 ≤ read2_pos k ≤ cardinality B ∧
  drop (Z.to_nat (read1_pos k)) a
  = drop (Z.to_nat (read1_pos k)) (array A).

(** What the merge has still to emit. *)
Definition inplace_pending (A B : array_container_t) (k : cursors) : list Z :=
  intersect_merge (drop (Z.to_nat (read1_pos k)) (contents A))
                  (drop (Z.to_nat (read2_pos k)) (contents B)).

Definition inplace_measure (A B : array_container_t) (k : cursors) : nat :=
  (Z.to_nat (cardinality A - read1_pos k)
   + Z.to_nat (cardinality B - read2_pos k))%nat.

(** ** Sample containers *)

(** An allocator that hands out zeroed memory. *)
Definition zero_filled : nat → Z := λ _, 0.

Definition sample_A : array_container_t :=
  {| cardinality := 3; capacity := 3; array := [1; 3; 5] |}.

Definition sample_B : array_container_t :=
  {| cardinality := 3; capacity := 4; array := [3; 4; 5; 0] |}.

(** An output container without a slot: every set algorithm has to grow
it. *)
Definition sample_empty_out : array_container_t :=
  {| cardinality := 0; capacity := 0; array := [] |}.

(** An output container with stale values and room for any result. *)
Definition sample_roomy_out : array_container_t :=
  {| cardinality := 1; capacity := 8; array := [9; 9; 9; 9; 9; 9; 9; 9] |}.

Definition sample_store (out : array_container_t)
    : gmap positive array_container_t :=
  <[1%positive := sample_A]>
    (<[2%positive := sample_B]> (<[3%positive := out]> ∅)).

(** A container of 100 slots holding three values. *)
Definition sample_hundred : array_container_t :=
  {| cardinality := 3; capacity := 100;
     array := [1; 3; 5] ++ replicate 97 0 |}.

(** ** Release *)

(** [free(arr->array); arr->array = NULL; free(arr)]: the container leaves
the store, and its pointer addresses nothing from then on. *)
Definition array_container_free (arr : positive) : M () := λ h,
  match h !! arr with
  | Some _ => Some ((), delete arr h)
  | None => None
  end.

(** ** Conversion and introspection *)

(** Reduction of an integer to [uint32_t]. *)
Definition uint32 (z : Z) : Z := z mod 4294967296.

(** The [for] loop of [array_container_to_uint32_array]; [out] is the
caller's buffer of [uint32_t], bounds-checked like the buffers of the
containers, and [fuel] bounds the number of turns. *)
Fixpoint to_uint32_array_loop (fuel : nat) (out : list Z)
    (cont : array_container_t) (base i outpos : Z) : option (Z * list Z) :=
  match fuel with
  | O => None
  | S fuel =>
    if i <? cardinality cont then
      v ← Mem.read (array cont) i;
      out ← Mem.write out outpos (uint32 (base + v));
      to_uint32_array_loop fuel out cont base (int32 (i + 1))
        (int32 (outpos + 1))
    else Some (outpos, out)
  end.

Definition array_container_to_uint32_array (out : list Z)
    (cont : array_container_t) (base : Z) : option (Z * list Z) :=
  to_uint32_array_loop (S (Z.to_nat (cardinality cont))) out cont base 0 0.

(** The [for] loop of [array_container_number_of_runs], the pointer [p]
being [a->array + i]: it stops when [p] reaches
[a->array + a->cardinality], and each turn reads a slot, so the turns are at
most one more than the slots of the buffer. *)
Fixpoint number_of_runs_loop (fuel : nat) (a : array_container_t)
    (i nr_runs prev : Z) : option Z :=
  match fuel with
  | O => None
  | S fuel =>
    if i =? cardinality a then Some nr_runs
    else
      v ← Mem.read (array a) i;
      let nr_runs :=
        if negb (v =? int32 (prev + 1)) then int32 (nr_runs + 1)
        else nr_runs in
      number_of_runs_loop fuel a (i + 1) nr_runs v
  end.

Definition array_container_number_of_runs (a : array_container_t)
    : option Z :=
  number_of_runs_loop (S (length (array a))) a 0 0 (-2).

(** ** Sequences of calls *)

(** [array_container_add] called for each value of [xs] in turn. *)
Fixpoint add_all (c : array_container_t) (xs : list Z)
    : option array_container_t :=
  match xs with
  | [] => Some c
  | x :: xs => '(_, c') ← array_container_add c x; add_all c' xs
  end.

(** ** Vocabulary of the further properties *)

(** The runs a loop that has just seen [prev] still has to count in [l]. *)
Fixpoint count_runs (prev : Z) (l : list Z) : Z :=
  match l with
  | [] => 0
  | v :: l' => (if v =? prev + 1 then 0 else 1) + count_runs v l'
  end.

(** [l] is a run: consecutive integers, at least one. *)
Definition is_run (l : list Z) : Prop :=
  ∃ first, l = seqZ first (Z.of_nat (length l)) ∧ l ≠ [].

(** Two neighbouring runs cannot be merged: the second does not start right
after the end of the first. *)
Definition separated (r1 r2 : list Z) : Prop :=
  ∀ x y, last r1 = Some x → head r2 = Some y → y ≠ x + 1.

(** The maximal runs of a sequence, built from its end. *)
Fixpoint runs_of (l : list Z) : list (list Z) :=
  match l with
  | [] => []
  | v :: l' =>
    match runs_of l' with
    | (w :: r) :: rs => if w =? v + 1 then (v :: w :: r) :: rs
                        else [v] :: (w :: r) :: rs
    | _ => [[v]]
    end
  end.

(** A full container, and a container with one free slot. *)
Definition sample_full : array_container_t :=
  {| cardinality := 2; capacity := 2; array := [3; 7] |}.

Definition sample_free_slot : array_container_t :=
  {| cardinality := 2; capacity := 3; array := [3; 7; 0] |}.

(** The second scenario of the specification: three runs. *)
Definition sample_runs : array_container_t :=
  {| cardinality := 6; capacity := 6; array := [1; 2; 3; 7; 8; 10] |}.

(** Operands that are not sorted, on which the paths of the intersection
differ: one value, 5, against 65 slots that hold 5 where a galloping search
does not look, and against 9 such slots. *)
Definition sample_probe : array_container_t :=
  {| cardinality := 1; capacity := 1; array := [5] |}.

Definition sample_unsorted_long : array_container_t :=
  {| cardinality := 65; capacity := 65;
     array := replicate 40 0 ++ [5] ++ replicate 23 0 ++ [9] |}.

Definition sample_unsorted_short : array_container_t :=
  {| cardinality := 9; capacity := 9; array := [0; 0; 0; 5; 0; 0; 0; 0; 9] |}.

Definition sample_store_of (a b : array_container_t)
    : gmap positive array_container_t :=
  <[1%positive := a]>
    (<[2%positive := b]> (<[3%positive := sample_roomy_out]> ∅)).

(** The cardinality that a run leaves in the container at pointer 3. *)
Definition output_cardinality
    (r : option (() * gmap positive array_container_t)) : option Z :=
  '(_, h) ← r; cardinality <$> h !! 3%positive.
(** * Properties *)

(** ** Machine integers *)

Lemma int32_id z : in_int32 z → int32 z = z.
Proof.
  unfold in_int32, INT32_MIN, INT32_MAX, int32. intros Hz.
  rewrite Z.mod_small by lia. lia.
Qed.

Lemma int32_range z : in_int32 (int32 z).
Proof.
  unfold in_int32, INT32_MIN, INT32_MAX, int32.
  pose proof (Z.mod_pos_bound (z + 2147483648) 4294967296). lia.
Qed.

Lemma in_int32_MAX : in_int32 INT32_MAX.
Proof. unfold in_int32, INT32_MIN, INT32_MAX. lia. Qed.

(** ** Growth policy *)

Lemma clamp_between val min max :
  min ≤ max → clamp val min max = Z.max min (Z.min val max).
Proof.
  intros Hle. unfold clamp.
  destruct (Z.ltb_spec val min); [lia|].
  rewrite Z.gtb_ltb. destruct (Z.ltb_spec max val); lia.
Qed.

Lemma grow_capacity_no_overflow capacity :
  capacity ≤ 429496729 → grow_capacity capacity = grow_capacity_spec capacity.
Proof.
  intros Hcap. unfold grow_capacity, grow_capacity_spec, DEFAULT_INIT_SIZE.
  destruct (Z.leb_spec capacity 0); [done|].
  destruct (Z.ltb_spec capacity 64).
  { rewrite int32_id by (unfold in_int32, INT32_MIN, INT32_MAX; lia). lia. }
  destruct (Z.ltb_spec capacity 1024).
  - rewrite int32_id by (unfold in_int32, INT32_MIN, INT32_MAX; lia).
    rewrite Z.quot_div_nonneg by lia. f_equal. lia.
  - rewrite int32_id by (unfold in_int32, INT32_MIN, INT32_MAX; lia).
    rewrite Z.quot_div_nonneg by lia. f_equal. lia.
Qed.

Lemma sixteenth_in_int32 max : in_int32 max → in_int32 (max - Z.quot max 16).
Proof.
  unfold in_int32, INT32_MIN, INT32_MAX. intros Hmax.
  destruct (Z.le_gt_cases 0 max) as [Hpos|Hneg].
  - rewrite Z.quot_div_nonneg by lia.
    pose proof (Z.div_pos max 16 Hpos). 
    assert (max / 16 ≤ max) by (apply Z.div_le_upper_bound; lia). lia.
  - assert (Z.quot max 16 = - (- max / 16)) as ->.
    { rewrite <- (Z.opp_involutive max) at 1.
      rewrite Z.quot_opp_l by lia.
      rewrite Z.quot_div_nonneg by lia. done. }
    assert (0 ≤ - max / 16) by (apply Z.div_pos; lia).
    assert (- max / 16 ≤ - max) by (apply Z.div_le_upper_bound; lia). lia.
Qed.

Lemma grown_cardinality c min max preserve :
  cardinality (grown c min max preserve) = cardinality c.
Proof. reflexivity. Qed.

Lemma grown_capacity_eq c min max preserve :
  in_int32 max →
  capacity (grown c min max preserve)
  = snap_to_max (clamp (grow_capacity (capacity c)) min max) max.
Proof.
  intros Hmax. unfold grown, snap_to_max. cbn [capacity].
  rewrite int32_id by (by apply sixteenth_in_int32).
  rewrite Z.gtb_ltb. destruct (Z.ltb_spec (max - max `quot` 16)
    (clamp (grow_capacity (capacity c)) min max)); case_decide; done || lia.
Qed.

Lemma snap_to_max_between candidate min max :
  min ≤ candidate ≤ max → min ≤ snap_to_max candidate max ≤ max.
Proof. unfold snap_to_max. case_decide; lia. Qed.

Lemma grown_bounds c min max preserve :
  in_int32 max → min ≤ max →
  min ≤ capacity (grown c min max preserve) ≤ max.
Proof.
  intros Hmax Hle. rewrite grown_capacity_eq by done.
  apply snap_to_max_between. rewrite clamp_between by done. lia.
Qed.

(** [array_container_grow] returns exactly when the allocator grants the
new capacity, and then leaves [grown]. *)
Lemma array_container_grow_Some c min max preserve :
  0 < capacity (grown c min max preserve)
  ∨ (capacity (grown c min max preserve) = 0 ∧ preserve = false) →
  array_container_grow c min max preserve = Some (grown c min max preserve).
Proof.
  unfold array_container_grow, grown, malloc, realloc. cbn [capacity].
  cbv zeta.
  set (n := if _ >? _ then max else _).
  intros Hn. destruct preserve.
  - destruct (Z.leb_spec n 0); [|done]. destruct Hn as [?|[_ ?]]; [lia|done].
  - destruct (Z.ltb_spec n 0); [|done]. lia.
Qed.

Lemma array_container_grow_None c min max preserve :
  capacity (grown c min max preserve) < 0
  ∨ (capacity (grown c min max preserve) = 0 ∧ preserve = true) →
  array_container_grow c min max preserve = None.
Proof.
  unfold array_container_grow, grown, malloc, realloc. cbn [capacity].
  cbv zeta.
  set (n := if _ >? _ then max else _).
  intros Hn. destruct preserve.
  - destruct (Z.leb_spec n 0); [done|]. destruct Hn as [?|[? _]]; lia.
  - destruct (Z.ltb_spec n 0); [done|]. destruct Hn as [?|[_ ?]]; [lia|done].
Qed.

Lemma array_container_grow_returns c min max preserve c' :
  array_container_grow c min max preserve = Some c' →
  c' = grown c min max preserve.
Proof.
  intros Hrun.
  destruct (Z.lt_trichotomy (capacity (grown c min max preserve)) 0)
    as [Hneg|[Hzero|Hpos]].
  - by rewrite array_container_grow_None in Hrun by (by left).
  - destruct preserve.
    + by rewrite array_container_grow_None in Hrun by (by right).
    + rewrite array_container_grow_Some in Hrun by (by right). congruence.
  - rewrite array_container_grow_Some in Hrun by (by left). congruence.
Qed.

(** C9 (amended).  For every container and bounds [min <= max]: the capacity
that [array_container_grow] requests is the candidate of [grow_capacity]
clamped into [[min, max]] and raised to [max] when within one-sixteenth of
it, and lies in [[min, max]]; as long as the old capacity is at most
429496729, so that five times the capacity is an [int32_t], the candidate of
[grow_capacity] is that of the growth policy (16, twice, one and a half
times, one and a quarter times).  When the requested capacity is positive, or
zero without [preserve], the call returns, the capacity is the requested one
and the cardinality is untouched; a negative request, or a request for
no slot with [preserve], fails in the allocator and the call is aborted. *)
Theorem array_container_grow_policy c min max preserve :
  in_int32 max → min ≤ max →
  let requested :=
    snap_to_max (Z.max min (Z.min (grow_capacity (capacity c)) max)) max in
  (capacity c ≤ 429496729 →
   requested
   = snap_to_max (Z.max min (Z.min (grow_capacity_spec (capacity c)) max))
       max) ∧
  min ≤ requested ≤ max ∧
  (0 < requested ∨ (requested = 0 ∧ preserve = false) →
   ∃ c', array_container_grow c min max preserve = Some c' ∧
         capacity c' = requested ∧
         cardinality c' = cardinality c) ∧
  (requested < 0 ∨ (requested = 0 ∧ preserve = true) →
   array_container_grow c min max preserve = None).
Proof.
  intros Hmax Hle requested.
  assert (capacity (grown c min max preserve) = requested) as Hcap.
  { rewrite grown_capacity_eq by done. by rewrite clamp_between. }
  split; [|split; [|split]].
  - intros Hsmall. unfold requested. by rewrite grow_capacity_no_overflow.
  - rewrite <- Hcap. by apply grown_bounds.
  - intros Hok. exists (grown c min max preserve).
    split; [|done]. apply array_container_grow_Some. by rewrite Hcap.
  - intros Hbad. apply array_container_grow_None. by rewrite Hcap.
Qed.

(** ** Buffers and sorted sequences *)

Lemma read_Some b i v :
  Mem.read b i = Some v ↔ 0 ≤ i ∧ b !! Z.to_nat i = Some v.
Proof. unfold Mem.read. case_decide; [tauto|]. split; [done|tauto]. Qed.

Lemma read_in_bounds b i v :
  Mem.read b i = Some v → 0 ≤ i < Z.of_nat (length b).
Proof.
  rewrite read_Some. intros [Hi Hv]. apply lookup_lt_Some in Hv. lia.
Qed.

Lemma read_is_Some b i :
  0 ≤ i < Z.of_nat (length b) → ∃ v, Mem.read b i = Some v.
Proof.
  intros Hi. destruct (lookup_lt_is_Some_2 b (Z.to_nat i)) as [v Hv]; [lia|].
  exists v. apply read_Some. split; [lia|done].
Qed.

Lemma sorted_lookup_lt (l : list Z) (i j : nat) x y :
  StronglySorted Z.lt l → l !! i = Some x → l !! j = Some y →
  (i < j)%nat → x < y.
Proof.
  intros Hs. revert i j.
  induction Hs as [|a l Hs IH Ha]; intros i j Hi Hj Hij; [done|].
  destruct i as [|i], j as [|j]; simplify_eq/=; try lia.
  - rewrite Forall_lookup in Ha. eauto.
  - eapply IH; eauto. lia.
Qed.

Lemma sorted_read_lt a n i j x y :
  StronglySorted Z.lt (take (Z.to_nat n) a) →
  Mem.read a i = Some x → Mem.read a j = Some y → i < j < n → x < y.
Proof.
  rewrite !read_Some. intros Hs [Hi Hx] [Hj Hy] Hij.
  eapply (sorted_lookup_lt _ (Z.to_nat i) (Z.to_nat j)); [done| | |lia].
  - rewrite lookup_take_lt by lia. done.
  - rewrite lookup_take_lt by lia. done.
Qed.

Lemma sorted_read_le a n i j x y :
  StronglySorted Z.lt (take (Z.to_nat n) a) →
  Mem.read a i = Some x → Mem.read a j = Some y → i ≤ j < n → x ≤ y.
Proof.
  intros Hs Hx Hy Hij. destruct (decide (i = j)) as [->|].
  - simplify_eq. lia.
  - apply Z.lt_le_incl. eapply sorted_read_lt; eauto. lia.
Qed.

(** A strictly increasing sequence of values of [[lo, hi)] has at most
[hi - lo] entries. *)
Lemma sorted_bounded_length (l : list Z) lo hi :
  StronglySorted Z.lt l → Forall (λ x, lo ≤ x < hi) l →
  Z.of_nat (length l) ≤ Z.max 0 (hi - lo).
Proof.
  intros Hs. revert lo. induction Hs as [|a l Hs IH Ha]; intros lo Hb.
  { simpl. lia. }
  apply Forall_cons in Hb as [Hlo Hb].
  assert (Forall (λ x, a + 1 ≤ x < hi) l) as Hb'.
  { rewrite Forall_forall in Ha, Hb |- *. intros x Hx.
    specialize (Ha x Hx). specialize (Hb x Hx). simpl in *. lia. }
  specialize (IH _ Hb'). simpl length. lia.
Qed.

Lemma sorted_uint16_length (l : list Z) :
  StronglySorted Z.lt l → Forall uint16 l → Z.of_nat (length l) ≤ 65536.
Proof.
  intros Hs Hb. pose proof (sorted_bounded_length l 0 65536 Hs Hb). lia.
Qed.

Lemma wf_cardinality_bound c : wf c → 0 ≤ cardinality c ≤ 65536.
Proof.
  intros (Hc & Hlen & Hb & Hs). pose proof (sorted_uint16_length _ Hs Hb) as H.
  unfold contents in H. rewrite length_take in H. lia.
Qed.

Lemma wf_contents_length c :
  wf c → Z.of_nat (length (contents c)) = cardinality c.
Proof.
  intros (Hc & Hlen & _). unfold contents. rewrite length_take. lia.
Qed.

(** ** The search collaborator *)

Lemma shiftr_1_half z : Z.shiftr z 1 = z / 2.
Proof. rewrite Z.shiftr_div_pow2 by lia. done. Qed.

(** What [binarySearch_loop] answers on a window [[low, high]] of a sorted
prefix of length [n], every slot before the window being below the key: a
hit inside the window, or the encoded insertion point, which separates the
slots below the key from the slots of the window above it. *)
Lemma binarySearch_loop_spec fuel a n low high key :
  StronglySorted Z.lt (take (Z.to_nat n) a) →
  n ≤ Z.of_nat (length a) →
  0 ≤ low → high < n → low ≤ high + 1 →
  (Z.to_nat (high - low + 1) < fuel)%nat →
  (∀ i v, i < low → Mem.read a i = Some v → v < key) →
  ∃ r, binarySearch_loop fuel a low high key = Some r ∧
    ((low ≤ r ≤ high ∧ Mem.read a r = Some key) ∨
     (low ≤ - r - 1 ≤ high + 1 ∧
      (∀ i v, i < - r - 1 → Mem.read a i = Some v → v < key) ∧
      (∀ i v, - r - 1 ≤ i ≤ high → Mem.read a i = Some v → key < v))).
Proof.
  intros Hs Hn. revert low high.
  induction fuel as [|fuel IH]; intros low high Hlow Hhigh Hwin Hfuel Hlt;
    [lia|].
  simpl. destruct (Z.leb_spec low high) as [Hle|Hempty].
  - rewrite shiftr_1_half.
    assert (low ≤ (low + high) / 2 ≤ high) as Hmid
      by (Z.div_mod_to_equations; lia).
    set (m := (low + high) / 2) in *.
    destruct (read_is_Some a m) as [v Hv]; [lia|]. rewrite Hv. simpl.
    destruct (Z.ltb_spec v key) as [Hvk|Hvk].
    { destruct (IH (m + 1) high) as (r & -> & Hr); try lia.
      - intros i w Hi Hw. destruct (decide (i < low)); [by eapply Hlt|].
        pose proof (sorted_read_le a n i m w v Hs Hw Hv). lia.
      - exists r. split; [done|]. destruct Hr as [Hr|Hr]; [left|right];
          intuition lia. }
    rewrite Z.gtb_ltb. destruct (Z.ltb_spec key v) as [Hkv|Hkv].
    { destruct (IH low (m - 1)) as (r & -> & Hr); try lia; try done.
      exists r. split; [done|].
      destruct Hr as [Hr|(Hp & Hbelow & Habove)]; [left; intuition lia|right].
      split; [lia|]. split; [done|]. intros i w Hi Hw.
      destruct (decide (i ≤ m - 1)); [eapply Habove; [|done]; lia|].
      pose proof (sorted_read_le a n m i v w Hs Hv Hw). lia. }
    assert (v = key) as -> by lia.
    exists m. split; [done|]. left. split; [lia|done].
  - exists (- (low + 1)). split; [done|]. right.
    replace (- - (low + 1) - 1) with low by lia.
    split; [lia|]. split; [done|]. intros i v Hi Hv. lia.
Qed.

Lemma binarySearch_spec a n key :
  StronglySorted Z.lt (take (Z.to_nat n) a) →
  0 ≤ n ≤ Z.of_nat (length a) →
  ∃ r, binarySearch a n key = Some r ∧
       (search_hit a n key r ∨ search_miss a n key r).
Proof.
  intros Hs Hn. unfold binarySearch.
  destruct (binarySearch_loop_spec (S (Z.to_nat n)) a n 0 (n - 1) key)
    as (r & Hr & Hcase); [done|lia|lia|lia|lia|lia|..].
  - intros i v Hi Hv. apply read_in_bounds in Hv. lia.
  - exists r. split; [done|]. unfold search_hit, search_miss.
    destruct Hcase as [[? ?]|(? & ? & Habove)]; [left|right]; split_and?;
      eauto; try lia.
    intros i v Hi. apply Habove. lia.
Qed.

(** ** Moving slots *)

Lemma lookup_app_decide {A} (l1 l2 : list A) (i : nat) :
  (l1 ++ l2) !! i
  = if decide (i < length l1)%nat then l1 !! i else l2 !! (i - length l1)%nat.
Proof.
  case_decide; [by apply lookup_app_l|apply lookup_app_r; lia].
Qed.

Lemma lookup_cons_decide {A} (x : A) (l : list A) (i : nat) :
  (x :: l) !! i = if decide (i = 0)%nat then Some x else l !! (i - 1)%nat.
Proof.
  destruct i as [|i]; simpl; [done|]. by rewrite Nat.sub_0_r.
Qed.

(** Equality of two buffers slot by slot, after the lookups are pushed
through the list operations. *)
Ltac push_lookup :=
  repeat first
    [ rewrite lookup_app_decide | rewrite lookup_cons_decide
    | rewrite lookup_take | rewrite lookup_drop | rewrite list_lookup_insert
    | rewrite lookup_nil
    | rewrite length_take | rewrite length_drop | rewrite length_app
    | rewrite length_insert | rewrite length_cons | rewrite length_nil ].

Ltac slotwise :=
  apply list_eq; intros ?i; push_lookup;
  repeat case_decide; try done; try lia;
  try (f_equal; lia);
  try (symmetry; apply lookup_ge_None_2; lia);
  try (apply lookup_ge_None_2; lia).

Lemma shift_right_insert (a : list Z) (p n : nat) (x : Z) :
  (p ≤ n)%nat → (n < length a)%nat →
  <[p := x]> (take (S p) a ++ take (n - p) (drop p a)
              ++ drop (S p + (n - p)) a)
  = take p a ++ x :: drop p (take n a) ++ drop (S n) a.
Proof. intros Hp Hn. slotwise. Qed.

Lemma shift_left_delete (a : list Z) (idx n : nat) :
  (idx < n)%nat → (n < length a)%nat →
  take (n - 1) (take idx a ++ take (n - idx) (drop (S idx) a)
                ++ drop (idx + (n - idx)) a)
  = take idx (take n a) ++ drop (S idx) (take n a).
Proof. intros Hp Hn. slotwise. Qed.

Lemma span_Some b off n :
  0 ≤ off → 0 ≤ n → off + n ≤ Z.of_nat (length b) →
  Mem.span b off n = Some (take (Z.to_nat n) (drop (Z.to_nat off) b)).
Proof. intros. unfold Mem.span. case_decide; [done|lia]. Qed.

Lemma blit_Some b off vs :
  0 ≤ off → off + Z.of_nat (length vs) ≤ Z.of_nat (length b) →
  Mem.blit b off vs
  = Some (take (Z.to_nat off) b ++ vs ++ drop (Z.to_nat off + length vs) b).
Proof. intros. unfold Mem.blit. case_decide; [done|lia]. Qed.

Lemma write_Some b i v :
  0 ≤ i < Z.of_nat (length b) →
  Mem.write b i v = Some (<[Z.to_nat i := v]> b).
Proof. intros. unfold Mem.write. case_decide; [done|lia]. Qed.

Lemma length_uninit from len : length (uninit from len) = len.
Proof. unfold uninit. by rewrite length_fmap, length_seq. Qed.

Lemma length_fresh_block n : length (fresh_block n) = Z.to_nat n.
Proof. apply length_uninit. Qed.

Lemma length_resized_block b n : length (resized_block b n) = Z.to_nat n.
Proof.
  unfold resized_block. rewrite length_app, length_take, length_uninit. lia.
Qed.

Lemma take_resized_block b n k :
  (k ≤ length b)%nat → (k ≤ Z.to_nat n)%nat →
  take k (resized_block b n) = take k b.
Proof.
  intros Hb Hn. unfold resized_block. rewrite take_app_le.
  - rewrite take_take. f_equal. lia.
  - rewrite length_take. lia.
Qed.

Lemma malloc_Some n : 0 ≤ n → malloc n = Some (fresh_block n).
Proof. intros Hn. unfold malloc. destruct (Z.ltb_spec n 0); [lia|done]. Qed.

Lemma length_array_grown c min max preserve :
  length (array (grown c min max preserve))
  = Z.to_nat (capacity (grown c min max preserve)).
Proof.
  unfold grown. cbn [array capacity].
  destruct preserve; [apply length_resized_block|apply length_fresh_block].
Qed.

Lemma array_grown_preserve c min max :
  array (grown c min max true)
  = resized_block (array c) (capacity (grown c min max true)).
Proof. reflexivity. Qed.

Lemma array_grown_discard c min max :
  array (grown c min max false)
  = fresh_block (capacity (grown c min max false)).
Proof. reflexivity. Qed.

(** ** Insertion *)

(** The growth that [array_container_append] and [array_container_add]
perform on a full container leaves room for one more value and keeps the
meaningful slots. *)
Lemma room_for_one c :
  wf c →
  ∃ c1,
    (if array_container_full c
     then array_container_grow c (int32 (capacity c + 1)) INT32_MAX true
     else Some c) = Some c1 ∧
    c1 = (if array_container_full c
          then grown c (capacity c + 1) INT32_MAX true else c) ∧
    cardinality c1 = cardinality c ∧
    Z.of_nat (length (array c1)) = capacity c1 ∧
    cardinality c < capacity c1 ∧
    contents c1 = contents c.
Proof.
  intros Hwf. pose proof (wf_cardinality_bound c Hwf) as Hcard.
  destruct Hwf as (Hc & Hlen & Hb & Hs).
  unfold array_container_full.
  destruct (Z.eqb_spec (cardinality c) (capacity c)) as [Hfull|Hroom].
  - rewrite int32_id by (unfold in_int32, INT32_MIN, INT32_MAX; lia).
    assert (capacity c + 1 ≤ INT32_MAX) as Hfits
      by (unfold INT32_MAX; lia).
    pose proof (grown_bounds c (capacity c + 1) INT32_MAX true
                  in_int32_MAX Hfits) as Hgrow.
    exists (grown c (capacity c + 1) INT32_MAX true).
    split; [apply array_container_grow_Some; lia|].
    split; [done|].
    split; [done|]. split; [rewrite length_array_grown; lia|].
    split; [lia|].
    unfold contents. rewrite grown_cardinality.
    rewrite array_grown_preserve. apply take_resized_block; lia.
  - exists c. split; [done|]. split; [done|].
    split; [done|]. split; [done|]. split; [lia|done].
Qed.

Lemma take_snoc_insert (a : list Z) (n : nat) (x : Z) :
  (n < length a)%nat → take (S n) (<[n := x]> a) = take n a ++ [x].
Proof. intros Hn. slotwise. Qed.

Lemma take_shift_right_insert (a : list Z) (p n : nat) (x : Z) :
  (p ≤ n)%nat → (n < length a)%nat →
  take (S n) (<[p := x]> (take (S p) a ++ take (n - p) (drop p a)
                          ++ drop (S p + (n - p)) a))
  = take p (take n a) ++ x :: drop p (take n a).
Proof.
  intros Hp Hn. rewrite shift_right_insert by done. slotwise.
Qed.

(** Inserting [x] at a position that separates the smaller values from the
larger ones keeps the sequence strictly increasing. *)
Lemma sorted_insert (l : list Z) (p : nat) (x : Z) :
  StronglySorted Z.lt l →
  Forall (λ y, y < x) (take p l) → Forall (λ y, x < y) (drop p l) →
  StronglySorted Z.lt (take p l ++ x :: drop p l).
Proof.
  intros Hs Hlt Hgt. rewrite <- (take_drop p l) in Hs.
  apply StronglySorted_app in Hs as (Hcross & Hs1 & Hs2).
  apply StronglySorted_app_2; [|done|].
  - intros y z Hy Hz. rewrite Forall_forall in Hlt, Hgt.
    apply Hlt in Hy. apply elem_of_cons in Hz as [->|Hz]; [done|].
    apply Hgt in Hz. lia.
  - apply StronglySorted_cons. done.
Qed.

Lemma elem_of_insert_at (l : list Z) (p : nat) (x y : Z) :
  y ∈ take p l ++ x :: drop p l ↔ y = x ∨ y ∈ l.
Proof.
  rewrite <- (take_drop p l) at 3.
  rewrite !elem_of_app, elem_of_cons. tauto.
Qed.

Lemma search_hit_elem a n x r :
  search_hit a n x r → x ∈ take (Z.to_nat n) a.
Proof.
  intros [Hr Hx]. apply read_Some in Hx as [_ Hx].
  apply (list_elem_of_lookup_2 _ (Z.to_nat r)).
  rewrite lookup_take_lt by lia. done.
Qed.

Lemma search_miss_not_elem a n x r :
  search_miss a n x r → x ∉ take (Z.to_nat n) a.
Proof.
  intros (Hp & Hlt & Hgt) [i Hi]%list_elem_of_lookup_1.
  apply lookup_take_Some in Hi as [Hi Hin].
  assert (Mem.read a (Z.of_nat i) = Some x) as Hread.
  { apply read_Some. rewrite Nat2Z.id. split; [lia|done]. }
  destruct (decide (Z.of_nat i < - r - 1)).
  - specialize (Hlt _ _ ltac:(done) Hread). lia.
  - specialize (Hgt (Z.of_nat i) x ltac:(lia) Hread). lia.
Qed.

Lemma search_miss_split a n x r :
  search_miss a n x r →
  Forall (λ y, y < x) (take (Z.to_nat (- r - 1)) (take (Z.to_nat n) a)) ∧
  Forall (λ y, x < y) (drop (Z.to_nat (- r - 1)) (take (Z.to_nat n) a)).
Proof.
  intros (Hp & Hlt & Hgt). split; apply Forall_lookup; intros i y Hi.
  - apply lookup_take_Some in Hi as [Hi Hip].
    apply lookup_take_Some in Hi as [Hi Hin].
    apply (Hlt (Z.of_nat i)); [lia|].
    apply read_Some. rewrite Nat2Z.id. split; [lia|done].
  - rewrite lookup_drop in Hi. apply lookup_take_Some in Hi as [Hi Hin].
    apply (Hgt (Z.of_nat (Z.to_nat (- r - 1) + i))); [lia|].
    apply read_Some. rewrite Nat2Z.id. split; [lia|done].
Qed.

(** The container obtained by writing [x] at a separating position of the
contents, with room for it, satisfies the data model. *)
Lemma wf_inserted c c' (p : nat) x :
  wf c → uint16 x →
  cardinality c' = cardinality c + 1 →
  cardinality c' ≤ capacity c' →
  Z.of_nat (length (array c')) = capacity c' →
  contents c' = take p (contents c) ++ x :: drop p (contents c) →
  Forall (λ y, y < x) (take p (contents c)) →
  Forall (λ y, x < y) (drop p (contents c)) →
  wf c'.
Proof.
  intros (Hc & Hlen & Hb & Hs) Hx Hcard Hcap Hlen' Hcontents Hlt Hgt.
  split; [lia|]. split; [done|]. rewrite Hcontents. split.
  - apply Forall_app. split; [by apply Forall_take|].
    apply Forall_cons. split; [done|by apply Forall_drop].
  - by apply sorted_insert.
Qed.

Lemma array_container_append_correct c x :
  wf c → uint16 x → Forall (λ y, y < x) (contents c) →
  ∃ c', array_container_append c x = Some c' ∧ wf c' ∧
        cardinality c' = cardinality c + 1 ∧
        contents c' = contents c ++ [x].
Proof.
  intros Hwf Hx Hlt. pose proof (wf_cardinality_bound c Hwf) as Hcard.
  pose proof (wf_contents_length c Hwf) as Hclen.
  destruct (room_for_one c Hwf)
    as (c1 & Hgrow & _ & Hcard1 & Hlen1 & Hroom1 & Hcont1).
  unfold array_container_append. cbv zeta.
  rewrite Hgrow. cbn [mbind option_bind].
  rewrite write_Some by lia. simpl.
  rewrite Hcard1, int32_id by (unfold in_int32, INT32_MIN, INT32_MAX; lia).
  eexists. split; [done|].
  assert (contents {| cardinality := cardinality c + 1;
                      capacity := capacity c1;
                      array := <[Z.to_nat (cardinality c) := x]> (array c1) |}
          = contents c ++ [x]) as Hcontents.
  { unfold contents at 1. cbn [cardinality array].
    replace (Z.to_nat (cardinality c + 1)) with (S (Z.to_nat (cardinality c)))
      by lia.
    rewrite take_snoc_insert by lia.
    rewrite <- Hcont1. unfold contents. by rewrite Hcard1. }
  split; [|done].
  apply (wf_inserted c _ (length (contents c)) x); try done.
  - cbn. lia.
  - cbn [array capacity]. rewrite length_insert. done.
  - rewrite Hcontents, take_ge, drop_ge by lia. done.
  - by rewrite take_ge.
  - by rewrite drop_ge.
Qed.

Lemma array_container_add_correct c x :
  wf c → uint16 x →
  ∃ c', array_container_add c x = Some (bool_decide (x ∉ contents c), c') ∧
        wf c' ∧
        (x ∈ contents c → c' = c) ∧
        (x ∉ contents c →
         cardinality c' = cardinality c + 1 ∧
         ∃ p : nat, contents c'
                    = take p (contents c) ++ x :: drop p (contents c)).
Proof.
  intros Hwf Hx. pose proof (wf_cardinality_bound c Hwf) as Hcard.
  pose proof (wf_contents_length c Hwf) as Hclen.
  pose proof Hwf as (Hc & Hlen & Hb & Hs).
  unfold array_container_add, array_container_empty. cbv zeta.
  destruct (Z.eqb_spec (cardinality c) 0) as [Hempty|Hne].
  { (* an empty container: append *)
    assert (contents c = []) as Hnil.
    { apply nil_length_inv. lia. }
    destruct (array_container_append_correct c x) as (c' & -> & Hwf' & Hc1 & Hc2);
      [done|done|by rewrite Hnil|].
    simpl. exists c'. rewrite bool_decide_eq_true_2
      by (rewrite Hnil; apply not_elem_of_nil).
    split; [done|]. split; [done|]. split.
    - rewrite Hnil. by intros ?%not_elem_of_nil.
    - intros _. split; [done|]. exists 0%nat. by rewrite Hc2, Hnil. }
  rewrite (int32_id (cardinality c - 1))
    by (unfold in_int32, INT32_MIN, INT32_MAX; lia).
  destruct (read_is_Some (array c) (cardinality c - 1)) as [last Hlast];
    [lia|]. rewrite Hlast. simpl.
  destruct (Z.ltb_spec last x) as [Hbig|Hsmall].
  { (* beyond the last value: append *)
    assert (Forall (λ y, y < x) (contents c)) as Hall.
    { apply Forall_lookup. intros i y Hi.
      apply lookup_take_Some in Hi as [Hi Hin].
      assert (Mem.read (array c) (Z.of_nat i) = Some y) as Hy.
      { apply read_Some. rewrite Nat2Z.id. split; [lia|done]. }
      pose proof (sorted_read_le _ _ _ _ _ _ Hs Hy Hlast). lia. }
    assert (x ∉ contents c) as Hnotin.
    { intros Hin. rewrite Forall_forall in Hall. apply Hall in Hin. lia. }
    destruct (array_container_append_correct c x) as (c' & -> & Hwf' & Hc1 & Hc2);
      [done..|].
    simpl. exists c'. rewrite bool_decide_eq_true_2 by done.
    split; [done|]. split; [done|]. split; [done|].
    intros _. split; [done|]. exists (length (contents c)).
    by rewrite take_ge, drop_ge by lia. }
  destruct (binarySearch_spec (array c) (cardinality c) x) as (loc & -> & Hloc);
    [done|lia|]. simpl.
  destruct Hloc as [Hhit|Hmiss].
  { (* already present *)
    pose proof (search_hit_elem _ _ _ _ Hhit) as Hin.
    destruct Hhit as [Hloc _].
    destruct (Z.ltb_spec loc 0); [lia|].
    exists c. rewrite bool_decide_eq_false_2 by (intros Hn; by apply Hn).
    split; [done|]. split; [done|]. split; [done|]. by intros []. }
  (* absent: shift and insert *)
  pose proof (search_miss_not_elem _ _ _ _ Hmiss) as Hnotin.
  pose proof (search_miss_split _ _ _ _ Hmiss) as [Hlt Hgt].
  destruct Hmiss as (Hp & _).
  destruct (Z.ltb_spec loc 0); [|lia].
  destruct (room_for_one c Hwf)
    as (c1 & Hgrow & _ & Hcard1 & Hlen1 & Hroom1 & Hcont1).
  rewrite Hgrow. cbn [mbind option_bind].
  rewrite (int32_id (- loc)) by (unfold in_int32, INT32_MIN, INT32_MAX; lia).
  rewrite (int32_id (- loc - 1))
    by (unfold in_int32, INT32_MIN, INT32_MAX; lia).
  rewrite (int32_id (cardinality c - _))
    by (unfold in_int32, INT32_MIN, INT32_MAX; lia).
  set (p := - loc - 1) in *.
  unfold Mem.memmove. rewrite span_Some by lia. simpl.
  rewrite blit_Some by (rewrite ?length_take, ?length_drop; lia). simpl.
  rewrite write_Some
    by (rewrite !length_app, !length_take, !length_drop; lia).
  simpl. rewrite Hcard1,
    int32_id by (unfold in_int32, INT32_MIN, INT32_MAX; lia).
  eexists. rewrite bool_decide_eq_true_2 by done.
  split; [done|].
  match goal with |- wf ?c' ∧ _ => set (c2 := c') end.
  assert (contents c2 = take (Z.to_nat p) (contents c)
                        ++ x :: drop (Z.to_nat p) (contents c)) as Hcontents.
  { unfold contents at 1. cbn [cardinality array c2].
    rewrite length_take, length_drop.
    replace (Z.to_nat (cardinality c + 1)) with (S (Z.to_nat (cardinality c)))
      by lia.
    replace (Z.to_nat (p + 1)) with (S (Z.to_nat p)) by lia.
    replace (Z.to_nat (cardinality c - p))
      with (Z.to_nat (cardinality c) - Z.to_nat p)%nat by lia.
    replace ((Z.to_nat (cardinality c) - Z.to_nat p)
             `min` (length (array c1) - Z.to_nat p))%nat
      with (Z.to_nat (cardinality c) - Z.to_nat p)%nat by lia.
    rewrite take_shift_right_insert by lia.
    rewrite <- Hcont1. unfold contents. by rewrite Hcard1. }
  split.
  - apply (wf_inserted c c2 (Z.to_nat p) x); try done.
    + cbn. lia.
    + cbn [array capacity c2].
      rewrite length_insert, !length_app, !length_take, !length_drop. lia.
  - split; [done|]. intros _. split; [done|]. by exists (Z.to_nat p).
Qed.

(** ** Membership *)

Lemma array_container_contains_spec c x :
  wf c →
  array_container_contains c x = Some (bool_decide (x ∈ contents c)).
Proof.
  intros (Hc & Hlen & Hb & Hs). unfold array_container_contains.
  destruct (binarySearch_spec (array c) (cardinality c) x) as (r & -> & Hr);
    [done|lia|]. simpl. f_equal. rewrite Z.geb_leb.
  destruct Hr as [Hhit|Hmiss].
  - pose proof (search_hit_elem _ _ _ _ Hhit) as Hin. destruct Hhit as [Hr _].
    rewrite bool_decide_eq_true_2 by done. apply Z.leb_le. lia.
  - pose proof (search_miss_not_elem _ _ _ _ Hmiss) as Hnotin.
    destruct Hmiss as [Hr _].
    rewrite bool_decide_eq_false_2 by done. apply Z.leb_gt. lia.
Qed.

(** C4.  For every well-formed container and 16-bit value [x]:
[array_container_add] returns true exactly when [x] was not present (which
is what [array_container_contains] answered before the call); afterwards
[array_container_contains] answers true; and a second call with the same
[x] returns false and leaves the container as it is. *)
Theorem array_container_add_spec c x :
  wf c → uint16 x →
  ∃ c', array_container_add c x = Some (bool_decide (x ∉ contents c), c') ∧
        array_container_contains c x = Some (bool_decide (x ∈ contents c)) ∧
        array_container_contains c' x = Some true ∧
        array_container_add c' x = Some (false, c').
Proof.
  intros Hwf Hx.
  destruct (array_container_add_correct c x Hwf Hx)
    as (c' & Hadd & Hwf' & Hsame & Hnew).
  assert (x ∈ contents c') as Hin.
  { destruct (decide (x ∈ contents c)) as [Hold|Hold].
    - by rewrite (Hsame Hold).
    - destruct (Hnew Hold) as (_ & p & ->). apply elem_of_insert_at. by left. }
  exists c'. split; [done|]. split; [by apply array_container_contains_spec|].
  split.
  - rewrite array_container_contains_spec by done.
    by rewrite bool_decide_eq_true_2.
  - destruct (array_container_add_correct c' x Hwf' Hx)
      as (c'' & Hadd' & _ & Hsame' & _).
    rewrite Hadd', (Hsame' Hin).
    rewrite bool_decide_eq_false_2; [done|]. by intros Hn.
Qed.

(** ** Removal *)

Lemma sorted_delete (l : list Z) (idx : nat) (x : Z) :
  StronglySorted Z.lt l → l !! idx = Some x →
  StronglySorted Z.lt (take idx l ++ drop (S idx) l) ∧
  x ∉ take idx l ++ drop (S idx) l.
Proof.
  intros Hs Hx. rewrite <- (take_drop_middle l idx x Hx) in Hs.
  apply StronglySorted_app in Hs as (Hcross & Hs1 & Hs2).
  apply StronglySorted_cons in Hs2 as [Hgt Hs2]. split.
  - apply StronglySorted_app_2; [|done..].
    intros y z Hy Hz. apply (Hcross y z Hy). by right.
  - rewrite Forall_forall in Hgt. intros [Hin|Hin]%elem_of_app.
    + specialize (Hcross x x Hin ltac:(by left)). lia.
    + specialize (Hgt x Hin). lia.
Qed.

(** With a free slot after the meaningful ones, [array_container_remove]
deletes a present value; on a full container the [memmove] of
[cardinality - idx] slots from slot [idx + 1] reads the slot after the end
of the buffer. *)
Lemma array_container_remove_correct c x :
  wf c →
  (x ∉ contents c → array_container_remove c x = Some (false, c)) ∧
  (x ∈ contents c → cardinality c < capacity c →
   ∃ c' (idx : nat),
     array_container_remove c x = Some (true, c') ∧ wf c' ∧
     cardinality c' = cardinality c - 1 ∧
     capacity c' = capacity c ∧
     contents c !! idx = Some x ∧
     contents c' = take idx (contents c) ++ drop (S idx) (contents c) ∧
     array_container_contains c' x = Some false) ∧
  (x ∈ contents c → cardinality c = capacity c →
   array_container_remove c x = None).
Proof.
  intros Hwf. pose proof (wf_cardinality_bound c Hwf) as Hcard.
  pose proof Hwf as (Hc & Hlen & Hb & Hs).
  unfold array_container_remove.
  destruct (binarySearch_spec (array c) (cardinality c) x) as (r & -> & Hr);
    [done|lia|]. simpl. rewrite Z.geb_leb.
  destruct Hr as [Hhit|Hmiss].
  - pose proof (search_hit_elem _ _ _ _ Hhit) as Hin.
    destruct Hhit as [Hr Hread].
    destruct (Z.leb_spec 0 r); [|lia].
    rewrite (int32_id (cardinality c - r))
      by (unfold in_int32, INT32_MIN, INT32_MAX; lia).
    split; [done|]. split.
    + intros _ Hroom. unfold Mem.memmove.
      rewrite span_Some by lia. simpl.
      rewrite blit_Some by (rewrite ?length_take, ?length_drop; lia). simpl.
      rewrite (int32_id (cardinality c - 1))
        by (unfold in_int32, INT32_MIN, INT32_MAX; lia).
      eexists _, (Z.to_nat r). split; [done|].
      match goal with |- wf ?c' ∧ _ => set (c2 := c') end.
      assert (contents c !! Z.to_nat r = Some x) as Hidx.
      { unfold contents. rewrite lookup_take_lt by lia.
        by apply read_Some in Hread as [_ ?]. }
      assert (contents c2 = take (Z.to_nat r) (contents c)
                            ++ drop (S (Z.to_nat r)) (contents c))
        as Hcontents.
      { unfold contents at 1. cbn [cardinality array c2].
        rewrite length_take, length_drop.
        replace (Z.to_nat (cardinality c - 1))
          with (Z.to_nat (cardinality c) - 1)%nat by lia.
        replace (Z.to_nat (r + 1)) with (S (Z.to_nat r)) by lia.
        replace (Z.to_nat (cardinality c - r))
          with (Z.to_nat (cardinality c) - Z.to_nat r)%nat by lia.
        replace ((Z.to_nat (cardinality c) - Z.to_nat r)
                 `min` (length (array c) - S (Z.to_nat r)))%nat
          with (Z.to_nat (cardinality c) - Z.to_nat r)%nat by lia.
        rewrite shift_left_delete by lia. done. }
      destruct (sorted_delete _ _ _ Hs Hidx) as [Hs' Hgone].
      assert (wf c2) as Hwf2.
      { split; [cbn; lia|]. split.
        { cbn [array capacity c2].
          rewrite !length_app, !length_take, !length_drop. lia. }
        rewrite Hcontents. split; [|done].
        apply Forall_app. split; [by apply Forall_take|by apply Forall_drop]. }
      split; [done|]. split; [done|]. split; [done|]. split; [done|].
      split; [done|].
      rewrite array_container_contains_spec by done.
      rewrite bool_decide_eq_false_2; [done|]. by rewrite Hcontents.
    + intros _ Hfull. unfold Mem.memmove, Mem.span.
      case_decide; [lia|done].
  - pose proof (search_miss_not_elem _ _ _ _ Hmiss) as Hnotin.
    destruct Hmiss as [Hr _].
    destruct (Z.leb_spec 0 r); [lia|].
    split; [done|]. split; by intros.
Qed.

(** ** Strictly increasing sequences as sets *)

Lemma sorted_NoDup (l : list Z) : StronglySorted Z.lt l → NoDup l.
Proof.
  induction 1 as [|x l Hs IH Hx]; [constructor|].
  constructor; [|done]. intros Hin. rewrite Forall_forall in Hx.
  specialize (Hx x Hin). lia.
Qed.

(** Two strictly increasing sequences with the same elements are equal. *)
Lemma sorted_ext (l1 l2 : list Z) :
  StronglySorted Z.lt l1 → StronglySorted Z.lt l2 →
  (∀ x, x ∈ l1 ↔ x ∈ l2) → l1 = l2.
Proof.
  intros Hs1 Hs2 Hel. apply (StronglySorted_unique_strong Z.lt); [|done..|].
  - intros. lia.
  - apply NoDup_Permutation; auto using sorted_NoDup.
Qed.

Lemma sorted_filter (P : Z → Prop) `{∀ x, Decision (P x)} (l : list Z) :
  StronglySorted Z.lt l → StronglySorted Z.lt (filter P l).
Proof.
  induction 1 as [|x l Hs IH Hx]; [constructor|].
  rewrite filter_cons. case_decide; [|done].
  constructor; [done|]. rewrite Forall_forall in Hx |- *.
  intros y [_ Hy]%list_elem_of_filter. auto.
Qed.

Lemma filter_ext_elem (P Q : Z → Prop) `{∀ x, Decision (P x)}
    `{∀ x, Decision (Q x)} (l : list Z) :
  (∀ x, x ∈ l → (P x ↔ Q x)) → filter P l = filter Q l.
Proof.
  induction l as [|y l IH]; intros Hpq; [done|].
  rewrite !filter_cons.
  rewrite IH by (intros x Hx; apply Hpq; by right).
  specialize (Hpq y ltac:(by left)).
  repeat case_decide; tauto || done.
Qed.

Lemma filter_none (P : Z → Prop) `{∀ x, Decision (P x)} (l : list Z) :
  (∀ x, x ∈ l → ¬ P x) → filter P l = [].
Proof.
  induction l as [|y l IH]; intros Hp; [done|].
  rewrite filter_cons_False by (apply Hp; by left).
  apply IH. intros x Hx. apply Hp. by right.
Qed.

Lemma sorted_head_not_elem (x y : Z) (l : list Z) :
  StronglySorted Z.lt (y :: l) → x < y → x ∉ y :: l.
Proof.
  intros [Hy _]%StronglySorted_cons Hxy [->|Hin]%elem_of_cons; [lia|].
  rewrite Forall_forall in Hy. specialize (Hy x Hin). lia.
Qed.

(** ** The merges of the collaborators *)

Lemma union_merge_nil_l l2 : union_merge [] l2 = l2.
Proof. by destruct l2. Qed.

Lemma union_merge_nil_r l1 : union_merge l1 [] = l1.
Proof. by destruct l1. Qed.

Lemma union_merge_cons x1 l1 x2 l2 :
  union_merge (x1 :: l1) (x2 :: l2)
  = if x1 <? x2 then x1 :: union_merge l1 (x2 :: l2)
    else if x2 <? x1 then x2 :: union_merge (x1 :: l1) l2
    else x1 :: union_merge l1 l2.
Proof. reflexivity. Qed.

Lemma elem_of_union_merge l1 l2 x :
  x ∈ union_merge l1 l2 ↔ x ∈ l1 ∨ x ∈ l2.
Proof.
  revert l2. induction l1 as [|x1 l1 IH1]; intros l2.
  { rewrite union_merge_nil_l. rewrite elem_of_nil. tauto. }
  induction l2 as [|x2 l2 IH2].
  { rewrite union_merge_nil_r. rewrite (elem_of_nil x). tauto. }
  rewrite union_merge_cons.
  destruct (Z.ltb_spec x1 x2); [|destruct (Z.ltb_spec x2 x1)].
  - rewrite elem_of_cons, IH1, !elem_of_cons. tauto.
  - rewrite elem_of_cons, IH2, !elem_of_cons. tauto.
  - assert (x1 = x2) as -> by lia.
    rewrite elem_of_cons, IH1, !elem_of_cons. tauto.
Qed.

Lemma sorted_union_merge l1 l2 :
  StronglySorted Z.lt l1 → StronglySorted Z.lt l2 →
  StronglySorted Z.lt (union_merge l1 l2).
Proof.
  intros Hs1. revert l2.
  induction Hs1 as [|x1 l1 Hs1 IH1 Hx1]; intros l2 Hs2.
  { by rewrite union_merge_nil_l. }
  induction Hs2 as [|x2 l2 Hs2 IH2 Hx2].
  { rewrite union_merge_nil_r. by constructor. }
  rewrite Forall_forall in Hx1, Hx2. rewrite union_merge_cons.
  destruct (Z.ltb_spec x1 x2); [|destruct (Z.ltb_spec x2 x1)].
  - constructor; [apply IH1; by constructor; [|apply Forall_forall]|].
    apply Forall_forall. intros y [Hy|Hy]%elem_of_union_merge; [auto|].
    apply elem_of_cons in Hy as [->|Hy]; [done|].
    specialize (Hx2 y Hy). lia.
  - constructor; [done|].
    apply Forall_forall. intros y [Hy|Hy]%elem_of_union_merge; [|auto].
    apply elem_of_cons in Hy as [->|Hy]; [done|].
    specialize (Hx1 y Hy). lia.
  - assert (x1 = x2) as <- by lia. constructor; [by apply IH1|].
    apply Forall_forall. intros y [Hy|Hy]%elem_of_union_merge; auto.
Qed.

Lemma length_union_merge l1 l2 :
  (length (union_merge l1 l2) ≤ length l1 + length l2)%nat.
Proof.
  revert l2. induction l1 as [|x1 l1 IH1]; intros l2.
  { rewrite union_merge_nil_l. simpl. lia. }
  induction l2 as [|x2 l2 IH2].
  { rewrite union_merge_nil_r. simpl. lia. }
  rewrite union_merge_cons.
  destruct (Z.ltb_spec x1 x2); [|destruct (Z.ltb_spec x2 x1)]; simpl.
  - specialize (IH1 (x2 :: l2)). simpl in IH1. lia.
  - simpl in IH2. lia.
  - specialize (IH1 l2). lia.
Qed.

Lemma intersect_merge_nil_l l2 : intersect_merge [] l2 = [].
Proof. by destruct l2. Qed.

Lemma intersect_merge_nil_r l1 : intersect_merge l1 [] = [].
Proof. by destruct l1. Qed.

Lemma intersect_merge_cons x1 l1 x2 l2 :
  intersect_merge (x1 :: l1) (x2 :: l2)
  = if x1 <? x2 then intersect_merge l1 (x2 :: l2)
    else if x2 <? x1 then intersect_merge (x1 :: l1) l2
    else x1 :: intersect_merge l1 l2.
Proof. reflexivity. Qed.

(** On strictly increasing sequences the two-pointer merge keeps exactly the
values of the first sequence that occur in the second. *)
Lemma intersect_merge_filter l1 l2 :
  StronglySorted Z.lt l1 → StronglySorted Z.lt l2 →
  intersect_merge l1 l2 = filter (.∈ l2) l1.
Proof.
  intros Hs1. revert l2.
  induction Hs1 as [|x1 l1 Hs1 IH1 Hx1]; intros l2 Hs2.
  { by rewrite intersect_merge_nil_l. }
  induction Hs2 as [|x2 l2 Hs2 IH2 Hx2].
  { rewrite intersect_merge_nil_r. symmetry. apply filter_none.
    intros y _. apply not_elem_of_nil. }
  rewrite intersect_merge_cons.
  assert (StronglySorted Z.lt (x1 :: l1)) as Hs1' by (by constructor).
  assert (StronglySorted Z.lt (x2 :: l2)) as Hs2' by (by constructor).
  rewrite Forall_forall in Hx1, Hx2.
  destruct (Z.ltb_spec x1 x2); [|destruct (Z.ltb_spec x2 x1)].
  - rewrite filter_cons_False by (by apply sorted_head_not_elem).
    by apply IH1.
  - rewrite IH2. apply filter_ext_elem. intros y Hy.
    rewrite elem_of_cons. split; [tauto|]. intros [->|Hin]; [|done].
    apply elem_of_cons in Hy as [->|Hy]; [lia|].
    specialize (Hx1 x2 Hy). lia.
  - assert (x1 = x2) as <- by lia.
    rewrite filter_cons_True by (by left). f_equal.
    rewrite IH1 by done. apply filter_ext_elem. intros y Hy.
    rewrite elem_of_cons. split; [tauto|]. intros [->|Hin]; [|done].
    specialize (Hx1 x1 Hy). lia.
Qed.

(** ** The skewed path *)

Lemma elem_of_take_read (a : list Z) (n x : Z) :
  x ∈ take (Z.to_nat n) a ↔ ∃ j, 0 ≤ j < n ∧ Mem.read a j = Some x.
Proof.
  split.
  - intros [i Hi]%list_elem_of_lookup_1.
    apply lookup_take_Some in Hi as [Hi Hin].
    exists (Z.of_nat i). split; [lia|].
    apply read_Some. rewrite Nat2Z.id. split; [lia|done].
  - intros (j & Hj & [_ Hx]%read_Some).
    apply (list_elem_of_lookup_2 _ (Z.to_nat j)).
    rewrite lookup_take_lt by lia. done.
Qed.

Lemma gallop_spec fuel large len base span key :
  StronglySorted Z.lt (take (Z.to_nat len) large) →
  len ≤ Z.of_nat (length large) →
  0 ≤ base → 1 ≤ span → base + span / 2 < len →
  (∃ v, Mem.read large (base + span / 2) = Some v ∧ v < key) →
  ∃ lo hi, gallop fuel large len base span key = Some (lo, hi) ∧
           base < lo ≤ hi ∧ hi ≤ len ∧
           below large lo key ∧ not_below large len hi key.
Proof.
  intros Hs Hlen Hbase. revert span.
  assert (∀ span, 1 ≤ span → base + span / 2 < len →
          (∃ v, Mem.read large (base + span / 2) = Some v ∧ v < key) →
          base < base + span / 2 + 1 ≤ len ∧
          below large (base + span / 2 + 1) key ∧
          not_below large len len key) as Hend.
  { intros span Hspan Hin (v & Hv & Hvk).
    split; [Z.div_mod_to_equations; lia|]. split.
    - intros j w Hj Hw.
      pose proof (sorted_read_le _ _ _ _ _ _ Hs Hw Hv). lia.
    - intros j w Hj. lia. }
  induction fuel as [|fuel IH]; intros span Hspan Hin Hprobe; simpl.
  { destruct (Hend span) as (? & ? & ?); [done..|].
    eexists _, _. split; [done|]. split_and!; done || lia. }
  destruct (Z.ltb_spec (base + span) len) as [Hnext|Hpast].
  - destruct (read_is_Some large (base + span)) as [v Hv]; [lia|].
    rewrite Hv. simpl. destruct (Z.ltb_spec v key) as [Hvk|Hvk].
    + apply IH; [lia| |].
      * replace (2 * span / 2) with span by (Z.div_mod_to_equations; lia).
        done.
      * replace (2 * span / 2) with span by (Z.div_mod_to_equations; lia).
        eauto.
    + destruct (Hend span) as (? & Hbelow & _); [done..|].
      eexists _, _. split; [done|].
      split; [Z.div_mod_to_equations; lia|]. split; [lia|].
      split; [done|]. intros j w Hj Hw.
      pose proof (sorted_read_le _ _ _ _ _ _ Hs Hv Hw). lia.
  - destruct (Hend span) as (? & ? & ?); [done..|].
    eexists _, _. split; [done|]. split_and!; done || lia.
Qed.

Lemma advanceUntil_spec large len pos key :
  StronglySorted Z.lt (take (Z.to_nat len) large) →
  len ≤ Z.of_nat (length large) →
  0 ≤ pos ≤ len → below large pos key →
  ∃ idx, advanceUntil large len pos key = Some idx ∧
         pos ≤ idx ≤ len ∧
         below large idx key ∧ not_below large len idx key.
Proof.
  intros Hs Hlen Hpos Hbelow. unfold advanceUntil.
  destruct (Z.leb_spec len pos) as [Hend|Hin].
  { exists len. split; [done|]. split; [lia|].
    replace len with pos by lia. split; [done|]. intros j w Hj. lia. }
  destruct (read_is_Some large pos) as [v Hv]; [lia|]. rewrite Hv.
  cbn [mbind option_bind].
  destruct (Z.leb_spec key v) as [Hkv|Hvk].
  { exists pos. split; [done|]. split; [lia|]. split; [done|].
    intros j w Hj Hw.
    pose proof (sorted_read_le _ _ _ _ _ _ Hs Hv Hw). lia. }
  destruct (gallop_spec (Z.to_nat len) large len pos 1 key)
    as (lo & hi & -> & Hlohi & Hhi & Hlo_below & Hhi_above);
    [done|lia|lia|lia|..].
  { replace (1 / 2) with 0 by done. lia. }
  { replace (1 / 2) with 0 by done. rewrite Z.add_0_r. eauto. }
  cbn [mbind option_bind].
  destruct (binarySearch_loop_spec (S (Z.to_nat (hi - lo))) large len lo
              (hi - 1) key) as (r & -> & Hr); [done|lia|lia|lia|lia|lia|done|].
  cbn [mbind option_bind]. destruct Hr as [[Hwin Hhit]|(Hp & Hr_below & Hr_above)].
  - destruct (Z.ltb_spec r 0); [lia|].
    exists r. split; [done|]. split; [lia|]. split.
    + intros j w Hj Hw.
      pose proof (sorted_read_lt _ _ _ _ _ _ Hs Hw Hhit). lia.
    + intros j w Hj Hw.
      pose proof (sorted_read_le _ _ _ _ _ _ Hs Hhit Hw). lia.
  - destruct (Z.ltb_spec r 0); [|lia].
    exists (- r - 1). split; [done|]. split; [lia|]. split; [done|].
    intros j w Hj Hw. destruct (decide (j ≤ hi - 1)).
    + apply Z.lt_le_incl. eapply Hr_above; [|done]. lia.
    + eapply Hhi_above; [|done]. lia.
Qed.

(** On strictly increasing sequences the probing keeps exactly the probes
that occur in the larger sequence. *)
Lemma skewed_probe_filter large size_l small idx_l :
  StronglySorted Z.lt (take (Z.to_nat size_l) large) →
  size_l ≤ Z.of_nat (length large) →
  StronglySorted Z.lt small →
  0 ≤ idx_l ≤ size_l →
  Forall (below large idx_l) small →
  skewed_probe large size_l small idx_l
  = Some (filter (.∈ take (Z.to_nat size_l) large) small).
Proof.
  intros Hs Hlen Hsmall. revert idx_l.
  induction Hsmall as [|s small Hsmall IH Hrest]; intros idx_l Hidx Hbelow;
    [done|].
  apply Forall_cons in Hbelow as [Hb Hbs]. simpl.
  destruct (advanceUntil_spec large size_l idx_l s)
    as (idx & -> & Hrange & Hidx_below & Hidx_above); [done..|]. simpl.
  rewrite Forall_forall in Hrest.
  assert (Forall (below large idx) small) as Hnext.
  { apply Forall_forall. intros s' Hs' j w Hj Hw.
    specialize (Hrest s' Hs'). specialize (Hidx_below j w Hj Hw). lia. }
  destruct (Z.ltb_spec idx size_l) as [Hin|Hout].
  - destruct (read_is_Some large idx) as [v Hv]; [lia|]. rewrite Hv. simpl.
    destruct (Z.eqb_spec v s) as [->|Hne].
    + rewrite IH by (done || lia). simpl.
      rewrite filter_cons_True; [done|].
      apply elem_of_take_read. exists idx. split; [lia|done].
    + rewrite IH by (done || lia).
      rewrite filter_cons_False; [done|].
      intros (j & Hj & Hw)%elem_of_take_read.
      destruct (decide (j < idx)).
      * specialize (Hidx_below j s ltac:(done) Hw). lia.
      * specialize (Hidx_above idx v ltac:(lia) Hv).
        pose proof (sorted_read_le _ _ _ _ _ _ Hs Hv Hw). lia.
  - f_equal. symmetry. apply filter_none.
    intros s' Hs' (j & Hj & Hw)%elem_of_take_read.
    assert (s ≤ s') as Hle.
    { apply elem_of_cons in Hs' as [->|Hs']; [lia|].
      specialize (Hrest s' Hs'). lia. }
    specialize (Hidx_below j s' ltac:(lia) Hw). lia.
Qed.

(** ** Running the collaborators *)

Lemma span_prefix b n :
  0 ≤ n ≤ Z.of_nat (length b) → Mem.span b 0 n = Some (take (Z.to_nat n) b).
Proof. intros Hn. rewrite span_Some by lia. done. Qed.

Lemma blit_prefix b vs :
  Z.of_nat (length vs) ≤ Z.of_nat (length b) →
  Mem.blit b 0 vs = Some (vs ++ drop (length vs) b).
Proof. intros Hn. rewrite blit_Some by lia. done. Qed.

Lemma length_blit_prefix (b vs : list Z) :
  (length vs ≤ length b)%nat → length (vs ++ drop (length vs) b) = length b.
Proof. intros Hn. rewrite length_app, length_drop. lia. Qed.

Lemma take_blit_prefix (b vs : list Z) :
  take (length vs) (vs ++ drop (length vs) b) = vs.
Proof. by rewrite take_app_length. Qed.

Lemma elem_of_intersection_list a b x :
  x ∈ intersection_list a b ↔ x ∈ a ∧ x ∈ b.
Proof. unfold intersection_list. rewrite list_elem_of_filter. tauto. Qed.

Lemma sorted_intersection_list a b :
  StronglySorted Z.lt a → StronglySorted Z.lt (intersection_list a b).
Proof. apply sorted_filter. Qed.

Lemma intersection_list_comm a b :
  StronglySorted Z.lt a → StronglySorted Z.lt b →
  intersection_list a b = intersection_list b a.
Proof.
  intros Ha Hb. apply sorted_ext; auto using sorted_intersection_list.
  intros x. rewrite !elem_of_intersection_list. tauto.
Qed.

Lemma length_intersection_list a b :
  StronglySorted Z.lt a → StronglySorted Z.lt b →
  (length (intersection_list a b) ≤ length a `min` length b)%nat.
Proof.
  intros Ha Hb. apply Nat.min_glb.
  - apply length_filter.
  - rewrite intersection_list_comm by done. apply length_filter.
Qed.

Lemma union_uint16_run set_1 size_1 set_2 size_2 buffer :
  0 ≤ size_1 ≤ Z.of_nat (length set_1) →
  0 ≤ size_2 ≤ Z.of_nat (length set_2) →
  size_1 + size_2 ≤ Z.of_nat (length buffer) →
  let r := union_merge (take (Z.to_nat size_1) set_1)
                       (take (Z.to_nat size_2) set_2) in
  union_uint16 set_1 size_1 set_2 size_2 buffer
  = Some (Z.of_nat (length r), r ++ drop (length r) buffer).
Proof.
  intros H1 H2 Hbuf r. unfold union_uint16.
  rewrite !span_prefix by done. simpl. fold r.
  rewrite blit_prefix; [done|].
  pose proof (length_union_merge (take (Z.to_nat size_1) set_1)
                (take (Z.to_nat size_2) set_2)) as Hlen.
  rewrite !length_take in Hlen. fold r in Hlen. lia.
Qed.

Lemma intersect_uint16_run A lenA B lenB out :
  0 ≤ lenA ≤ Z.of_nat (length A) → 0 ≤ lenB ≤ Z.of_nat (length B) →
  StronglySorted Z.lt (take (Z.to_nat lenA) A) →
  StronglySorted Z.lt (take (Z.to_nat lenB) B) →
  Z.min lenA lenB ≤ Z.of_nat (length out) →
  let r := intersection_list (take (Z.to_nat lenA) A)
                             (take (Z.to_nat lenB) B) in
  intersect_uint16 A lenA B lenB out
  = Some (Z.of_nat (length r), r ++ drop (length r) out).
Proof.
  intros HA HB HsA HsB Hout r. unfold intersect_uint16.
  rewrite !span_prefix by done. simpl.
  rewrite intersect_merge_filter by done. fold (intersection_list
    (take (Z.to_nat lenA) A) (take (Z.to_nat lenB) B)). fold r.
  rewrite blit_prefix; [done|].
  pose proof (length_intersection_list _ _ HsA HsB) as Hlen.
  rewrite !length_take in Hlen. fold r in Hlen. lia.
Qed.

Lemma intersect_skewed_uint16_run small size_s large size_l buffer :
  0 ≤ size_s ≤ Z.of_nat (length small) →
  0 ≤ size_l ≤ Z.of_nat (length large) →
  StronglySorted Z.lt (take (Z.to_nat size_s) small) →
  StronglySorted Z.lt (take (Z.to_nat size_l) large) →
  Z.min size_s size_l ≤ Z.of_nat (length buffer) →
  let r := intersection_list (take (Z.to_nat size_s) small)
                             (take (Z.to_nat size_l) large) in
  intersect_skewed_uint16 small size_s large size_l buffer
  = Some (Z.of_nat (length r), r ++ drop (length r) buffer).
Proof.
  intros HA HB HsA HsB Hout r. unfold intersect_skewed_uint16.
  rewrite !span_prefix by done. simpl.
  rewrite skewed_probe_filter; [|done|lia|done|lia|].
  - simpl. fold (intersection_list (take (Z.to_nat size_s) small)
                   (take (Z.to_nat size_l) large)). fold r.
    rewrite blit_prefix; [done|].
    pose proof (length_intersection_list _ _ HsA HsB) as Hlen.
    rewrite !length_take in Hlen. fold r in Hlen. lia.
  - apply Forall_forall. intros s _ j w Hj Hw.
    apply read_in_bounds in Hw. lia.
Qed.

(** ** Running computations in the store *)

Lemma run_bind {A B} (m : M A) (k : A → M B) h a h' :
  m h = Some (a, h') → (m ≫= k) h = k a h'.
Proof. intros Hm. unfold mbind, M_bind. by rewrite Hm. Qed.

Lemma run_ret {A} (a : A) (h : gmap positive array_container_t) :
  (mret a : M A) h = Some (a, h).
Proof. done. Qed.

Lemma run_lift {A} (o : option A) a (h : gmap positive array_container_t) :
  o = Some a → lift o h = Some (a, h).
Proof. by intros ->. Qed.

Lemma run_load p c (h : gmap positive array_container_t) :
  h !! p = Some c → load p h = Some (c, h).
Proof. intros Hp. unfold load. by rewrite Hp. Qed.

Lemma run_store p c c' (h : gmap positive array_container_t) :
  h !! p = Some c → store p c' h = Some ((), <[p := c']> h).
Proof. intros Hp. unfold store. by rewrite Hp. Qed.

Lemma run_get {A} (field : array_container_t → A) p c
    (h : gmap positive array_container_t) :
  h !! p = Some c → get field p h = Some (field c, h).
Proof.
  intros Hp. unfold get. by rewrite (run_bind _ _ _ _ _ (run_load _ _ _ Hp)).
Qed.

Lemma run_set_array p c a (h : gmap positive array_container_t) :
  h !! p = Some c → set_array p a h = Some ((), <[p := with_array c a]> h).
Proof.
  intros Hp. unfold set_array.
  rewrite (run_bind _ _ _ _ _ (run_load _ _ _ Hp)). by apply (run_store p c).
Qed.

Lemma run_set_cardinality p c n (h : gmap positive array_container_t) :
  h !! p = Some c →
  set_cardinality p n h = Some ((), <[p := with_cardinality c n]> h).
Proof.
  intros Hp. unfold set_cardinality.
  rewrite (run_bind _ _ _ _ _ (run_load _ _ _ Hp)). by apply (run_store p c).
Qed.

Lemma run_on {A} p (f : array_container_t → option (A * array_container_t))
    c a c' (h : gmap positive array_container_t) :
  h !! p = Some c → f c = Some (a, c') →
  on p f h = Some (a, <[p := c']> h).
Proof.
  intros Hp Hf. unfold on.
  rewrite (run_bind _ _ _ _ _ (run_load _ _ _ Hp)).
  rewrite (run_bind _ _ _ (a, c') h) by (by apply run_lift).
  rewrite (run_bind _ _ _ _ _ (run_store _ _ _ _ Hp)). done.
Qed.

Lemma on_None {A} p (f : array_container_t → option (A * array_container_t))
    c (h : gmap positive array_container_t) :
  h !! p = Some c → f c = None → on p f h = None.
Proof.
  intros Hp Hf. unfold on.
  rewrite (run_bind _ _ _ _ _ (run_load _ _ _ Hp)).
  unfold mbind, M_bind, lift. by rewrite Hf.
Qed.

(** Looking a pointer up in a store built by updates. *)
Ltac heap_lookup :=
  repeat first [rewrite lookup_insert_eq | rewrite lookup_insert_ne by done];
  first [reflexivity | eassumption].

(** Run the first step of a computation whose pointers are known. *)
Ltac run_step :=
  first
    [ erewrite run_bind by (eapply run_get; heap_lookup)
    | erewrite run_bind by (eapply run_set_array; heap_lookup)
    | erewrite run_bind by (eapply run_set_cardinality; heap_lookup)
    | erewrite run_bind by (eapply run_ret)
    | erewrite run_get by heap_lookup
    | erewrite run_set_array by heap_lookup
    | erewrite run_set_cardinality by heap_lookup ].

Lemma prepare_output (needed : Z) out O
    (h : gmap positive array_container_t) :
  h !! out = Some O → 0 ≤ needed ≤ INT32_MAX →
  Z.of_nat (length (array O)) = capacity O →
  (if capacity O <? needed
   then on out (λ c, c ← array_container_grow c needed INT32_MAX false;
                     Some ((), c))
   else mret ()) h = Some ((), <[out := prepared O needed]> h) ∧
  (if capacity O <? needed
   then array_container_grow O needed INT32_MAX false
   else Some O) = Some (prepared O needed) ∧
  needed ≤ capacity (prepared O needed) ∧
  Z.of_nat (length (array (prepared O needed))) = capacity (prepared O needed) ∧
  cardinality (prepared O needed) = cardinality O.
Proof.
  intros Hout Hneeded Hlen. unfold prepared.
  destruct (Z.ltb_spec (capacity O) needed) as [Hsmall|Hroom].
  - pose proof (grown_bounds O needed INT32_MAX false
                  in_int32_MAX ltac:(lia)) as Hgrow.
    assert (array_container_grow O needed INT32_MAX false
            = Some (grown O needed INT32_MAX false)) as Hrun.
    { apply array_container_grow_Some.
      destruct (decide (capacity (grown O needed INT32_MAX false) = 0));
        [by right|left; lia]. }
    split; [erewrite run_on; [done..|by rewrite Hrun]|]. split; [done|].
    split; [lia|]. split; [rewrite length_array_grown; lia|done].
  - split; [by rewrite insert_id|]. split; [done|]. split; [lia|done].
Qed.

Lemma prepared_enough O needed : needed ≤ capacity O → prepared O needed = O.
Proof.
  intros Hroom. unfold prepared.
  destruct (Z.ltb_spec (capacity O) needed); [lia|done].
Qed.

Lemma wf_output O1 (r : list Z) :
  Z.of_nat (length (array O1)) = capacity O1 →
  Z.of_nat (length r) ≤ capacity O1 →
  Forall uint16 r → StronglySorted Z.lt r →
  contents (output_of O1 r) = r ∧ wf (output_of O1 r).
Proof.
  intros Hlen Hfit Hb Hs.
  assert (contents (output_of O1 r) = r) as Hcontents.
  { unfold contents, output_of.
    cbn [cardinality array with_cardinality with_array].
    rewrite Nat2Z.id. apply take_blit_prefix. }
  split; [done|].
  split; [cbn; lia|]. split.
  - cbn [array capacity output_of with_cardinality with_array].
    rewrite length_blit_prefix by lia. done.
  - by rewrite Hcontents.
Qed.

(** What a set algorithm leaves outside the cardinality field and the
slots it wrote. *)
Lemma output_of_frame O1 (r : list Z) :
  (length r ≤ length (array O1))%nat →
  capacity (output_of O1 r) = capacity O1 ∧
  length (array (output_of O1 r)) = length (array O1) ∧
  drop (length r) (array (output_of O1 r)) = drop (length r) (array O1).
Proof.
  intros Hfit. split; [done|].
  cbn [array output_of with_cardinality with_array].
  split; [by apply length_blit_prefix|]. by rewrite drop_app_length.
Qed.

(** ** Union *)

Lemma union_merge_comm l1 l2 :
  StronglySorted Z.lt l1 → StronglySorted Z.lt l2 →
  union_merge l1 l2 = union_merge l2 l1.
Proof.
  intros H1 H2. apply sorted_ext; auto using sorted_union_merge.
  intros x. rewrite !elem_of_union_merge. tauto.
Qed.

Lemma union_merge_uint16 l1 l2 :
  Forall uint16 l1 → Forall uint16 l2 → Forall uint16 (union_merge l1 l2).
Proof.
  rewrite !Forall_forall. intros H1 H2 x [Hx|Hx]%elem_of_union_merge; auto.
Qed.

Lemma length_union_contents A B :
  wf A → wf B →
  Z.of_nat (length (union_merge (contents A) (contents B)))
  ≤ cardinality A + cardinality B.
Proof.
  intros HA HB.
  pose proof (length_union_merge (contents A) (contents B)) as Hl.
  rewrite <- (wf_contents_length A), <- (wf_contents_length B) by done. lia.
Qed.

(** What [array_container_union] does to the store. *)
Lemma array_container_union_run
    (h : gmap positive array_container_t) array_1 array_2 out A B O :
  h !! array_1 = Some A → h !! array_2 = Some B → h !! out = Some O →
  out ≠ array_1 → out ≠ array_2 →
  wf A → wf B → Z.of_nat (length (array O)) = capacity O →
  array_container_union array_1 array_2 out h
  = Some ((), <[out := output_of
                         (prepared O (cardinality A + cardinality B))
                         (union_merge (contents A) (contents B))]> h).
Proof.
  intros H1 H2 Hout Hne1 Hne2 HwfA HwfB HlenO.
  pose proof (wf_cardinality_bound A HwfA) as HcardA.
  pose proof (wf_cardinality_bound B HwfB) as HcardB.
  pose proof (length_union_contents A B HwfA HwfB) as Hlr.
  pose proof HwfA as (HcA & HlenA & HbA & HsA).
  pose proof HwfB as (HcB & HlenB & HbB & HsB).
  destruct (prepare_output (cardinality A + cardinality B) out O h)
    as (Hprep & _ & Hcap1 & Hlen1 & Hcard1);
    [done|unfold INT32_MAX; lia|done|].
  set (O1 := prepared O (cardinality A + cardinality B)) in *.
  set (r := union_merge (contents A) (contents B)) in *.
  unfold array_container_union. do 2 run_step.
  rewrite int32_id by (unfold in_int32, INT32_MIN, INT32_MAX; lia).
  run_step. rewrite (run_bind _ _ _ _ _ Hprep). do 3 run_step.
  erewrite run_bind; cycle 1.
  { apply run_lift. destruct (Z.ltb_spec (cardinality A) (cardinality B)).
    - rewrite union_uint16_run by lia. cbv zeta. fold (contents A).
      fold (contents B). fold r. done.
    - rewrite union_uint16_run by lia. cbv zeta. fold (contents A).
      fold (contents B). rewrite union_merge_comm by done. fold r. done. }
  cbv beta iota. run_step. run_step.
  rewrite !insert_insert_eq. done.
Qed.

(** C5.  For well-formed containers [A] and [B] and an output container
distinct from both: [array_container_union] grows the output without
preserving exactly when its capacity is below [|A| + |B|] (the buffer after
the call is the result followed by the untouched slots of the buffer the
merge received); the output is left well-formed, so strictly increasing and
free of duplicates, its contents are the set [A ∪ B], and its cardinality is
the number of distinct elements.  No other container changes. *)
Theorem array_container_union_spec
    (h : gmap positive array_container_t) array_1 array_2 out A B O :
  h !! array_1 = Some A → h !! array_2 = Some B → h !! out = Some O →
  out ≠ array_1 → out ≠ array_2 →
  wf A → wf B → Z.of_nat (length (array O)) = capacity O →
  ∃ O1 O',
    (if capacity O <? cardinality A + cardinality B
     then array_container_grow O (cardinality A + cardinality B)
            INT32_MAX false
     else Some O) = Some O1 ∧
    array_container_union array_1 array_2 out h
    = Some ((), <[out := O']> h) ∧
    capacity O' = capacity O1 ∧
    array O' = contents O' ++ drop (length (contents O')) (array O1) ∧
    wf O' ∧
    (list_to_set (contents O') : gset Z)
    = list_to_set (contents A) ∪ list_to_set (contents B) ∧
    cardinality O'
    = Z.of_nat (size (list_to_set (contents A) ∪ list_to_set (contents B)
                      : gset Z)).
Proof.
  intros H1 H2 Hout Hne1 Hne2 HwfA HwfB HlenO.
  set (O1 := prepared O (cardinality A + cardinality B)).
  pose proof (wf_cardinality_bound A HwfA) as HcardA.
  pose proof (wf_cardinality_bound B HwfB) as HcardB.
  pose proof (length_union_contents A B HwfA HwfB) as Hlr.
  pose proof HwfA as (_ & _ & HbA & HsA).
  pose proof HwfB as (_ & _ & HbB & HsB).
  destruct (prepare_output (cardinality A + cardinality B) out O h)
    as (_ & Hgrow1 & Hcap1 & Hlen1 & _); [done|unfold INT32_MAX; lia|done|].
  set (r := union_merge (contents A) (contents B)) in *.
  assert (StronglySorted Z.lt r) as Hsr by (by apply sorted_union_merge).
  destruct (wf_output O1 r) as (Hcontents & Hwf');
    [done|subst O1; lia|by apply union_merge_uint16|done|].
  exists O1, (output_of O1 r). split; [done|].
  split; [by apply array_container_union_run|].
  split; [done|]. split; [by rewrite Hcontents|]. split; [done|].
  assert ((list_to_set r : gset Z)
          = list_to_set (contents A) ∪ list_to_set (contents B)) as Hset.
  { apply set_eq. intros x.
    rewrite elem_of_union, !elem_of_list_to_set. apply elem_of_union_merge. }
  rewrite Hcontents. split; [done|].
  rewrite <- Hset, size_list_to_set by (by apply sorted_NoDup). done.
Qed.

(** ** Intersection *)

Lemma intersection_list_uint16 a b :
  Forall uint16 a → Forall uint16 (intersection_list a b).
Proof.
  rewrite !Forall_forall. intros Ha x [Hx _]%elem_of_intersection_list. auto.
Qed.

Lemma length_intersection_contents A B :
  wf A → wf B →
  Z.of_nat (length (intersection_list (contents A) (contents B)))
  ≤ Z.min (cardinality A) (cardinality B).
Proof.
  intros HA HB. pose proof HA as (_ & _ & _ & HsA).
  pose proof HB as (_ & _ & _ & HsB).
  pose proof (length_intersection_list _ _ HsA HsB) as Hl.
  rewrite <- (wf_contents_length A), <- (wf_contents_length B) by done. lia.
Qed.

Lemma minimum_min a b : minimum a b = Z.min a b.
Proof. unfold minimum. destruct (Z.ltb_spec a b); lia. Qed.

(** Whatever the path, the collaborator writes the intersection, in
ascending order, at the start of the output buffer. *)
Lemma intersect_with_run s A B (o : list Z) :
  wf A → wf B →
  Z.min (cardinality A) (cardinality B) ≤ Z.of_nat (length o) →
  intersect_with s (array A) (cardinality A) (array B) (cardinality B) o
  = Some (Z.of_nat (length (intersection_list (contents A) (contents B))),
          intersection_list (contents A) (contents B)
          ++ drop (length (intersection_list (contents A) (contents B))) o).
Proof.
  intros (HcA & HlenA & HbA & HsA) (HcB & HlenB & HbB & HsB) Ho.
  destruct s; unfold intersect_with.
  - by rewrite intersect_skewed_uint16_run by (done || lia).
  - rewrite intersect_skewed_uint16_run by (done || lia). cbv zeta.
    fold (contents A). fold (contents B).
    by rewrite (intersection_list_comm (contents B)).
  - by rewrite intersect_uint16_run by (done || lia).
Qed.

(** The if-chain of [array_container_intersection] calls the collaborator
that [intersection_strategy] names, whatever the containers hold. *)
Lemma intersection_dispatch (a1 a2 o : list Z) card_1 card_2 :
  (if int32 (card_1 * 64) <? card_2
   then intersect_skewed_uint16 a1 card_1 a2 card_2 o
   else if int32 (card_2 * 64) <? card_1
   then intersect_skewed_uint16 a2 card_2 a1 card_1 o
   else intersect_uint16 a1 card_1 a2 card_2 o)
  = intersect_with (intersection_strategy card_1 card_2)
      a1 card_1 a2 card_2 o.
Proof.
  unfold intersection_strategy. cbv zeta.
  destruct (int32 (card_1 * 64) <? card_2); [done|].
  by destruct (int32 (card_2 * 64) <? card_1).
Qed.

(** The selection of the source is the selection of the specification, as
long as 64 times each cardinality is an [int32_t]. *)
Lemma intersection_strategy_in_range card_1 card_2 :
  in_int32 (card_1 * 64) → in_int32 (card_2 * 64) →
  intersection_strategy card_1 card_2 = strategy_spec card_1 card_2.
Proof.
  intros H1 H2. unfold intersection_strategy, strategy_spec. cbv zeta.
  rewrite !int32_id by done.
  destruct (Z.ltb_spec (card_1 * 64) card_2); [case_decide; [done|lia]|].
  case_decide; [lia|].
  destruct (Z.ltb_spec (card_2 * 64) card_1); case_decide; done || lia.
Qed.

Lemma intersection_strategy_spec A B :
  wf A → wf B →
  intersection_strategy (cardinality A) (cardinality B)
  = strategy_spec (cardinality A) (cardinality B).
Proof.
  intros HA%wf_cardinality_bound HB%wf_cardinality_bound.
  unfold intersection_strategy, strategy_spec. cbv zeta.
  rewrite !int32_id by (unfold in_int32, INT32_MIN, INT32_MAX; lia).
  destruct (Z.ltb_spec (cardinality A * 64) (cardinality B));
    [case_decide; [done|lia]|].
  case_decide; [lia|].
  destruct (Z.ltb_spec (cardinality B * 64) (cardinality A));
    case_decide; done || lia.
Qed.

(** What the intersection does to the store, whatever the path. *)
Lemma array_container_intersection_forced_run s
    (h : gmap positive array_container_t) array1 array2 out A B O :
  h !! array1 = Some A → h !! array2 = Some B → h !! out = Some O →
  out ≠ array1 → out ≠ array2 →
  wf A → wf B → Z.of_nat (length (array O)) = capacity O →
  array_container_intersection_forced s array1 array2 out h
  = Some ((), <[out := output_of
                         (prepared O (Z.min (cardinality A) (cardinality B)))
                         (intersection_list (contents A) (contents B))]> h).
Proof.
  intros H1 H2 Hout Hne1 Hne2 HwfA HwfB HlenO.
  pose proof (wf_cardinality_bound A HwfA) as HcardA.
  pose proof (wf_cardinality_bound B HwfB) as HcardB.
  destruct (prepare_output (Z.min (cardinality A) (cardinality B)) out O h)
    as (Hprep & _ & Hcap1 & Hlen1 & Hcard1);
    [done|unfold INT32_MAX; lia|done|].
  unfold array_container_intersection_forced. do 3 run_step.
  rewrite minimum_min. rewrite (run_bind _ _ _ _ _ Hprep). do 3 run_step.
  erewrite run_bind
    by (apply run_lift; apply intersect_with_run; done || lia).
  cbv beta iota. run_step. run_step.
  rewrite !insert_insert_eq. done.
Qed.

(** [array_container_intersection] is the intersection forced down the path
that [intersection_strategy] names: for every three containers, well-formed
or not, the output being distinct from the inputs. *)
Lemma array_container_intersection_dispatches
    (h : gmap positive array_container_t) array1 array2 out A B O :
  h !! array1 = Some A → h !! array2 = Some B → h !! out = Some O →
  out ≠ array1 → out ≠ array2 →
  array_container_intersection array1 array2 out h
  = array_container_intersection_forced
      (intersection_strategy (cardinality A) (cardinality B))
      array1 array2 out h.
Proof.
  intros H1 H2 Hout Hne1 Hne2.
  set (prepare := if capacity O <? minimum (cardinality A) (cardinality B)
                  then on out (λ c,
                         c ← array_container_grow c
                               (minimum (cardinality A) (cardinality B))
                               INT32_MAX false;
                         Some ((), c))
                  else mret ()).
  assert (prepare h = None ∨ ∃ O1, prepare h = Some ((), <[out := O1]> h))
    as [Hprep|(O1 & Hprep)].
  { unfold prepare.
    destruct (capacity O <? minimum (cardinality A) (cardinality B)).
    - destruct (array_container_grow O
                  (minimum (cardinality A) (cardinality B)) INT32_MAX false)
        as [O1|] eqn:Hgrow.
      + right. exists O1. erewrite run_on; [done..|by rewrite Hgrow].
      + left. erewrite on_None; [done..|by rewrite Hgrow].
    - right. exists O. by rewrite insert_id. }
  - unfold array_container_intersection, array_container_intersection_forced.
    do 3 run_step. symmetry. do 3 run_step. symmetry.
    fold prepare. unfold mbind, M_bind. by rewrite Hprep.
  - unfold array_container_intersection, array_container_intersection_forced.
    do 3 run_step. symmetry. do 3 run_step. symmetry.
    fold prepare. rewrite !(run_bind _ _ _ _ _ Hprep).
    do 3 run_step. symmetry. do 3 run_step. symmetry.
    by rewrite intersection_dispatch.
Qed.

Lemma array_container_intersection_selects
    (h : gmap positive array_container_t) array1 array2 out A B O :
  h !! array1 = Some A → h !! array2 = Some B → h !! out = Some O →
  out ≠ array1 → out ≠ array2 →
  wf A → wf B →
  array_container_intersection array1 array2 out h
  = array_container_intersection_forced
      (strategy_spec (cardinality A) (cardinality B)) array1 array2 out h.
Proof.
  intros H1 H2 Hout Hne1 Hne2 HwfA HwfB.
  rewrite <- intersection_strategy_spec by done.
  by apply (array_container_intersection_dispatches h _ _ _ A B O).
Qed.

Lemma array_container_intersection_run
    (h : gmap positive array_container_t) array1 array2 out A B O :
  h !! array1 = Some A → h !! array2 = Some B → h !! out = Some O →
  out ≠ array1 → out ≠ array2 →
  wf A → wf B → Z.of_nat (length (array O)) = capacity O →
  array_container_intersection array1 array2 out h
  = Some ((), <[out := output_of
                         (prepared O (Z.min (cardinality A) (cardinality B)))
                         (intersection_list (contents A) (contents B))]> h).
Proof.
  intros H1 H2 Hout Hne1 Hne2 HwfA HwfB HlenO.
  rewrite (array_container_intersection_selects h array1 array2 out A B O)
    by done.
  by apply array_container_intersection_forced_run.
Qed.

(** C6.  For well-formed containers [A] and [B] and an output container
distinct from both: [array_container_intersection] grows the output without
preserving exactly when its capacity is below [min(|A|, |B|)]; it leaves the
output well-formed, so strictly increasing, holding the set [A ∩ B]; and the
path its if-chain takes is the path of the specification's selection: skewed
when one cardinality exceeds 64 times the other, balanced otherwise.  The
paths return the same result on strictly increasing operands, so the path is
pinned on all operands: whatever the three containers hold, sorted or not,
the call is the intersection forced down the path that the specification
selects. *)
Theorem array_container_intersection_spec
    (h : gmap positive array_container_t) array1 array2 out A B O :
  h !! array1 = Some A → h !! array2 = Some B → h !! out = Some O →
  out ≠ array1 → out ≠ array2 →
  wf A → wf B → Z.of_nat (length (array O)) = capacity O →
  (∃ O1 O',
     (if capacity O <? Z.min (cardinality A) (cardinality B)
      then array_container_grow O
             (Z.min (cardinality A) (cardinality B)) INT32_MAX false
      else Some O) = Some O1 ∧
     array_container_intersection array1 array2 out h
     = Some ((), <[out := O']> h) ∧
     intersection_strategy (cardinality A) (cardinality B)
     = strategy_spec (cardinality A) (cardinality B) ∧
     array_container_intersection array1 array2 out h
     = array_container_intersection_forced
         (strategy_spec (cardinality A) (cardinality B))
         array1 array2 out h ∧
     capacity O' = capacity O1 ∧
     array O' = contents O' ++ drop (length (contents O')) (array O1) ∧
     wf O' ∧
     (list_to_set (contents O') : gset Z)
     = list_to_set (contents A) ∩ list_to_set (contents B)) ∧
  (∀ (h' : gmap positive array_container_t) A' B' O',
     h' !! array1 = Some A' → h' !! array2 = Some B' →
     h' !! out = Some O' →
     in_int32 (cardinality A' * 64) → in_int32 (cardinality B' * 64) →
     array_container_intersection array1 array2 out h'
     = array_container_intersection_forced
         (strategy_spec (cardinality A') (cardinality B'))
         array1 array2 out h').
Proof.
  intros H1 H2 Hout Hne1 Hne2 HwfA HwfB HlenO. split; cycle 1.
  { intros h' A' B' O' H1' H2' Hout' HA' HB'.
    rewrite <- intersection_strategy_in_range by done.
    by apply (array_container_intersection_dispatches h' _ _ _ A' B' O'). }
  set (O1 := prepared O (Z.min (cardinality A) (cardinality B))).
  pose proof (wf_cardinality_bound A HwfA) as HcardA.
  pose proof (wf_cardinality_bound B HwfB) as HcardB.
  pose proof (length_intersection_contents A B HwfA HwfB) as Hlr.
  pose proof HwfA as (_ & _ & HbA & HsA).
  destruct (prepare_output (Z.min (cardinality A) (cardinality B)) out O h)
    as (_ & Hgrow1 & Hcap1 & Hlen1 & _); [done|unfold INT32_MAX; lia|done|].
  set (r := intersection_list (contents A) (contents B)) in *.
  destruct (wf_output O1 r) as (Hcontents & Hwf');
    [done|subst O1; lia|by apply intersection_list_uint16
    |by apply sorted_intersection_list|].
  exists O1, (output_of O1 r). split; [done|].
  split; [by apply array_container_intersection_run|].
  split; [by apply intersection_strategy_spec|].
  split; [by apply (array_container_intersection_selects h _ _ _ A B O)|].
  split; [done|]. split; [by rewrite Hcontents|]. split; [done|].
  rewrite Hcontents. apply set_eq. intros x.
  rewrite elem_of_intersection, !elem_of_list_to_set.
  apply elem_of_intersection_list.
Qed.

(** C7.  For well-formed containers [A] and [B]: the skewed collaborator and
the balanced collaborator return the same count and the same buffer, and the
intersection forced down a skewed path leaves the same store as the
intersection forced down the balanced path. *)
Theorem intersection_path_independent
    (h : gmap positive array_container_t) array1 array2 out A B O :
  h !! array1 = Some A → h !! array2 = Some B → h !! out = Some O →
  out ≠ array1 → out ≠ array2 →
  wf A → wf B → Z.of_nat (length (array O)) = capacity O →
  (∀ o : list Z,
     Z.min (cardinality A) (cardinality B) ≤ Z.of_nat (length o) →
     is_Some (intersect_uint16 (array A) (cardinality A) (array B)
                (cardinality B) o) ∧
     intersect_skewed_uint16 (array A) (cardinality A) (array B)
       (cardinality B) o
     = intersect_uint16 (array A) (cardinality A) (array B) (cardinality B) o ∧
     intersect_skewed_uint16 (array B) (cardinality B) (array A)
       (cardinality A) o
     = intersect_uint16 (array A) (cardinality A) (array B) (cardinality B)
         o) ∧
  is_Some (array_container_intersection_forced Balanced array1 array2 out h) ∧
  array_container_intersection_forced Skewed_first_small array1 array2 out h
  = array_container_intersection_forced Balanced array1 array2 out h ∧
  array_container_intersection_forced Skewed_second_small array1 array2 out h
  = array_container_intersection_forced Balanced array1 array2 out h.
Proof.
  intros H1 H2 Hout Hne1 Hne2 HwfA HwfB HlenO. split.
  - intros o Ho.
    pose proof (intersect_with_run Balanced A B o HwfA HwfB Ho) as Hb.
    pose proof (intersect_with_run Skewed_first_small A B o HwfA HwfB Ho)
      as Hs1.
    pose proof (intersect_with_run Skewed_second_small A B o HwfA HwfB Ho)
      as Hs2.
    unfold intersect_with in *. rewrite Hb, Hs1, Hs2. eauto.
  - rewrite !(array_container_intersection_forced_run _ h array1 array2 out
                A B O) by done. eauto.
Qed.

(** C10.  For well-formed containers [A] and [B] and an output container
distinct from both whose capacity is already sufficient ([|A| + |B|] for the
union, [min(|A|, |B|)] for the intersection): the call leaves the capacity
and the size of the buffer of the output as they were, every slot at or after
the new cardinality as it was, and every other container as it was. *)
Theorem set_algorithms_frame
    (h : gmap positive array_container_t) array_1 array_2 out A B O :
  h !! array_1 = Some A → h !! array_2 = Some B → h !! out = Some O →
  out ≠ array_1 → out ≠ array_2 →
  wf A → wf B → Z.of_nat (length (array O)) = capacity O →
  (cardinality A + cardinality B ≤ capacity O →
   ∃ O', array_container_union array_1 array_2 out h
         = Some ((), <[out := O']> h) ∧
         capacity O' = capacity O ∧
         length (array O') = length (array O) ∧
         drop (Z.to_nat (cardinality O')) (array O')
         = drop (Z.to_nat (cardinality O')) (array O)) ∧
  (Z.min (cardinality A) (cardinality B) ≤ capacity O →
   ∃ O', array_container_intersection array_1 array_2 out h
         = Some ((), <[out := O']> h) ∧
         capacity O' = capacity O ∧
         length (array O') = length (array O) ∧
         drop (Z.to_nat (cardinality O')) (array O')
         = drop (Z.to_nat (cardinality O')) (array O)).
Proof.
  intros H1 H2 Hout Hne1 Hne2 HwfA HwfB HlenO. split; intros Hroom.
  - pose proof (length_union_contents A B HwfA HwfB) as Hlr.
    eexists. split; [by apply array_container_union_run|].
    rewrite prepared_enough by done.
    destruct (output_of_frame O (union_merge (contents A) (contents B)))
      as (Hcap & Hlen & Hdrop); [lia|].
    split; [done|]. split; [done|].
    cbn [cardinality output_of with_cardinality]. by rewrite Nat2Z.id.
  - pose proof (length_intersection_contents A B HwfA HwfB) as Hlr.
    eexists. split; [by apply array_container_intersection_run|].
    rewrite prepared_enough by done.
    destruct (output_of_frame O
                (intersection_list (contents A) (contents B)))
      as (Hcap & Hlen & Hdrop); [lia|].
    split; [done|]. split; [done|].
    cbn [cardinality output_of with_cardinality]. by rewrite Nat2Z.id.
Qed.

(** ** In-place intersection *)

Lemma with_array_id c : with_array c (array c) = c.
Proof. by destruct c. Qed.

Lemma drop_succ_eq (l1 l2 : list Z) (n : nat) :
  drop n l1 = drop n l2 → drop (S n) l1 = drop (S n) l2.
Proof.
  intros Heq. replace (S n) with (n + 1)%nat by lia.
  by rewrite <- !drop_drop, Heq.
Qed.

Section Inplace.

Context (h : gmap positive array_container_t) (src_1 src_2 : positive).
Context (A B : array_container_t).
Hypothesis (H1 : h !! src_1 = Some A) (H2 : h !! src_2 = Some B).
Hypothesis (Hne : src_1 ≠ src_2).
Hypothesis (HwfA : wf A) (HwfB : wf B).

Lemma inplace_store_initial : inplace_store h src_1 A (array A) = h.
Proof. unfold inplace_store. rewrite with_array_id. by apply insert_id. Qed.

Lemma inplace_inv_initial : inplace_inv A B (mk_cursors 0 0 0) (array A).
Proof.
  pose proof (wf_cardinality_bound A HwfA).
  pose proof (wf_cardinality_bound B HwfB).
  unfold inplace_inv. cbn. split_and!; done || lia.
Qed.

Lemma contents_lookup c (i : Z) v :
  0 ≤ i < cardinality c → Mem.read (array c) i = Some v →
  contents c !! Z.to_nat i = Some v.
Proof.
  intros Hi [_ Hv]%read_Some. unfold contents.
  rewrite lookup_take_lt by lia. done.
Qed.

Lemma inplace_step_spec k a :
  inplace_inv A B k a →
  (intersection_inplace_step src_1 src_2 k (inplace_store h src_1 A a)
   = Some (None, inplace_store h src_1 A a) ∧ inplace_pending A B k = []) ∨
  (∃ k' a',
     intersection_inplace_step src_1 src_2 k (inplace_store h src_1 A a)
     = Some (Some k', inplace_store h src_1 A a') ∧
     inplace_inv A B k' a' ∧
     (inplace_measure A B k' < inplace_measure A B k)%nat ∧
     take (Z.to_nat (card k')) a' ++ inplace_pending A B k'
     = take (Z.to_nat (card k)) a ++ inplace_pending A B k ∧
     drop (Z.to_nat (cardinality A)) a' = drop (Z.to_nat (cardinality A)) a).
Proof.
  intros (Hlen & Hcard & Hr1 & Hr2 & Hdrop).
  pose proof (wf_cardinality_bound A HwfA) as HcardA.
  pose proof (wf_cardinality_bound B HwfB) as HcardB.
  pose proof (wf_contents_length A HwfA) as HclA.
  pose proof (wf_contents_length B HwfB) as HclB.
  pose proof HwfA as (HcA & HlenA & _ & _).
  pose proof HwfB as (HcB & HlenB & _ & _).
  unfold intersection_inplace_step, inplace_store. do 2 run_step.
  cbn [cardinality with_array].
  destruct (Z.ltb_spec (read1_pos k) (cardinality A)) as [Hin1|Hout1];
    [destruct (Z.ltb_spec (read2_pos k) (cardinality B)) as [Hin2|Hout2]|];
    cbn [andb].
  2:{ left. split; [done|]. unfold inplace_pending.
      rewrite (drop_ge (contents B)) by lia.
      apply intersect_merge_nil_r. }
  2:{ left. split; [done|]. unfold inplace_pending.
      rewrite (drop_ge (contents A)) by lia.
      apply intersect_merge_nil_l. }
  right. do 2 run_step. cbn [array with_array].
  destruct (read_is_Some (array A) (read1_pos k)) as [v1 Hv1]; [lia|].
  destruct (read_is_Some (array B) (read2_pos k)) as [v2 Hv2]; [lia|].
  assert (Mem.read a (read1_pos k) = Some v1) as Hv1'.
  { apply read_Some in Hv1 as [? Hv1]. apply read_Some. split; [done|].
    rewrite <- (Nat.add_0_r (Z.to_nat (read1_pos k))), <- lookup_drop, Hdrop,
      lookup_drop, Nat.add_0_r. done. }
  rewrite (run_bind _ _ _ v1 _) by (by apply run_lift).
  rewrite (run_bind _ _ _ v2 _) by (by apply run_lift).
  assert (inplace_pending A B k
          = intersect_merge (v1 :: drop (S (Z.to_nat (read1_pos k))) (contents A))
              (v2 :: drop (S (Z.to_nat (read2_pos k))) (contents B))) as Hpend.
  { unfold inplace_pending.
    rewrite <- (drop_S (contents A)) by (apply contents_lookup; [lia|done]).
    rewrite <- (drop_S (contents B)) by (apply contents_lookup; [lia|done]). done. }
  rewrite intersect_merge_cons in Hpend.
  assert (∀ z, 0 ≤ z → Z.to_nat (z + 1) = S (Z.to_nat z)) as Hsucc
    by (intros; lia).
  assert (∀ z, 0 ≤ z ≤ 65536 → int32 (z + 1) = z + 1) as Hinc.
  { intros z Hz.
    rewrite int32_id by (unfold in_int32, INT32_MIN, INT32_MAX; lia). lia. }
  destruct (Z.ltb_spec v1 v2) as [Hlt|Hge].
  { (* the value of [src_1] is smaller: advance its read cursor *)
    eexists _, a. split; [done|]. split.
    { unfold inplace_inv. cbn [card read1_pos read2_pos].
      rewrite Hinc, Hsucc by lia. split_and!; try done; try lia.
      by apply drop_succ_eq. }
    split; [unfold inplace_measure; cbn [read1_pos read2_pos];
            rewrite Hinc by lia; lia|].
    split; [|done]. cbn [card]. f_equal. rewrite Hpend.
    unfold inplace_pending. cbn [read1_pos read2_pos].
    rewrite Hinc, Hsucc by lia.
    by rewrite <- (drop_S (contents B)) by (apply contents_lookup; [lia|done]). }
  rewrite Z.gtb_ltb. destruct (Z.ltb_spec v2 v1) as [Hgt|Hle].
  { (* the value of [src_2] is smaller: advance its read cursor *)
    eexists _, a. split; [done|]. split.
    { unfold inplace_inv. cbn [card read1_pos read2_pos].
      rewrite Hinc by lia. split_and!; try done; lia. }
    split; [unfold inplace_measure; cbn [read1_pos read2_pos];
            rewrite Hinc by lia; lia|].
    split; [|done]. cbn [card]. f_equal. rewrite Hpend.
    unfold inplace_pending. cbn [read1_pos read2_pos].
    rewrite Hinc, Hsucc by lia.
    by rewrite <- (drop_S (contents A)) by (apply contents_lookup; [lia|done]). }
  (* a match: write it at the write cursor, advance the three cursors *)
  assert (v1 = v2) as <- by lia.
  rewrite write_Some by lia.
  rewrite (run_bind _ _ _ (<[Z.to_nat (card k) := v1]> a) _)
    by (by apply run_lift).
  run_step. rewrite run_ret, insert_insert_eq.
  eexists _, _. split; [done|]. split.
  { unfold inplace_inv. cbn [card read1_pos read2_pos].
    rewrite !Hinc, Hsucc by lia. rewrite length_insert.
    split_and!; try done; try lia.
    rewrite drop_insert_lt by lia.
    by apply drop_succ_eq. }
  split; [unfold inplace_measure; cbn [read1_pos read2_pos];
          rewrite !Hinc by lia; lia|].
  split.
  - rewrite Hpend. unfold inplace_pending. cbn [card read1_pos read2_pos].
    rewrite !Hinc, !Hsucc by lia. rewrite take_snoc_insert by lia.
    by rewrite <- app_assoc.
  - rewrite drop_insert_lt by lia. done.
Qed.

Lemma inplace_loop_spec fuel k a :
  inplace_inv A B k a → (inplace_measure A B k < fuel)%nat →
  ∃ k' a',
    intersection_inplace_loop fuel src_1 src_2 k (inplace_store h src_1 A a)
    = Some (k', inplace_store h src_1 A a') ∧
    inplace_inv A B k' a' ∧
    take (Z.to_nat (card k')) a'
    = take (Z.to_nat (card k)) a ++ inplace_pending A B k ∧
    drop (Z.to_nat (cardinality A)) a' = drop (Z.to_nat (cardinality A)) a.
Proof.
  revert k a. induction fuel as [|fuel IH]; intros k a Hinv Hfuel; [lia|].
  cbn [intersection_inplace_loop].
  destruct (inplace_step_spec k a Hinv)
    as [[Hstep Hdone]|(k' & a' & Hstep & Hinv' & Hless & Htake & Hdrop)].
  - rewrite (run_bind _ _ _ _ _ Hstep). exists k, a.
    split; [done|]. split; [done|]. split; [|done].
    by rewrite Hdone, app_nil_r.
  - rewrite (run_bind _ _ _ _ _ Hstep).
    destruct (IH k' a' Hinv' ltac:(lia))
      as (k'' & a'' & Hloop & Hinv'' & Htake' & Hdrop').
    exists k'', a''. split; [done|]. split; [done|].
    split; [by rewrite Htake', Htake|by rewrite Hdrop', Hdrop].
Qed.

Lemma inplace_turns_spec n k a k' h' :
  inplace_inv A B k a →
  intersection_inplace_turns n src_1 src_2 k (inplace_store h src_1 A a)
  = Some (Some k', h') →
  ∃ a', h' = inplace_store h src_1 A a' ∧ inplace_inv A B k' a'.
Proof.
  revert k a. induction n as [|n IH]; intros k a Hinv Hturns.
  { cbv [intersection_inplace_turns mret M_ret] in Hturns. simplify_eq.
    eauto. }
  cbn [intersection_inplace_turns] in Hturns.
  destruct (inplace_step_spec k a Hinv)
    as [[Hstep Hdone]|(k1 & a1 & Hstep & Hinv1 & _)];
    rewrite (run_bind _ _ _ _ _ Hstep) in Hturns.
  - cbv [mret M_ret] in Hturns. simplify_eq.
  - eauto.
Qed.

(** What [array_container_intersection_inplace] does to the store. *)
Lemma array_container_intersection_inplace_run :
  ∃ A', array_container_intersection_inplace src_1 src_2 h
        = Some (src_1, <[src_1 := A']> h) ∧
        wf A' ∧
        contents A' = intersection_list (contents A) (contents B) ∧
        capacity A' = capacity A.
Proof.
  pose proof (wf_cardinality_bound A HwfA) as HcardA.
  pose proof (wf_cardinality_bound B HwfB) as HcardB.
  pose proof HwfA as (HcA & HlenA & HbA & HsA).
  pose proof HwfB as (HcB & HlenB & HbB & HsB).
  destruct (inplace_loop_spec (S (Z.to_nat (cardinality A)
                                  + Z.to_nat (cardinality B)))
              (mk_cursors 0 0 0) (array A) inplace_inv_initial)
    as (k & a & Hloop & Hinv & Htake & Hdrop).
  { unfold inplace_measure. cbn. lia. }
  rewrite inplace_store_initial in Hloop.
  unfold inplace_pending in Htake. cbn [card read1_pos read2_pos] in Htake.
  rewrite !drop_0, take_0, app_nil_l in Htake.
  rewrite intersect_merge_filter in Htake by done.
  fold (intersection_list (contents A) (contents B)) in Htake.
  set (r := intersection_list (contents A) (contents B)) in *.
  destruct Hinv as (Hlen & Hcard & Hr1 & Hr2 & _).
  set (A' := with_cardinality (with_array A a) (card k)).
  assert (contents A' = r) as Hcontents by done.
  exists A'. split.
  { unfold array_container_intersection_inplace. do 2 run_step.
    rewrite (run_bind _ _ _ _ _ Hloop). unfold inplace_store.
    run_step. rewrite run_ret, insert_insert_eq. done. }
  split; [|done].
  split; [cbn; lia|]. split; [cbn; lia|]. rewrite Hcontents. split.
  - by apply intersection_list_uint16.
  - by apply sorted_intersection_list.
Qed.

(** C8.  For distinct well-formed containers [A] (at [src_1]) and [B] (at
[src_2]): [array_container_intersection_inplace] returns [src_1]; it leaves
[A] well-formed, holding [A ∩ B] in ascending order, with its cardinality the
size of the intersection and its capacity unchanged; [B] and every other
container are unchanged; and at every turn of the merge the write cursor has
not passed the read cursor of [A], while the slots of [A] not yet read and
the container [B] are as they were before the call. *)
Theorem array_container_intersection_inplace_spec :
  ∃ A', array_container_intersection_inplace src_1 src_2 h
        = Some (src_1, <[src_1 := A']> h) ∧
        wf A' ∧
        contents A' = intersection_list (contents A) (contents B) ∧
        (list_to_set (contents A') : gset Z)
        = list_to_set (contents A) ∩ list_to_set (contents B) ∧
        cardinality A'
        = Z.of_nat (length (intersection_list (contents A) (contents B))) ∧
        capacity A' = capacity A ∧
        <[src_1 := A']> h !! src_2 = Some B ∧
        ∀ n k h',
          intersection_inplace_turns n src_1 src_2 (mk_cursors 0 0 0) h
          = Some (Some k, h') →
          card k ≤ read1_pos k ∧
          h' !! src_2 = Some B ∧
          ∃ Ak, h' !! src_1 = Some Ak ∧
                drop (Z.to_nat (read1_pos k)) (array Ak)
                = drop (Z.to_nat (read1_pos k)) (array A).
Proof.
  destruct array_container_intersection_inplace_run
    as (A' & Hrun & Hwf' & Hcontents & Hcap).
  exists A'. split; [done|]. split; [done|]. split; [done|]. split.
  { rewrite Hcontents. apply set_eq. intros x.
    rewrite elem_of_intersection, !elem_of_list_to_set.
    apply elem_of_intersection_list. }
  split; [by rewrite <- Hcontents, wf_contents_length|]. split; [done|].
  split; [by rewrite lookup_insert_ne|].
  intros n k' h' Hturns. rewrite <- inplace_store_initial in Hturns.
  destruct (inplace_turns_spec _ _ _ _ _ inplace_inv_initial Hturns)
    as (a' & -> & (_ & Hcard' & _ & _ & Hdrop')).
  split; [lia|]. unfold inplace_store.
  split; [by rewrite lookup_insert_ne|].
  eexists. by rewrite lookup_insert_eq.
Qed.

End Inplace.

(** ** Copy *)

(** What [array_container_copy] does to the store: it regrows the
destination when the source has fewer values than the destination has
slots, and writes past the end of the destination buffer when the source has
more values than the destination has slots. *)
Lemma array_container_copy_run
    (h : gmap positive array_container_t) src dst S D :
  h !! src = Some S → h !! dst = Some D → src ≠ dst →
  wf S → Z.of_nat (length (array D)) = capacity D →
  let D1 := if cardinality S <? capacity D
            then grown D (cardinality S) INT32_MAX false
            else D in
  (if cardinality S <? capacity D
   then array_container_grow D (cardinality S) INT32_MAX false
   else Some D) = Some D1 ∧
  (cardinality S ≤ capacity D →
   array_container_copy src dst h
   = Some ((), <[dst := output_of D1 (contents S)]> h) ∧
   wf (output_of D1 (contents S)) ∧
   contents (output_of D1 (contents S)) = contents S) ∧
  (capacity D < cardinality S → array_container_copy src dst h = None).
Proof.
  intros Hsrc Hdst Hne HwfS HlenD D1.
  pose proof (wf_cardinality_bound S HwfS) as HcardS.
  pose proof (wf_contents_length S HwfS) as HclS.
  pose proof HwfS as (HcS & HlenS & HbS & HsS).
  assert ((if cardinality S <? capacity D
           then array_container_grow D (cardinality S) INT32_MAX false
           else Some D) = Some D1) as Hgrow.
  { unfold D1. destruct (Z.ltb_spec (cardinality S) (capacity D)); [|done].
    pose proof (grown_bounds D (cardinality S) INT32_MAX false
                  in_int32_MAX ltac:(unfold INT32_MAX; lia)).
    apply array_container_grow_Some.
    destruct (decide (capacity (grown D (cardinality S) INT32_MAX false) = 0));
      [by right|left; lia]. }
  assert ((if cardinality S <? capacity D
           then on dst (λ c,
                  c ← array_container_grow c (cardinality S) INT32_MAX false;
                  Some ((), c))
           else mret ()) h = Some ((), <[dst := D1]> h)) as Hprep.
  { revert Hgrow. unfold D1.
    destruct (Z.ltb_spec (cardinality S) (capacity D)); intros Hgrow.
    - erewrite run_on; [done..|by rewrite Hgrow].
    - by rewrite insert_id. }
  assert (Z.of_nat (length (array D1)) = capacity D1) as Hlen1.
  { unfold D1. destruct (Z.ltb_spec (cardinality S) (capacity D)); [|done].
    pose proof (grown_bounds D (cardinality S) INT32_MAX false
                  in_int32_MAX ltac:(unfold INT32_MAX; lia)).
    rewrite length_array_grown. lia. }
  assert (array_container_copy src dst h
          = (buf ← Mem.memcpy (array D1) (array S) (cardinality S);
             Some ((), <[dst := with_array
                                  (with_cardinality D1 (cardinality S)) buf]> h)))
    as Hcopy.
  { unfold array_container_copy. do 2 run_step.
    rewrite (run_bind _ _ _ _ _ Hprep). do 3 run_step.
    cbn [array with_cardinality].
    destruct (Mem.memcpy (array D1) (array S) (cardinality S)) as [buf|] eqn:Hm.
    - rewrite (run_bind _ _ _ buf _) by (by apply run_lift).
      run_step. by rewrite !insert_insert_eq.
    - done. }
  rewrite Hcopy. unfold Mem.memcpy. rewrite span_prefix by lia.
  fold (contents S). cbn [mbind option_bind]. split; [done|]. split.
  - intros Hfits.
    assert (cardinality S ≤ capacity D1) as Hfits1.
    { unfold D1. destruct (Z.ltb_spec (cardinality S) (capacity D)); [|lia].
      apply grown_bounds;
        [apply in_int32_MAX|unfold INT32_MAX; lia]. }
    rewrite blit_prefix by lia. cbn [mbind option_bind].
    destruct (wf_output D1 (contents S)) as [Hcontents Hwf]; [done|lia|done..|].
    split; [|done]. unfold output_of, with_array, with_cardinality.
    cbn [cardinality capacity array]. by rewrite HclS.
  - intros Hover. unfold D1.
    destruct (Z.ltb_spec (cardinality S) (capacity D)); [lia|].
    unfold Mem.blit. case_decide; [lia|done].
Qed.

(** C1 (the defect).  A source with three values and a destination with two
slots: the capacity test of [array_container_copy] is inverted, the
destination is not grown, and the [memcpy] of three values overruns its
buffer. *)
Theorem array_container_copy_overrun :
  let src := {| cardinality := 3; capacity := 3; array := [1; 2; 3] |} in
  let dst := {| cardinality := 0; capacity := 2; array := [0; 0] |} in
  let h : gmap positive array_container_t :=
    <[1%positive := src]> (<[2%positive := dst]> ∅) in
  wf src ∧ wf dst ∧
  array_container_copy 1%positive 2%positive h = None.
Proof.
  intros src dst h.
  assert (wf src) as Hsrc by (apply (bool_decide_unpack _); by vm_compute).
  assert (wf dst) as Hdst by (apply (bool_decide_unpack _); by vm_compute).
  split; [done|]. split; [done|].
  by apply (array_container_copy_run h 1%positive 2%positive src dst).
Qed.

(** C3 (the defect).  A full container holding the value to remove: the
[memmove] of [array_container_remove] moves [cardinality - idx] slots from
slot [idx + 1], one more than there are, and reads the slot after the end of
the buffer. *)
Theorem array_container_remove_overread :
  let c := {| cardinality := 1; capacity := 1; array := [5] |} in
  wf c ∧ array_container_contains c 5 = Some true ∧
  array_container_remove c 5 = None.
Proof.
  intros c.
  assert (wf c) as Hc by (apply (bool_decide_unpack _); by vm_compute).
  split; [done|]. split; [by vm_compute|]. by vm_compute.
Qed.

(** ** The invariant of the public calls *)

Lemma heap_wf_insert (h : gmap positive array_container_t) p c :
  heap_wf h → wf c → heap_wf (<[p := c]> h).
Proof. intros Hh Hc. by apply map_Forall_insert_2. Qed.

Lemma bind_None {A B} (m : M A) (k : A → M B)
    (h : gmap positive array_container_t) :
  m h = None → (m ≫= k) h = None.
Proof. intros Hm. unfold mbind, M_bind. by rewrite Hm. Qed.

Lemma get_None {A} (field : array_container_t → A) p
    (h : gmap positive array_container_t) :
  h !! p = None → get field p h = None.
Proof. intros Hp. unfold get, mbind, M_bind, load. by rewrite Hp. Qed.

Lemma on_dangling {A} p
    (f : array_container_t → option (A * array_container_t))
    (h : gmap positive array_container_t) :
  h !! p = None → on p f h = None.
Proof. intros Hp. unfold on, mbind, M_bind, load. by rewrite Hp. Qed.

Lemma wf_fresh size :
  0 ≤ size →
  wf {| cardinality := 0; capacity := size; array := fresh_block size |}.
Proof.
  intros Hsize. split; [cbn; lia|]. split.
  - cbn [array capacity]. rewrite length_fresh_block. lia.
  - unfold contents. cbn. split; constructor.
Qed.

Lemma array_container_create_given_capacity_run size
    (h : gmap positive array_container_t) :
  array_container_create_given_capacity size h
  = if size <? 0 then Some (None, h)
    else Some (Some (fresh (dom h)),
               <[fresh (dom h) := {| cardinality := 0; capacity := size;
                                     array := fresh_block size |}]> h).
Proof.
  unfold array_container_create_given_capacity, malloc.
  by destruct (size <? 0).
Qed.

Lemma array_container_create_given_capacity_ok size
    (h : gmap positive array_container_t) :
  0 ≤ size →
  array_container_create_given_capacity size h
  = Some (Some (fresh (dom h)),
          <[fresh (dom h) := {| cardinality := 0; capacity := size;
                                array := fresh_block size |}]> h).
Proof.
  intros Hsize. rewrite array_container_create_given_capacity_run.
  destruct (Z.ltb_spec size 0); [lia|done].
Qed.

Lemma array_container_create_given_capacity_wf size
    (h h' : gmap positive array_container_t) r :
  heap_wf h → array_container_create_given_capacity size h = Some (r, h') →
  heap_wf h'.
Proof.
  intros Hh. rewrite array_container_create_given_capacity_run.
  destruct (Z.ltb_spec size 0); intros ?; simplify_eq; [done|].
  apply heap_wf_insert; [done|by apply wf_fresh].
Qed.

(** What [array_container_clone] does to the store. *)
Lemma array_container_clone_run (h : gmap positive array_container_t) src S :
  h !! src = Some S → wf S →
  ∃ C, array_container_clone src h
       = Some (Some (fresh (dom h)), <[fresh (dom h) := C]> h) ∧
       wf C ∧ contents C = contents S ∧ capacity C = capacity S ∧
       h !! fresh (dom h) = None ∧
       cardinality C = cardinality S ∧
       array C = contents S
                 ++ drop (length (contents S)) (fresh_block (capacity S)).
Proof.
  intros Hsrc HwfS. pose proof (wf_contents_length S HwfS) as HclS.
  pose proof HwfS as (HcS & HlenS & HbS & HsS).
  set (new := fresh (dom h)).
  assert (h !! new = None) as Hnew.
  { apply not_elem_of_dom. apply is_fresh. }
  assert (new ≠ src) as Hne by (intros ->; congruence).
  set (N := {| cardinality := 0; capacity := capacity S;
               array := fresh_block (capacity S) |}).
  destruct (wf_output N (contents S)) as [Hcontents Hwf].
  { cbn [array capacity N]. rewrite length_fresh_block. lia. }
  { cbn [capacity N]. lia. }
  { done. }
  { done. }
  exists (output_of N (contents S)). split; [|split_and!; try done].
  unfold array_container_clone. run_step.
  erewrite run_bind
    by (apply array_container_create_given_capacity_ok; lia).
  fold new. fold N. cbv beta iota.
  do 5 run_step. cbn [array with_cardinality N].
  unfold Mem.memcpy. rewrite span_prefix by lia. cbn [mbind option_bind].
  fold (contents S).
  rewrite blit_prefix by (rewrite length_fresh_block; lia).
  rewrite (run_bind _ _ _ (contents S
             ++ drop (length (contents S)) (fresh_block (capacity S))) _)
    by (by apply run_lift).
  run_step. rewrite run_ret, !insert_insert_eq.
  unfold output_of, with_array, with_cardinality.
  cbn [cardinality capacity array N]. by rewrite HclS.
Qed.

Lemma exec_wf c (h h' : gmap positive array_container_t) :
  legal c → heap_wf h → exec c h = Some ((), h') → heap_wf h'.
Proof.
  intros Hlegal Hh. destruct c as [size| |src|src dst|arr pos|arr pos
    |array_1 array_2 out|array1 array2 out|src_1 src_2]; cbn [exec legal] in *.
  - (* create_given_capacity *)
    destruct (array_container_create_given_capacity size h) as [[r h1]|] eqn:E;
      [|by rewrite (bind_None _ _ _ E)].
    rewrite (run_bind _ _ _ _ _ E), run_ret. intros ?; simplify_eq.
    by eapply array_container_create_given_capacity_wf.
  - (* create *)
    unfold array_container_create.
    destruct (array_container_create_given_capacity DEFAULT_INIT_SIZE h)
      as [[r h1]|] eqn:E; [|by rewrite (bind_None _ _ _ E)].
    rewrite (run_bind _ _ _ _ _ E), run_ret. intros ?; simplify_eq.
    by eapply array_container_create_given_capacity_wf.
  - (* clone *)
    destruct (h !! src) as [S|] eqn:Hsrc.
    2:{ unfold array_container_clone.
        by rewrite (bind_None _ _ _ (bind_None _ _ _ (get_None _ _ _ Hsrc))). }
    destruct (array_container_clone_run h src S Hsrc (Hh _ _ Hsrc))
      as (C & Hrun & HwfC & _).
    rewrite (run_bind _ _ _ _ _ Hrun), run_ret. intros ?; simplify_eq.
    by apply heap_wf_insert.
  - (* copy *)
    destruct (h !! src) as [S|] eqn:Hsrc.
    2:{ unfold array_container_copy.
        by rewrite (bind_None _ _ _ (get_None _ _ _ Hsrc)). }
    destruct (h !! dst) as [D|] eqn:Hdst.
    2:{ unfold array_container_copy. run_step.
        by rewrite (bind_None _ _ _ (get_None _ _ _ Hdst)). }
    pose proof (Hh _ _ Hsrc) as HwfS. pose proof (Hh _ _ Hdst) as (_ & HlenD & _).
    destruct (array_container_copy_run h src dst S D) as (_ & Hfits & Hover);
      [done..|].
    destruct (decide (cardinality S ≤ capacity D)) as [Hle|Hgt].
    + destruct (Hfits Hle) as (-> & Hwf' & _). intros ?; simplify_eq.
      by apply heap_wf_insert.
    + rewrite Hover by lia. done.
  - (* add *)
    destruct (h !! arr) as [c|] eqn:Harr.
    2:{ by rewrite (bind_None _ _ _ (on_dangling _ _ _ Harr)). }
    destruct (array_container_add_correct c pos (Hh _ _ Harr) Hlegal)
      as (c' & Hadd & Hwf' & _).
    erewrite run_bind by (by eapply run_on). rewrite run_ret.
    intros ?; simplify_eq. by apply heap_wf_insert.
  - (* remove *)
    destruct (h !! arr) as [c|] eqn:Harr.
    2:{ by rewrite (bind_None _ _ _ (on_dangling _ _ _ Harr)). }
    destruct (array_container_remove_correct c pos (Hh _ _ Harr))
      as (Habsent & Hpresent & Hfull).
    destruct (decide (pos ∈ contents c)) as [Hin|Hnotin].
    + destruct (decide (cardinality c < capacity c)) as [Hroom|Hnoroom].
      * destruct (Hpresent Hin Hroom) as (c' & idx & Hrm & Hwf' & _).
        erewrite run_bind by (by eapply run_on). rewrite run_ret.
        intros ?; simplify_eq. by apply heap_wf_insert.
      * pose proof (Hh _ _ Harr) as (Hc & _).
        rewrite (bind_None _ _ _ (on_None _ _ _ _ Harr
                                    (Hfull Hin ltac:(lia)))). done.
    + erewrite run_bind by (eapply run_on; [done|by apply Habsent]).
      rewrite run_ret. intros ?; simplify_eq.
      apply heap_wf_insert; [done|]. by eapply Hh.
  - (* union *)
    destruct Hlegal as [Hne1 Hne2].
    destruct (h !! array_1) as [A|] eqn:H1.
    2:{ unfold array_container_union.
        by rewrite (bind_None _ _ _ (get_None _ _ _ H1)). }
    destruct (h !! array_2) as [B|] eqn:H2.
    2:{ unfold array_container_union. run_step.
        by rewrite (bind_None _ _ _ (get_None _ _ _ H2)). }
    destruct (h !! out) as [O|] eqn:Hout.
    2:{ unfold array_container_union. do 2 run_step.
        by rewrite (bind_None _ _ _ (get_None _ _ _ Hout)). }
    pose proof (Hh _ _ H1) as HwfA. pose proof (Hh _ _ H2) as HwfB.
    pose proof (Hh _ _ Hout) as (_ & HlenO & _).
    rewrite (array_container_union_run h array_1 array_2 out A B O) by done.
    intros ?; simplify_eq. apply heap_wf_insert; [done|].
    pose proof (wf_cardinality_bound A HwfA).
    pose proof (wf_cardinality_bound B HwfB).
    pose proof (length_union_contents A B HwfA HwfB).
    destruct HwfA as (_ & _ & HbA & HsA). destruct HwfB as (_ & _ & HbB & HsB).
    destruct (prepare_output (cardinality A + cardinality B) out O h)
      as (_ & _ & Hcap1 & Hlen1 & _); [done|unfold INT32_MAX; lia|done|].
    apply wf_output; [done|lia|by apply union_merge_uint16
                     |by apply sorted_union_merge].
  - (* intersection *)
    destruct Hlegal as [Hne1 Hne2].
    destruct (h !! array1) as [A|] eqn:H1.
    2:{ unfold array_container_intersection.
        by rewrite (bind_None _ _ _ (get_None _ _ _ H1)). }
    destruct (h !! array2) as [B|] eqn:H2.
    2:{ unfold array_container_intersection. run_step.
        by rewrite (bind_None _ _ _ (get_None _ _ _ H2)). }
    destruct (h !! out) as [O|] eqn:Hout.
    2:{ unfold array_container_intersection. do 2 run_step.
        by rewrite (bind_None _ _ _ (get_None _ _ _ Hout)). }
    pose proof (Hh _ _ H1) as HwfA. pose proof (Hh _ _ H2) as HwfB.
    pose proof (Hh _ _ Hout) as (_ & HlenO & _).
    rewrite (array_container_intersection_run h array1 array2 out A B O)
      by done.
    intros ?; simplify_eq. apply heap_wf_insert; [done|].
    pose proof (wf_cardinality_bound A HwfA).
    pose proof (wf_cardinality_bound B HwfB).
    pose proof (length_intersection_contents A B HwfA HwfB).
    destruct (prepare_output (Z.min (cardinality A) (cardinality B)) out O h)
      as (_ & _ & Hcap1 & Hlen1 & _); [done|unfold INT32_MAX; lia|done|].
    destruct HwfA as (_ & _ & HbA & HsA).
    apply wf_output; [done|lia|by apply intersection_list_uint16
                     |by apply sorted_intersection_list].
  - (* intersection_inplace *)
    destruct (h !! src_1) as [A|] eqn:H1.
    2:{ unfold array_container_intersection_inplace.
        by rewrite (bind_None _ _ _ (bind_None _ _ _ (get_None _ _ _ H1))). }
    destruct (h !! src_2) as [B|] eqn:H2.
    2:{ unfold array_container_intersection_inplace.
        erewrite (bind_None (_ ≫= _)); [done|]. run_step.
        by rewrite (bind_None _ _ _ (get_None _ _ _ H2)). }
    destruct (array_container_intersection_inplace_run h src_1 src_2 A B)
      as (A' & Hrun & Hwf' & _); [done..|by eapply Hh|by eapply Hh|].
    rewrite (run_bind _ _ _ _ _ Hrun), run_ret. intros ?; simplify_eq.
    by apply heap_wf_insert.
Qed.

Lemma reachable_wf h : reachable h → heap_wf h.
Proof.
  induction 1 as [|h c h' _ IH Hlegal Hexec].
  - apply map_Forall_empty.
  - by eapply exec_wf.
Qed.

(** C2.  In every store reachable by the public calls (create, clone, copy,
add, remove, union, intersection, in-place intersection) that ran to
completion, the meaningful slots of every container are strictly increasing,
hence free of duplicates. *)
Theorem reachable_strictly_increasing h p c :
  reachable h → h !! p = Some c →
  StronglySorted Z.lt (take (Z.to_nat (cardinality c)) (array c)) ∧
  NoDup (take (Z.to_nat (cardinality c)) (array c)).
Proof.
  intros Hreach Hp. destruct (reachable_wf h Hreach p c Hp) as (_ & _ & _ & Hs).
  split; [done|]. by apply sorted_NoDup.
Qed.

(** * Further properties *)

(** ** Lifecycle *)

(** X2.  [array_container_clone] of a well-formed container, the allocation
succeeding, returns a pointer that addressed nothing before, to a well-formed
container with the cardinality, the capacity and the values of the source,
and leaves the source unchanged.  Its buffer is the freshly allocated block
with the values of the source copied over its first slots: the slots after
them are those of the allocation, not the stale slots of the source. *)
Theorem array_container_clone_spec
    (h : gmap positive array_container_t) src S :
  h !! src = Some S → wf S →
  ∃ p C block,
    array_container_clone src h = Some (Some p, <[p := C]> h) ∧
    h !! p = None ∧ p ≠ src ∧ wf C ∧
    cardinality C = cardinality S ∧ capacity C = capacity S ∧
    contents C = contents S ∧
    malloc (capacity S) = Some block ∧
    array C = contents S ++ drop (Z.to_nat (cardinality S)) block ∧
    <[p := C]> h !! src = Some S.
Proof.
  intros Hsrc HwfS.
  destruct (array_container_clone_run h src S Hsrc HwfS)
    as (C & Hrun & HwfC & Hcontents & Hcap & Hfresh & Hcard & Harray).
  assert (fresh (dom h) ≠ src) as Hne by (intros Heq; congruence).
  pose proof (wf_contents_length S HwfS) as HclS.
  pose proof HwfS as (HcS & _).
  exists (fresh (dom h)), C, (fresh_block (capacity S)).
  split; [done|]. split; [done|]. split; [done|]. split; [done|].
  split; [done|]. split; [done|]. split; [done|].
  split; [apply malloc_Some; lia|].
  split; [|by rewrite lookup_insert_ne].
  rewrite Harray. do 2 f_equal. lia.
Qed.

(** X3.  Cloning a well-formed container and releasing the clone with
[array_container_free] gives back the store of before the two calls, where
the pointer of the clone addresses nothing: a second release of it is
undefined. *)
Theorem array_container_clone_free
    (h : gmap positive array_container_t) src S :
  h !! src = Some S → wf S →
  ∃ p h', array_container_clone src h = Some (Some p, h') ∧
          array_container_free p h' = Some ((), h) ∧
          array_container_free p h = None.
Proof.
  intros Hsrc HwfS.
  destruct (array_container_clone_run h src S Hsrc HwfS)
    as (C & Hrun & _ & _ & _ & Hfresh & _).
  eexists _, _. split; [done|]. unfold array_container_free.
  rewrite lookup_insert_eq, Hfresh. split; [|done].
  by rewrite delete_insert_id.
Qed.

(** ** Growth *)

(** X4.  [grow_capacity] returns 16 for a capacity that is not positive;
for a positive capacity up to 429496729 it returns more than the capacity
and at most twice the capacity. *)
Theorem grow_capacity_progress capacity :
  (capacity ≤ 0 → grow_capacity capacity = 16) ∧
  (0 < capacity ≤ 429496729 →
   capacity < grow_capacity capacity ≤ 2 * capacity).
Proof.
  split.
  - intros Hc. unfold grow_capacity, DEFAULT_INIT_SIZE.
    destruct (Z.leb_spec capacity 0); [done|lia].
  - intros Hc. rewrite grow_capacity_no_overflow by lia.
    unfold grow_capacity_spec.
    destruct (Z.leb_spec capacity 0); [lia|].
    destruct (Z.ltb_spec capacity 64); [lia|].
    destruct (Z.ltb_spec capacity 1024); Z.div_mod_to_equations; lia.
Qed.

(** X5.  On a well-formed container, with a maximum in the 32-bit range and
a minimum between the cardinality and the maximum, [array_container_grow]
with [preserve] set returns whenever the minimum is positive, or the maximum
is positive and the capacity at most 429496729: the container stays
well-formed with the same contents, its buffer has exactly the new capacity,
which lies between the minimum and the maximum, and every slot that exists
before and after is kept, stale ones included.  With a maximum of zero the
reallocation to no slot fails and the call is aborted. *)
Theorem array_container_grow_preserves c min max :
  wf c → in_int32 max → cardinality c ≤ min ≤ max →
  (0 < min ∨ (0 < max ∧ capacity c ≤ 429496729) →
   ∃ c', array_container_grow c min max true = Some c' ∧
         wf c' ∧ contents c' = contents c ∧
         Z.of_nat (length (array c')) = capacity c' ∧
         min ≤ capacity c' ≤ max ∧
         ∀ i : nat,
           Z.of_nat i < Z.min (capacity c) (capacity c') →
           array c' !! i = array c !! i) ∧
  (max ≤ 0 → array_container_grow c min max true = None).
Proof.
  intros (Hc & Hlen & Hb & Hs) Hmax Hmin.
  pose proof (grown_bounds c min max true Hmax ltac:(lia)) as Hbounds.
  pose proof (grown_capacity_eq c min max true Hmax) as Hcap.
  set (c' := grown c min max true) in *.
  split; [|intros Hzero; apply array_container_grow_None; fold c'; right;
           split; [lia|done]].
  intros Hreturns.
  assert (0 < capacity c') as Hpos.
  { destruct Hreturns as [?|[Hmaxpos Hsmall]]; [lia|].
    rewrite Hcap, clamp_between by lia. unfold snap_to_max.
    case_decide; [done|].
    assert (0 < grow_capacity (capacity c)); [|lia].
    rewrite grow_capacity_no_overflow by done. unfold grow_capacity_spec.
    destruct (Z.leb_spec (capacity c) 0); [lia|].
    destruct (Z.ltb_spec (capacity c) 64); [lia|].
    destruct (Z.ltb_spec (capacity c) 1024); Z.div_mod_to_equations; lia. }
  exists c'. split; [apply array_container_grow_Some; by left|].
  assert (Z.of_nat (length (array c')) = capacity c') as Hlen'.
  { unfold c'. rewrite length_array_grown. fold c'. lia. }
  assert (contents c' = contents c) as Hcontents.
  { unfold contents, c'. rewrite grown_cardinality.
    rewrite array_grown_preserve. fold c'. apply take_resized_block; lia. }
  split.
  { assert (cardinality c' = cardinality c) as Hcard by reflexivity.
    split; [rewrite Hcard; lia|]. split; [done|]. by rewrite Hcontents. }
  split; [done|]. split; [done|]. split; [done|].
  intros i Hi. unfold c'. rewrite array_grown_preserve. fold c'.
  unfold resized_block. rewrite lookup_app_l by (rewrite length_take; lia).
  apply lookup_take_lt. lia.
Qed.

(** ** Copy *)

(** X6.  [array_container_copy] between distinct containers: when the
source's cardinality is at most the destination's capacity it leaves the
destination well-formed with the source's contents, the source unchanged, and
the destination regrown exactly when the cardinality is strictly below its
capacity; when the destination's capacity is below the cardinality the call
is undefined. *)
Theorem array_container_copy_spec
    (h : gmap positive array_container_t) src dst S D :
  h !! src = Some S → h !! dst = Some D → src ≠ dst →
  wf S → Z.of_nat (length (array D)) = capacity D →
  (cardinality S ≤ capacity D →
   ∃ D', array_container_copy src dst h = Some ((), <[dst := D']> h) ∧
         wf D' ∧ contents D' = contents S ∧
         Some (capacity D')
         = (if decide (cardinality S < capacity D)
            then capacity <$> array_container_grow D (cardinality S)
                                INT32_MAX false
            else Some (capacity D)) ∧
         <[dst := D']> h !! src = Some S) ∧
  (capacity D < cardinality S → array_container_copy src dst h = None).
Proof.
  intros Hsrc Hdst Hne HwfS HlenD.
  destruct (array_container_copy_run h src dst S D Hsrc Hdst Hne HwfS HlenD)
    as (Hgrow & Hfits & Hover).
  split; [|done]. intros Hle.
  destruct (Hfits Hle) as (Hrun & Hwf & Hcontents).
  eexists. split; [done|]. split; [done|]. split; [done|].
  split; [|by rewrite lookup_insert_ne].
  cbn [capacity output_of with_cardinality with_array].
  destruct (Z.ltb_spec (cardinality S) (capacity D)); case_decide;
    try lia; [by rewrite Hgrow|done].
Qed.

(** ** Insertion and removal *)

(** The capacity after [array_container_add]: untouched, unless a full
container received a new value. *)
Lemma array_container_add_capacity c x r c' :
  array_container_add c x = Some (r, c') →
  capacity c' = capacity c ∨ (array_container_full c = true ∧ r = true).
Proof.
  unfold array_container_add, array_container_append. cbv zeta.
  intros Hadd.
  destruct (array_container_full c) eqn:Hfull;
    repeat (simplify_option_eq; try case_match); auto.
Qed.

(** Everything [array_container_add] does to a well-formed container. *)
Lemma array_container_add_members c x :
  wf c → uint16 x →
  ∃ c', array_container_add c x = Some (bool_decide (x ∉ contents c), c') ∧
        wf c' ∧
        (∀ y, y ∈ contents c' ↔ y = x ∨ y ∈ contents c) ∧
        cardinality c'
        = (if decide (x ∈ contents c) then cardinality c
           else cardinality c + 1) ∧
        capacity c ≤ capacity c' ∧
        (capacity c < capacity c'
         ↔ cardinality c = capacity c ∧ x ∉ contents c).
Proof.
  intros Hwf Hx. pose proof (wf_cardinality_bound c Hwf) as Hcard.
  destruct (array_container_add_correct c x Hwf Hx)
    as (c' & Hadd & Hwf' & Hsame & Hnew).
  exists c'. split; [done|]. split; [done|].
  pose proof (array_container_add_capacity _ _ _ _ Hadd) as Hcap.
  destruct (decide (x ∈ contents c)) as [Hin|Hnotin].
  - rewrite (Hsame Hin). split; [intros y; split; [tauto|]|].
    { intros [->|?]; done. }
    split; [done|]. split; [lia|]. split; [lia|tauto].
  - destruct (Hnew Hnotin) as (Hcard' & p & Hcontents).
    split; [intros y; rewrite Hcontents; apply elem_of_insert_at|].
    split; [done|].
    destruct Hwf as (Hc & _). destruct Hwf' as (Hc' & _).
    destruct Hcap as [Heq|(Hfull & _)].
    + split; [lia|]. split; [lia|]. intros [Hfull _]. lia.
    + apply Z.eqb_eq in Hfull.
      split; [lia|]. split; [done|]. intros _. lia.
Qed.

(** X7.  [array_container_add] of a 16-bit value to a well-formed container
returns whether the value was absent, keeps the container well-formed, makes
its contents the old contents plus the value, and raises the cardinality by
one exactly when the value was absent. *)
Theorem array_container_add_membership c x :
  wf c → uint16 x →
  ∃ c', array_container_add c x = Some (bool_decide (x ∉ contents c), c') ∧
        wf c' ∧
        (∀ y, y ∈ contents c' ↔ y = x ∨ y ∈ contents c) ∧
        cardinality c'
        = (if decide (x ∈ contents c) then cardinality c
           else cardinality c + 1).
Proof.
  intros Hwf Hx.
  destruct (array_container_add_members c x Hwf Hx)
    as (c' & Hadd & Hwf' & Hmem & Hcard & _).
  by exists c'.
Qed.

(** X8.  [array_container_add] never lowers the capacity, and raises it
exactly when the container is full and the value is absent. *)
Theorem array_container_add_grows_when_full c x :
  wf c → uint16 x →
  ∃ r c', array_container_add c x = Some (r, c') ∧
          capacity c ≤ capacity c' ∧
          (capacity c < capacity c'
           ↔ cardinality c = capacity c ∧ x ∉ contents c).
Proof.
  intros Hwf Hx.
  destruct (array_container_add_members c x Hwf Hx)
    as (c' & Hadd & _ & _ & _ & Hle & Hlt).
  by eexists _, c'.
Qed.

(** Everything a sequence of calls of [array_container_add] does. *)
Lemma add_all_correct c xs :
  wf c → Forall uint16 xs →
  ∃ c', add_all c xs = Some c' ∧ wf c' ∧
        (∀ y, y ∈ contents c' ↔ y ∈ contents c ∨ y ∈ xs) ∧
        capacity c ≤ capacity c'.
Proof.
  intros Hwf Hxs. revert c Hwf.
  induction Hxs as [|x xs Hx Hxs IH]; intros c Hwf.
  { exists c. split; [done|]. split; [done|]. split; [|lia].
    intros y. rewrite elem_of_nil. tauto. }
  destruct (array_container_add_members c x Hwf Hx)
    as (c1 & Hadd & Hwf1 & Hmem1 & _ & Hle1 & _).
  destruct (IH c1 Hwf1) as (c' & Hall & Hwf' & Hmem' & Hle').
  exists c'. cbn [add_all]. rewrite Hadd. cbn [mbind option_bind].
  split; [done|]. split; [done|]. split; [|lia].
  intros y. rewrite Hmem', Hmem1, elem_of_cons. tauto.
Qed.

(** X9.  Adding 16-bit values one after the other to a well-formed container
never fails, in whatever order they come and however often they repeat: the
container stays well-formed, so strictly increasing, its contents are the old
contents plus the values, its cardinality is the number of distinct values
held, and its capacity is never lowered. *)
Theorem add_all_spec c xs :
  wf c → Forall uint16 xs →
  ∃ c', add_all c xs = Some c' ∧ wf c' ∧
        (∀ y, y ∈ contents c' ↔ y ∈ contents c ∨ y ∈ xs) ∧
        cardinality c'
        = Z.of_nat (size (list_to_set (contents c ++ xs) : gset Z)) ∧
        capacity c ≤ capacity c'.
Proof.
  intros Hwf Hxs.
  destruct (add_all_correct c xs Hwf Hxs) as (c' & Hall & Hwf' & Hmem & Hle).
  exists c'. split; [done|]. split; [done|]. split; [done|].
  split; [|done].
  assert ((list_to_set (contents c ++ xs) : gset Z)
          = list_to_set (contents c')) as ->.
  { apply set_eq. intros y.
    rewrite !elem_of_list_to_set, elem_of_app. symmetry. apply Hmem. }
  rewrite size_list_to_set by (apply sorted_NoDup, Hwf').
  symmetry. by apply wf_contents_length.
Qed.

(** X10.  Two sequences of insertions of the same values, in any order and
with any repetitions, leave the same contents and the same cardinality. *)
Theorem add_all_order c xs ys :
  wf c → Forall uint16 xs → Forall uint16 ys →
  (∀ x, x ∈ xs ↔ x ∈ ys) →
  ∃ c1 c2, add_all c xs = Some c1 ∧ add_all c ys = Some c2 ∧
           contents c1 = contents c2 ∧ cardinality c1 = cardinality c2.
Proof.
  intros Hwf Hxs Hys Hsame.
  destruct (add_all_correct c xs Hwf Hxs) as (c1 & H1 & Hwf1 & Hmem1 & _).
  destruct (add_all_correct c ys Hwf Hys) as (c2 & H2 & Hwf2 & Hmem2 & _).
  exists c1, c2. split; [done|]. split; [done|].
  assert (contents c1 = contents c2) as Hcontents.
  { destruct Hwf1 as (_ & _ & _ & Hs1). destruct Hwf2 as (_ & _ & _ & Hs2).
    apply sorted_ext; [done..|]. intros y. rewrite Hmem1, Hmem2, Hsame. done. }
  split; [done|].
  rewrite <- (wf_contents_length c1), <- (wf_contents_length c2) by done.
  by rewrite Hcontents.
Qed.

(** Everything [array_container_remove] does to a well-formed container
that has a free slot or does not hold the value. *)
Lemma array_container_remove_members c x :
  wf c → x ∉ contents c ∨ cardinality c < capacity c →
  ∃ c', array_container_remove c x
        = Some (bool_decide (x ∈ contents c), c') ∧
        wf c' ∧
        (∀ y, y ∈ contents c' ↔ y ∈ contents c ∧ y ≠ x) ∧
        cardinality c'
        = (if decide (x ∈ contents c) then cardinality c - 1
           else cardinality c) ∧
        capacity c' = capacity c ∧
        array_container_contains c' x = Some false.
Proof.
  intros Hwf Hcase.
  destruct (array_container_remove_correct c x Hwf)
    as (Habsent & Hpresent & _).
  destruct (decide (x ∈ contents c)) as [Hin|Hnotin].
  - destruct Hcase as [?|Hroom]; [done|].
    destruct (Hpresent Hin Hroom)
      as (c' & idx & Hrm & Hwf' & Hcard & Hcap & Hidx & Hcontents & Hgone).
    exists c'. rewrite bool_decide_eq_true_2 by done.
    split; [done|]. split; [done|]. split; [|done].
    destruct Hwf as (_ & _ & _ & Hs).
    destruct (sorted_delete _ _ _ Hs Hidx) as [_ Hx].
    intros y. rewrite Hcontents. split.
    + intros Hy. split; [|by intros ->].
      rewrite <- (take_drop_middle _ _ _ Hidx).
      apply elem_of_app in Hy as [Hy|Hy]; apply elem_of_app; [by left|].
      right. by right.
    + intros [Hy Hne]. rewrite <- (take_drop_middle _ _ _ Hidx) in Hy.
      apply elem_of_app in Hy as [Hy|Hy]; apply elem_of_app; [by left|].
      apply elem_of_cons in Hy as [->|Hy]; [done|by right].
  - exists c. rewrite bool_decide_eq_false_2 by done.
    split; [by apply Habsent|]. split; [done|]. split.
    { intros y. split; [|tauto]. intros Hy. split; [done|]. by intros ->. }
    split; [done|]. split; [done|].
    rewrite array_container_contains_spec by done.
    by rewrite bool_decide_eq_false_2.
Qed.

(** X11.  On a well-formed container that has a free slot or does not hold
the value, [array_container_remove] returns whether the value was present,
keeps the container well-formed, makes its contents the old contents without
the value, lowers the cardinality by one exactly when the value was present,
keeps the capacity, and [array_container_contains] answers false for the
value afterwards. *)
Theorem array_container_remove_spec c x :
  wf c → x ∉ contents c ∨ cardinality c < capacity c →
  ∃ c', array_container_remove c x
        = Some (bool_decide (x ∈ contents c), c') ∧
        wf c' ∧
        (∀ y, y ∈ contents c' ↔ y ∈ contents c ∧ y ≠ x) ∧
        cardinality c'
        = (if decide (x ∈ contents c) then cardinality c - 1
           else cardinality c) ∧
        capacity c' = capacity c ∧
        array_container_contains c' x = Some false.
Proof.
  intros Hwf Hcase.
  destruct (array_container_remove_members c x Hwf Hcase)
    as (c' & Hrm & Hwf' & Hmem & Hcard & Hcap & Hgone).
  exists c'. split; [done|]. split; [done|]. split; [done|].
  split; [done|]. split; done.
Qed.

(** X12.  On every full well-formed container that holds the value,
[array_container_remove] is undefined: its [memmove] reads the slot after the
end of the buffer. *)
Theorem array_container_remove_full c x :
  wf c → x ∈ contents c → cardinality c = capacity c →
  array_container_remove c x = None.
Proof.
  intros Hwf Hin Hfull.
  by destruct (array_container_remove_correct c x Hwf) as (_ & _ & Hbug);
    apply Hbug.
Qed.

(** X13.  Adding an absent value and removing it again gives back the
contents and the cardinality, whenever the container has a free slot after
the insertion. *)
Theorem array_container_add_remove c x :
  wf c → uint16 x → x ∉ contents c →
  ∃ c', array_container_add c x = Some (true, c') ∧
        (cardinality c' < capacity c' →
         ∃ c'', array_container_remove c' x = Some (true, c'') ∧
                contents c'' = contents c ∧
                cardinality c'' = cardinality c).
Proof.
  intros Hwf Hx Hnotin.
  destruct (array_container_add_members c x Hwf Hx)
    as (c' & Hadd & Hwf' & Hmem & Hcard & _).
  rewrite bool_decide_eq_true_2 in Hadd by done.
  exists c'. split; [done|]. intros Hroom.
  assert (x ∈ contents c') as Hin by (apply Hmem; by left).
  destruct (array_container_remove_members c' x Hwf' (or_intror Hroom))
    as (c'' & Hrm & Hwf'' & Hmem' & Hcard' & _).
  rewrite bool_decide_eq_true_2 in Hrm by done.
  exists c''. split; [done|].
  assert (contents c'' = contents c) as Hcontents.
  { destruct Hwf as (_ & _ & _ & Hs). destruct Hwf'' as (_ & _ & _ & Hs'').
    apply sorted_ext; [done..|]. intros y. rewrite Hmem', Hmem. split.
    - intros [[->|Hy] Hne]; done.
    - intros Hy. split; [by right|]. by intros ->. }
  split; [done|].
  destruct (decide (x ∈ contents c)); [done|].
  destruct (decide (x ∈ contents c')); [lia|done].
Qed.

(** X14.  Removing a present value from a well-formed container with a free
slot and adding it again gives back the contents, the cardinality and the
capacity: the insertion does not grow the buffer. *)
Theorem array_container_remove_add c x :
  wf c → x ∈ contents c → cardinality c < capacity c →
  ∃ c' c'', array_container_remove c x = Some (true, c') ∧
            array_container_add c' x = Some (true, c'') ∧
            contents c'' = contents c ∧
            cardinality c'' = cardinality c ∧
            capacity c'' = capacity c.
Proof.
  intros Hwf Hin Hroom.
  assert (uint16 x) as Hx.
  { destruct Hwf as (_ & _ & Hb & _). rewrite Forall_forall in Hb. auto. }
  destruct (array_container_remove_members c x Hwf (or_intror Hroom))
    as (c' & Hrm & Hwf' & Hmem' & Hcard' & Hcap' & _).
  rewrite bool_decide_eq_true_2 in Hrm by done.
  assert (x ∉ contents c') as Hgone.
  { rewrite Hmem'. by intros [_ ?]. }
  destruct (array_container_add_members c' x Hwf' Hx)
    as (c'' & Hadd & Hwf'' & Hmem & Hcard & Hle & Hlt).
  rewrite bool_decide_eq_true_2 in Hadd by done.
  exists c', c''. split; [done|]. split; [done|].
  assert (contents c'' = contents c) as Hcontents.
  { destruct Hwf as (_ & _ & _ & Hs). destruct Hwf'' as (_ & _ & _ & Hs'').
    apply sorted_ext; [done..|]. intros y. rewrite Hmem, Hmem'. split.
    - intros [->|[Hy _]]; done.
    - intros Hy. destruct (decide (y = x)); [by left|by right]. }
  split; [done|].
  destruct (decide (x ∈ contents c)); [|done].
  destruct (decide (x ∈ contents c')); [done|].
  split; [lia|].
  destruct (decide (capacity c' < capacity c'')) as [Hgrew|]; [|lia].
  apply Hlt in Hgrew as [Hfull _]. lia.
Qed.

(** ** Conversion to 32-bit values *)

Lemma contents_read c (i : Z) v :
  0 ≤ i < cardinality c → Mem.read (array c) i = Some v →
  contents c !! Z.to_nat i = Some v.
Proof.
  intros Hi [_ Hv]%read_Some. unfold contents.
  rewrite lookup_take_lt by lia. done.
Qed.

Lemma to_uint32_array_loop_run cont base :
  0 ≤ cardinality cont ≤ Z.of_nat (length (array cont)) →
  in_int32 (cardinality cont) →
  ∀ fuel i out,
    0 ≤ i ≤ cardinality cont →
    cardinality cont ≤ Z.of_nat (length out) →
    (Z.to_nat (cardinality cont - i) < fuel)%nat →
    to_uint32_array_loop fuel out cont base i i
    = Some (cardinality cont,
            take (Z.to_nat i) out
            ++ ((λ v, uint32 (base + v)) <$> drop (Z.to_nat i) (contents cont))
            ++ drop (Z.to_nat (cardinality cont)) out).
Proof.
  intros Hcard Hint.
  assert (length (contents cont) = Z.to_nat (cardinality cont)) as Hlen.
  { unfold contents. rewrite length_take. lia. }
  induction fuel as [|fuel IH]; intros i out Hi Hout Hfuel; [lia|].
  cbn [to_uint32_array_loop].
  destruct (Z.ltb_spec i (cardinality cont)) as [Hlt|Hge].
  - destruct (read_is_Some (array cont) i) as [v Hv]; [lia|].
    rewrite Hv. cbn [mbind option_bind].
    rewrite write_Some by lia. cbn [mbind option_bind].
    rewrite (int32_id (i + 1))
      by (unfold in_int32, INT32_MIN, INT32_MAX in *; lia).
    rewrite IH; [|lia|rewrite length_insert; lia|lia].
    f_equal. f_equal.
    replace (Z.to_nat (i + 1)) with (S (Z.to_nat i)) by lia.
    rewrite (take_S_r _ _ (uint32 (base + v)))
      by (apply list_lookup_insert_eq; lia).
    rewrite take_insert_ge by lia.
    rewrite drop_insert_lt by lia.
    rewrite (drop_S (contents cont) v (Z.to_nat i))
      by (apply contents_read; [lia|done]).
    rewrite fmap_cons, <- app_assoc. done.
  - assert (i = cardinality cont) as -> by lia.
    rewrite drop_ge by lia. cbn [fmap list_fmap app].
    by rewrite take_drop.
Qed.

Lemma to_uint32_array_loop_overrun cont base :
  in_int32 (cardinality cont) →
  ∀ fuel i out,
    0 ≤ i ≤ Z.of_nat (length out) →
    Z.of_nat (length out) < cardinality cont →
    to_uint32_array_loop fuel out cont base i i = None.
Proof.
  intros Hint. induction fuel as [|fuel IH]; intros i out Hi Hout; [done|].
  cbn [to_uint32_array_loop].
  destruct (Z.ltb_spec i (cardinality cont)) as [Hlt|Hge]; [|lia].
  destruct (Mem.read (array cont) i) as [v|]; [|done].
  cbn [mbind option_bind]. unfold Mem.write.
  case_decide as Hin; [|done]. cbn [mbind option_bind].
  rewrite (int32_id (i + 1))
    by (unfold in_int32, INT32_MIN, INT32_MAX in *; lia).
  apply IH; rewrite length_insert; lia.
Qed.

Lemma array_container_to_uint32_array_run out cont base :
  0 ≤ cardinality cont ≤ Z.of_nat (length (array cont)) →
  in_int32 (cardinality cont) →
  cardinality cont ≤ Z.of_nat (length out) →
  ∃ out', array_container_to_uint32_array out cont base
          = Some (cardinality cont, out') ∧
          length out' = length out ∧
          take (Z.to_nat (cardinality cont)) out'
          = (λ v, uint32 (base + v)) <$> contents cont ∧
          drop (Z.to_nat (cardinality cont)) out'
          = drop (Z.to_nat (cardinality cont)) out.
Proof.
  intros Hcard Hint Hout.
  assert (length (contents cont) = Z.to_nat (cardinality cont)) as Hlen.
  { unfold contents. rewrite length_take. lia. }
  set (r := (λ v, uint32 (base + v)) <$> contents cont).
  assert (length r = Z.to_nat (cardinality cont)) as Hr
    by (unfold r; by rewrite length_fmap).
  exists (r ++ drop (Z.to_nat (cardinality cont)) out). split.
  { unfold array_container_to_uint32_array.
    by rewrite (to_uint32_array_loop_run cont base Hcard Hint) by lia. }
  split; [rewrite length_app, length_drop; lia|].
  rewrite <- Hr. split; [by rewrite take_app_length|by rewrite drop_app_length].
Qed.

(** X15.  For a container whose cardinality lies within its buffer and an
output buffer of at least as many slots, [array_container_to_uint32_array]
returns the cardinality, writes [base + v] reduced to 32 bits for each
meaningful value [v], in the order of the container, into the first slots of
the output, and leaves the other slots and the length of the output as they
were. *)
Theorem array_container_to_uint32_array_spec out cont base :
  0 ≤ cardinality cont ≤ Z.of_nat (length (array cont)) →
  in_int32 (cardinality cont) →
  cardinality cont ≤ Z.of_nat (length out) →
  ∃ out', array_container_to_uint32_array out cont base
          = Some (cardinality cont, out') ∧
          length out' = length out ∧
          take (Z.to_nat (cardinality cont)) out'
          = (λ v, uint32 (base + v)) <$> contents cont ∧
          drop (Z.to_nat (cardinality cont)) out'
          = drop (Z.to_nat (cardinality cont)) out.
Proof.
  intros Hcard Hint Hout.
  destruct (array_container_to_uint32_array_run out cont base Hcard Hint Hout)
    as (out' & Hrun & Hlen & Hwritten & Hrest).
  exists out'. split; [done|]. split; [done|]. split; done.
Qed.

(** X16.  When the output buffer has fewer slots than the container has
values, [array_container_to_uint32_array] is undefined: the loop has no bound
but the cardinality, and writes past the end of the output. *)
Theorem array_container_to_uint32_array_overrun out cont base :
  in_int32 (cardinality cont) →
  Z.of_nat (length out) < cardinality cont →
  array_container_to_uint32_array out cont base = None.
Proof.
  intros Hint Hout. unfold array_container_to_uint32_array.
  apply to_uint32_array_loop_overrun; [done|lia|done].
Qed.

(** X17.  With [base] a multiple of 65536 below 2^32, as for the high half
of a 32-bit key, the values written by [array_container_to_uint32_array] for
a well-formed container are strictly increasing, their high halves are the
one of [base], and their low halves are the contents of the container. *)
Theorem array_container_to_uint32_array_round_trip out cont hb :
  wf cont → uint16 hb → cardinality cont ≤ Z.of_nat (length out) →
  ∃ out', array_container_to_uint32_array out cont (hb * 65536)
          = Some (cardinality cont, out') ∧
          let written := take (Z.to_nat (cardinality cont)) out' in
          StronglySorted Z.lt written ∧
          Forall (λ w, Z.shiftr w 16 = hb) written ∧
          (λ w, Z.land w 65535) <$> written = contents cont.
Proof.
  intros Hwf Hhb Hout.
  pose proof (wf_cardinality_bound cont Hwf) as Hbound.
  pose proof Hwf as (Hc & Hlen & Hb & Hs).
  destruct (array_container_to_uint32_array_run out cont (hb * 65536))
    as (out' & Hrun & _ & Hwritten & _); [lia| |done|].
  { unfold in_int32, INT32_MIN, INT32_MAX. lia. }
  exists out'. split; [done|]. cbn zeta. rewrite Hwritten.
  assert (∀ v, uint16 v →
            uint32 (hb * 65536 + v) = hb * 65536 + v ∧
            Z.shiftr (hb * 65536 + v) 16 = hb ∧
            Z.land (hb * 65536 + v) 65535 = v) as Hword.
  { intros v Hv. unfold uint16, uint32 in *.
    split; [apply Z.mod_small; lia|].
    split.
    - rewrite Z.shiftr_div_pow2 by lia. change (2 ^ 16) with 65536.
      rewrite Z.add_comm, Z.div_add by lia. rewrite Z.div_small by lia. lia.
    - change 65535 with (Z.ones 16). rewrite Z.land_ones by lia.
      change (2 ^ 16) with 65536.
      rewrite Z.add_comm, Z.mod_add by lia. apply Z.mod_small. lia. }
  clear Hrun Hwritten Hwf Hc Hlen Hbound Hout.
  induction Hs as [|v l Hs IH Hv]; [by repeat constructor|].
  apply Forall_cons in Hb as [Hbv Hb].
  destruct (IH Hb) as (IHs & IHh & IHl).
  destruct (Hword v Hbv) as (Hw & Hh & Hl).
  rewrite !fmap_cons, Hw. split; [|split].
  - constructor; [done|]. rewrite Forall_fmap. rewrite Forall_forall in *.
    intros y Hy. cbn. destruct (Hword y (Hb y Hy)) as (-> & _).
    specialize (Hv y Hy). lia.
  - by constructor.
  - by rewrite Hl, IHl.
Qed.

(** ** Counting runs *)

Lemma count_runs_bounds prev l : 0 ≤ count_runs prev l ≤ Z.of_nat (length l).
Proof.
  revert prev. induction l as [|v l IH]; intros prev; cbn [count_runs length].
  - lia.
  - specialize (IH v). destruct (v =? prev + 1); lia.
Qed.

Lemma number_of_runs_loop_run a :
  0 ≤ cardinality a ≤ Z.of_nat (length (array a)) →
  in_int32 (cardinality a) →
  Forall uint16 (contents a) →
  ∀ fuel i nr_runs prev,
    0 ≤ i ≤ cardinality a → 0 ≤ nr_runs ≤ i → -2 ≤ prev ≤ 65535 →
    (Z.to_nat (cardinality a - i) < fuel)%nat →
    number_of_runs_loop fuel a i nr_runs prev
    = Some (nr_runs + count_runs prev (drop (Z.to_nat i) (contents a))).
Proof.
  intros Hcard Hint Hb.
  assert (length (contents a) = Z.to_nat (cardinality a)) as Hlen.
  { unfold contents. rewrite length_take. lia. }
  induction fuel as [|fuel IH]; intros i nr_runs prev Hi Hnr Hprev Hfuel;
    [lia|].
  cbn [number_of_runs_loop].
  destruct (Z.eqb_spec i (cardinality a)) as [->|Hne].
  { rewrite drop_ge by lia. cbn [count_runs]. f_equal. lia. }
  destruct (read_is_Some (array a) i) as [v Hv]; [lia|].
  rewrite Hv. cbn [mbind option_bind]. cbv zeta.
  pose proof (contents_read a i v ltac:(lia) Hv) as Hlook.
  assert (uint16 v) as Hv16.
  { rewrite Forall_forall in Hb. apply Hb. by eapply list_elem_of_lookup_2. }
  unfold uint16 in Hv16.
  rewrite (int32_id (prev + 1))
    by (unfold in_int32, INT32_MIN, INT32_MAX; lia).
  rewrite (int32_id (nr_runs + 1))
    by (unfold in_int32, INT32_MIN, INT32_MAX in *; lia).
  rewrite (drop_S _ _ _ Hlook). cbn [count_runs].
  replace (S (Z.to_nat i)) with (Z.to_nat (i + 1)) by lia.
  destruct (v =? prev + 1); cbn [negb].
  - rewrite IH by lia. f_equal.
  - rewrite IH by lia. f_equal. lia.
Qed.

Lemma number_of_runs_loop_overrun a :
  ¬ (0 ≤ cardinality a ≤ Z.of_nat (length (array a))) →
  ∀ fuel i nr_runs prev,
    0 ≤ i ≤ Z.of_nat (length (array a)) →
    number_of_runs_loop fuel a i nr_runs prev = None.
Proof.
  intros Hcard. induction fuel as [|fuel IH]; intros i nr_runs prev Hi;
    [done|].
  cbn [number_of_runs_loop].
  destruct (Z.eqb_spec i (cardinality a)) as [->|Hne]; [lia|].
  destruct (Mem.read (array a) i) as [v|] eqn:Hv; [|done].
  cbn [mbind option_bind]. cbv zeta. apply read_in_bounds in Hv.
  apply IH. lia.
Qed.

Lemma runs_of_cons_head w l : ∃ r rs, runs_of (w :: l) = (w :: r) :: rs.
Proof.
  cbn [runs_of]. destruct (runs_of l) as [|[|x r] rs]; [by eauto..|].
  destruct (x =? w + 1); by eauto.
Qed.

Lemma runs_of_cons v w l r rs :
  runs_of (w :: l) = (w :: r) :: rs →
  runs_of (v :: w :: l)
  = if w =? v + 1 then (v :: w :: r) :: rs else [v] :: (w :: r) :: rs.
Proof.
  intros Hr. change (runs_of (v :: w :: l)) with
    (match runs_of (w :: l) with
     | (w :: r) :: rs => if w =? v + 1 then (v :: w :: r) :: rs
                         else [v] :: (w :: r) :: rs
     | _ => [[v]]
     end).
  by rewrite Hr.
Qed.

Lemma concat_runs_of l : concat (runs_of l) = l.
Proof.
  induction l as [|v [|w l] IH]; [done..|].
  destruct (runs_of_cons_head w l) as (r & rs & Hr).
  rewrite (runs_of_cons v w l r rs Hr). rewrite Hr in IH.
  destruct (w =? v + 1); cbn [concat app] in *; by rewrite IH.
Qed.

Lemma is_run_singleton v : is_run [v].
Proof.
  exists v. split; [|done]. cbn [length].
  rewrite seqZ_cons by lia. done.
Qed.

Lemma is_run_cons v w r : w = v + 1 → is_run (w :: r) → is_run (v :: w :: r).
Proof.
  intros -> (first & Hseq & _). exists v. split; [|done].
  assert (first = v + 1) as ->.
  { cbn [length] in Hseq. rewrite seqZ_cons in Hseq by lia. congruence. }
  rewrite (seqZ_cons v) by (cbn [length]; lia).
  f_equal. rewrite Hseq at 1. f_equal. cbn [length]. lia.
Qed.

Lemma runs_of_is_run l : Forall is_run (runs_of l).
Proof.
  induction l as [|v [|w l] IH]; [constructor| |].
  { repeat constructor. apply is_run_singleton. }
  destruct (runs_of_cons_head w l) as (r & rs & Hr).
  rewrite (runs_of_cons v w l r rs Hr). rewrite Hr in IH.
  apply Forall_cons in IH as [Hrun Hrest].
  destruct (Z.eqb_spec w (v + 1)) as [Heq|Hne].
  - constructor; [by apply is_run_cons|done].
  - constructor; [apply is_run_singleton|by constructor].
Qed.

Lemma runs_of_separated l i r1 r2 :
  runs_of l !! i = Some r1 → runs_of l !! S i = Some r2 → separated r1 r2.
Proof.
  revert i r1 r2. induction l as [|v [|w l] IH]; intros i r1 r2; [done..|].
  destruct (runs_of_cons_head w l) as (r & rs & Hr).
  rewrite (runs_of_cons v w l r rs Hr). rewrite Hr in IH.
  destruct (Z.eqb_spec w (v + 1)) as [Heq|Hne].
  - destruct i as [|i].
    + intros [= <-] H2. specialize (IH 0%nat (w :: r) r2 eq_refl H2).
      intros x y Hx Hy. by apply IH.
    + intros H1 H2. by apply (IH (S i)).
  - destruct i as [|i].
    + intros [= <-] [= <-]. intros x y [= <-] [= <-]. done.
    + intros H1 H2. by apply (IH i).
Qed.

Lemma length_runs_of v l :
  Z.of_nat (length (runs_of (v :: l))) = 1 + count_runs v l.
Proof.
  revert v. induction l as [|w l IH]; intros v; [done|].
  destruct (runs_of_cons_head w l) as (r & rs & Hr).
  rewrite (runs_of_cons v w l r rs Hr). specialize (IH w). rewrite Hr in IH.
  cbn [count_runs].
  destruct (w =? v + 1); cbn [length] in *; lia.
Qed.

Lemma array_container_number_of_runs_run a :
  wf a →
  array_container_number_of_runs a
  = Some (Z.of_nat (length (runs_of (contents a)))).
Proof.
  intros Hwf. pose proof (wf_cardinality_bound a Hwf) as Hbound.
  pose proof Hwf as (Hc & Hlen & Hb & _).
  unfold array_container_number_of_runs.
  rewrite (number_of_runs_loop_run a); [|lia| |done|lia..].
  2:{ unfold in_int32, INT32_MIN, INT32_MAX. lia. }
  change (Z.to_nat 0) with 0%nat. rewrite drop_0. f_equal.
  destruct (contents a) as [|v l]; [done|].
  rewrite length_runs_of. cbn [count_runs].
  apply Forall_cons in Hb as [Hv _]. unfold uint16 in Hv.
  destruct (Z.eqb_spec v (-2 + 1)); lia.
Qed.

(** X18.  For a well-formed container, [array_container_number_of_runs]
returns the number of maximal runs of consecutive values: the contents split,
in order, into that many non-empty runs of consecutive integers, no run
starting right after the end of the one before. *)
Theorem array_container_number_of_runs_spec a :
  wf a →
  ∃ rs, array_container_number_of_runs a = Some (Z.of_nat (length rs)) ∧
        concat rs = contents a ∧
        Forall is_run rs ∧
        ∀ i r1 r2, rs !! i = Some r1 → rs !! S i = Some r2 → separated r1 r2.
Proof.
  intros Hwf. exists (runs_of (contents a)).
  split; [by apply array_container_number_of_runs_run|].
  split; [apply concat_runs_of|].
  split; [apply runs_of_is_run|apply runs_of_separated].
Qed.

(** X19.  For a well-formed container the number of runs lies between zero
and the cardinality, is zero exactly for the empty container, and is one
exactly when the contents are a single run of consecutive values. *)
Theorem array_container_number_of_runs_bounds a :
  wf a →
  ∃ n, array_container_number_of_runs a = Some n ∧
       0 ≤ n ≤ cardinality a ∧
       (n = 0 ↔ cardinality a = 0) ∧
       (n = 1 ↔ is_run (contents a)).
Proof.
  intros Hwf. eexists. split; [by apply array_container_number_of_runs_run|].
  rewrite <- (wf_contents_length a Hwf).
  destruct (contents a) as [|v l]; cbn [length].
  { split; [done|]. split; [done|]. split; [done|].
    by intros (? & _ & ?). }
  rewrite length_runs_of. pose proof (count_runs_bounds v l) as Hcount.
  split; [lia|]. split; [lia|]. split.
  - intros Hone.
    pose proof (concat_runs_of (v :: l)) as Hcat.
    pose proof (runs_of_is_run (v :: l)) as Hruns.
    pose proof (length_runs_of v l) as Hlen.
    destruct (runs_of (v :: l)) as [|r [|r' rs]]; cbn [length] in Hlen;
      [lia| |lia].
    cbn [concat] in Hcat. rewrite app_nil_r in Hcat. subst r.
    by apply Forall_cons in Hruns as [? _].
  - intros (first & Hseq & _).
    assert (first = v) as ->.
    { cbn [length] in Hseq. rewrite seqZ_cons in Hseq by lia. congruence. }
    enough (count_runs v l = 0) by lia.
    cbn [length] in Hseq. rewrite seqZ_cons in Hseq by lia.
    injection Hseq as Hl.
    replace (Z.pred (Z.of_nat (S (length l)))) with (Z.of_nat (length l))
      in Hl by lia.
    clear Hcount. revert v Hl. induction l as [|w l IH]; intros v Hl; [done|].
    cbn [length] in Hl. rewrite seqZ_cons in Hl by lia.
    injection Hl as Hw Hl.
    replace (Z.pred (Z.of_nat (S (length l)))) with (Z.of_nat (length l))
      in Hl by lia.
    cbn [count_runs]. rewrite (IH w) by (by rewrite Hw at 1).
    destruct (Z.eqb_spec w (v + 1)); lia.
Qed.

(** X20.  When the cardinality is negative or exceeds the buffer,
[array_container_number_of_runs] is undefined: the pointer never meets the
end it is compared with, and the loop reads past the buffer. *)
Theorem array_container_number_of_runs_overrun a :
  ¬ (0 ≤ cardinality a ≤ Z.of_nat (length (array a))) →
  array_container_number_of_runs a = None.
Proof.
  intros Hcard. unfold array_container_number_of_runs.
  apply number_of_runs_loop_overrun; [done|lia].
Qed.

(** ** In-place intersection of a container with itself *)

Lemma with_array_same c : with_array c (array c) = c.
Proof. by destruct c. Qed.

Lemma with_cardinality_same c : with_cardinality c (cardinality c) = c.
Proof. by destruct c. Qed.

Lemma intersection_inplace_alias_step
    (h : gmap positive array_container_t) p A i :
  h !! p = Some A →
  0 ≤ cardinality A ≤ Z.of_nat (length (array A)) →
  in_int32 (cardinality A) →
  0 ≤ i ≤ cardinality A →
  intersection_inplace_step p p (mk_cursors i i i) h
  = Some (if i <? cardinality A
          then Some (mk_cursors (i + 1) (i + 1) (i + 1)) else None, h).
Proof.
  intros Hp Hcard Hint Hi.
  unfold intersection_inplace_step. do 2 run_step.
  cbn [read1_pos read2_pos card].
  destruct (Z.ltb_spec i (cardinality A)) as [Hlt|Hge]; cbn [andb]; [|done].
  destruct (read_is_Some (array A) i) as [v Hv]; [lia|].
  do 2 run_step.
  rewrite (run_bind _ _ _ v _) by (by apply run_lift).
  rewrite (run_bind _ _ _ v _) by (by apply run_lift).
  rewrite Z.ltb_irrefl.
  destruct (Z.gtb_spec v v) as [?|_]; [lia|].
  assert (Mem.write (array A) i v = Some (array A)) as Hw.
  { rewrite write_Some by lia.
    apply read_Some in Hv as [_ Hv]. by rewrite list_insert_id. }
  rewrite (run_bind _ _ _ (array A) _) by (by apply run_lift).
  run_step. rewrite with_array_same, insert_id by done.
  rewrite (int32_id (i + 1))
    by (unfold in_int32, INT32_MIN, INT32_MAX in *; lia).
  done.
Qed.

Lemma intersection_inplace_alias_loop
    (h : gmap positive array_container_t) p A :
  h !! p = Some A →
  0 ≤ cardinality A ≤ Z.of_nat (length (array A)) →
  in_int32 (cardinality A) →
  ∀ fuel i,
    0 ≤ i ≤ cardinality A →
    (Z.to_nat (cardinality A - i) < fuel)%nat →
    intersection_inplace_loop fuel p p (mk_cursors i i i) h
    = Some (mk_cursors (cardinality A) (cardinality A) (cardinality A), h).
Proof.
  intros Hp Hcard Hint.
  induction fuel as [|fuel IH]; intros i Hi Hfuel; [lia|].
  cbn [intersection_inplace_loop].
  rewrite (run_bind _ _ _ _ _
             (intersection_inplace_alias_step h p A i Hp Hcard Hint Hi)).
  destruct (Z.ltb_spec i (cardinality A)) as [Hlt|Hge].
  - apply IH; lia.
  - by assert (i = cardinality A) as -> by lia.
Qed.

(** X21.  [array_container_intersection_inplace] of a container with itself
(both pointers the same) returns the pointer and changes nothing: every
value is overwritten by itself, and the cardinality is set to what it was. *)
Theorem array_container_intersection_inplace_alias
    (h : gmap positive array_container_t) p A :
  h !! p = Some A → wf A →
  array_container_intersection_inplace p p h = Some (p, h).
Proof.
  intros Hp Hwf. pose proof (wf_cardinality_bound A Hwf) as Hbound.
  destruct Hwf as (Hc & Hlen & _).
  unfold array_container_intersection_inplace. do 2 run_step.
  erewrite run_bind.
  2:{ apply (intersection_inplace_alias_loop h p A Hp); [lia| |lia..].
      unfold in_int32, INT32_MIN, INT32_MAX. lia. }
  cbn [card]. run_step.
  by rewrite run_ret, with_cardinality_same, insert_id.
Qed.

(** ** The data model along every run *)

(** X22.  In every store reachable by public calls that ran to completion,
each container keeps its cardinality within its capacity, its buffer has
exactly [capacity] slots, its meaningful slots hold 16-bit values, and so it
never holds more than 65536 values. *)
Theorem reachable_within_capacity h p c :
  reachable h → h !! p = Some c →
  0 ≤ cardinality c ≤ capacity c ∧
  Z.of_nat (length (array c)) = capacity c ∧
  Forall uint16 (take (Z.to_nat (cardinality c)) (array c)) ∧
  cardinality c ≤ 65536.
Proof.
  intros Hreach Hp. pose proof (reachable_wf h Hreach p c Hp) as Hwf.
  pose proof (wf_cardinality_bound c Hwf) as Hbound.
  destruct Hwf as (Hc & Hlen & Hb & _). split_and!; [lia..|done|done|lia].
Qed.
End ArrayContainer.

(** * Concrete instances *)

Lemma wf_sample_A : wf sample_A.
Proof. apply (bool_decide_unpack _). vm_compute. exact I. Defined.

Lemma wf_sample_B : wf sample_B.
Proof. apply (bool_decide_unpack _). vm_compute. exact I. Defined.

(** The growth policy on a container of 100 slots asked for 120 to 1000
slots: one and a half times 100.  Asked for a negative number of slots, the
call is aborted. *)
Lemma array_container_grow_policy_witness :
  in_int32 1000 ∧ 120 ≤ 1000 ∧ capacity sample_hundred ≤ 429496729 ∧
  snap_to_max
    (Z.max 120 (Z.min (grow_capacity (capacity sample_hundred)) 1000)) 1000
  = snap_to_max
      (Z.max 120 (Z.min (grow_capacity_spec (capacity sample_hundred)) 1000))
      1000 ∧
  (∃ c', array_container_grow zero_filled sample_hundred 120 1000 true
         = Some c' ∧
         capacity c' = 150 ∧ cardinality c' = 3) ∧
  in_int32 (-1) ∧ -5 ≤ -1 ∧
  array_container_grow zero_filled sample_hundred (-5) (-1) true = None.
Proof.
  assert (in_int32 1000) as Hmax
    by (unfold in_int32, INT32_MIN, INT32_MAX; lia).
  assert (120 ≤ 1000) as Hle by lia.
  assert (capacity sample_hundred ≤ 429496729) as Hcap by (cbn; lia).
  assert (in_int32 (-1)) as Hmax'
    by (unfold in_int32, INT32_MIN, INT32_MAX; lia).
  assert (-5 ≤ -1) as Hle' by lia.
  pose proof (array_container_grow_policy zero_filled sample_hundred 120 1000
                true Hmax Hle) as Hgrow.
  pose proof (array_container_grow_policy zero_filled sample_hundred (-5) (-1)
                true Hmax' Hle') as Habort.
  cbv zeta in Hgrow, Habort.
  destruct Hgrow as (Hpolicy & _ & Hreturns & _).
  destruct Habort as (_ & _ & _ & Habort).
  split; [done|]. split; [done|]. split; [done|].
  split; [exact (Hpolicy Hcap)|]. split.
  - destruct Hreturns as (c' & Hrun & Hcap' & Hcard'); [left; by vm_compute|].
    exists c'. split; [done|]. split; [|done].
    rewrite Hcap'. by vm_compute.
  - split; [done|]. split; [done|]. apply Habort. left. by vm_compute.
Defined.

(** C9 as stated fails on a container of 429496730 slots: five times the
capacity leaves the 32-bit range, the candidate wraps to a negative value and
the clamp returns [min]; one and a quarter times the capacity is 536870912.
It also fails for negative bounds, whatever the capacity: the call is aborted
and sets no capacity. *)
Lemma array_container_grow_overflow :
  let c := {| cardinality := 0; capacity := 429496730;
              array := replicate (Z.to_nat 429496730) 0 |} in
  Z.of_nat (length (array c)) = capacity c ∧
  in_int32 INT32_MAX ∧ 1 ≤ INT32_MAX ∧
  capacity <$> array_container_grow zero_filled c 1 INT32_MAX false
  = Some 1 ∧
  snap_to_max (Z.max 1 (Z.min (grow_capacity_spec (capacity c)) INT32_MAX))
    INT32_MAX = 536870912 ∧
  capacity <$> array_container_grow zero_filled c 1 INT32_MAX false
  ≠ Some (snap_to_max
            (Z.max 1 (Z.min (grow_capacity_spec (capacity c)) INT32_MAX))
            INT32_MAX) ∧
  in_int32 (-1) ∧ -5 ≤ -1 ∧
  array_container_grow zero_filled sample_hundred (-5) (-1) true = None.
Proof.
  intros c.
  assert (capacity (grown zero_filled c 1 INT32_MAX false) = 1) as Hgrown.
  { rewrite grown_capacity_eq by apply in_int32_MAX.
    cbn [capacity c]. by vm_compute. }
  assert (capacity <$> array_container_grow zero_filled c 1 INT32_MAX false
          = Some 1) as Hcode.
  { rewrite array_container_grow_Some by (left; lia).
    cbn [fmap option_fmap option_map]. by rewrite Hgrown. }
  assert (snap_to_max
            (Z.max 1 (Z.min (grow_capacity_spec (capacity c)) INT32_MAX))
            INT32_MAX = 536870912) as Hspec.
  { cbn [capacity c]. by vm_compute. }
  split.
  { cbn [array capacity c]. rewrite length_replicate. lia. }
  split; [apply in_int32_MAX|]. split; [by vm_compute|].
  split; [done|]. split; [done|].
  split; [rewrite Hcode, Hspec; by intros [=]|].
  split; [unfold in_int32, INT32_MIN, INT32_MAX; lia|]. split; [lia|].
  by vm_compute.
Qed.

(** A full container [{3, 7}] receives 5: the buffer grows and 5 lands
between the two values. *)
Lemma array_container_add_spec_witness :
  let c := {| cardinality := 2; capacity := 2; array := [3; 7] |} in
  wf c ∧ uint16 5 ∧
  ∃ c', array_container_add zero_filled c 5 = Some (true, c') ∧
        contents c' = [3; 5; 7] ∧
        array_container_contains c' 5 = Some true ∧
        array_container_add zero_filled c' 5 = Some (false, c').
Proof.
  intros c.
  assert (wf c) as Hwf by (apply (bool_decide_unpack _); vm_compute; exact I).
  assert (uint16 5) as Hx by (unfold uint16; lia).
  split; [done|]. split; [done|].
  destruct (array_container_add_spec zero_filled c 5 Hwf Hx)
    as (c' & Hadd & _ & Hin & Hagain).
  exists c'. split; [done|]. split; [|done].
  vm_compute in Hadd. by injection Hadd as <-.
Defined.

(** Three calls from the empty store: create with two slots, add 5, add 3. *)
Lemma reachable_strictly_increasing_witness :
  let c := {| cardinality := 2; capacity := 2; array := [3; 5] |} in
  let h : gmap positive array_container_t := <[1%positive := c]> ∅ in
  reachable zero_filled h ∧ h !! 1%positive = Some c ∧
  StronglySorted Z.lt [3; 5] ∧ NoDup [3; 5].
Proof.
  intros c h.
  assert (reachable zero_filled h) as Hreach.
  { apply (reachable_call zero_filled
             (<[1%positive := {| cardinality := 1; capacity := 2;
                                 array := [5; 0] |}]> ∅)
             (Add 1%positive 3)).
    - apply (reachable_call zero_filled
               (<[1%positive := {| cardinality := 0; capacity := 2;
                                   array := [0; 0] |}]> ∅)
               (Add 1%positive 5)).
      + apply (reachable_call zero_filled ∅ (Create_given_capacity 2)).
        * apply reachable_empty.
        * unfold legal, in_int32, INT32_MIN, INT32_MAX. lia.
        * by vm_compute.
      + unfold legal, uint16. lia.
      + by vm_compute.
    - unfold legal, uint16. lia.
    - by vm_compute. }
  assert (h !! 1%positive = Some c) as Hp by reflexivity.
  split; [done|]. split; [done|].
  exact (reachable_strictly_increasing zero_filled h 1%positive c Hreach Hp).
Defined.

Lemma sample_store_lookups out :
  sample_store out !! 1%positive = Some sample_A ∧
  sample_store out !! 2%positive = Some sample_B ∧
  sample_store out !! 3%positive = Some out.
Proof. split; [|split]; reflexivity. Defined.

(** The first scenario of the specification: [{1, 3, 5} ∪ {3, 4, 5}] is
[{1, 3, 4, 5}], written into an output that had no slot. *)
Lemma array_container_union_spec_witness :
  sample_store sample_empty_out !! 1%positive = Some sample_A ∧
  sample_store sample_empty_out !! 2%positive = Some sample_B ∧
  sample_store sample_empty_out !! 3%positive = Some sample_empty_out ∧
  3%positive ≠ 1%positive ∧ 3%positive ≠ 2%positive ∧
  wf sample_A ∧ wf sample_B ∧
  Z.of_nat (length (array sample_empty_out)) = capacity sample_empty_out ∧
  ∃ O', array_container_union zero_filled 1 2 3 (sample_store sample_empty_out)
        = Some ((), <[3%positive := O']> (sample_store sample_empty_out)) ∧
        contents O' = [1; 3; 4; 5] ∧ cardinality O' = 4 ∧ capacity O' = 16.
Proof.
  destruct (sample_store_lookups sample_empty_out) as (H1 & H2 & H3).
  assert (3%positive ≠ 1%positive) as Hne1 by discriminate.
  assert (3%positive ≠ 2%positive) as Hne2 by discriminate.
  assert (Z.of_nat (length (array sample_empty_out))
          = capacity sample_empty_out) as Hlen by reflexivity.
  split_and!; try done; try apply wf_sample_A; try apply wf_sample_B.
  destruct (array_container_union_spec zero_filled _ _ _ _ _ _ _
              H1 H2 H3 Hne1 Hne2 wf_sample_A wf_sample_B Hlen)
    as (O1 & O' & _ & Hrun & Hcap & _ & _ & _ & _).
  exists O'. split; [done|].
  vm_compute in Hrun. by injection Hrun as <-.
Defined.

(** The first scenario of the specification: [{1, 3, 5} ∩ {3, 4, 5}] is
[{3, 5}]; the cardinalities are equal, so the path is the balanced one.  On
operands that are not sorted the paths leave different outputs, and the call
leaves that of the path the specification selects: the skewed path with the
first operand as the small one for 1 value against 65, with the second
operand as the small one for 65 values against 1, the balanced path for 1
value against 9. *)
Lemma array_container_intersection_spec_witness :
  sample_store sample_empty_out !! 1%positive = Some sample_A ∧
  sample_store sample_empty_out !! 2%positive = Some sample_B ∧
  sample_store sample_empty_out !! 3%positive = Some sample_empty_out ∧
  3%positive ≠ 1%positive ∧ 3%positive ≠ 2%positive ∧
  wf sample_A ∧ wf sample_B ∧
  Z.of_nat (length (array sample_empty_out)) = capacity sample_empty_out ∧
  (∃ O', array_container_intersection zero_filled 1 2 3
           (sample_store sample_empty_out)
         = Some ((), <[3%positive := O']> (sample_store sample_empty_out)) ∧
         intersection_strategy (cardinality sample_A) (cardinality sample_B)
         = Balanced ∧
         contents O' = [3; 5] ∧ cardinality O' = 2 ∧ capacity O' = 16) ∧
  in_int32 (cardinality sample_probe * 64) ∧
  in_int32 (cardinality sample_unsorted_long * 64) ∧
  in_int32 (cardinality sample_unsorted_short * 64) ∧
  (let h := sample_store_of sample_probe sample_unsorted_long in
   array_container_intersection zero_filled 1 2 3 h
   = array_container_intersection_forced zero_filled Skewed_first_small
       1 2 3 h ∧
   output_cardinality
     (array_container_intersection_forced zero_filled Skewed_first_small
        1 2 3 h) = Some 0 ∧
   output_cardinality
     (array_container_intersection_forced zero_filled Balanced 1 2 3 h)
   = Some 1) ∧
  (let h := sample_store_of sample_unsorted_long sample_probe in
   array_container_intersection zero_filled 1 2 3 h
   = array_container_intersection_forced zero_filled Skewed_second_small
       1 2 3 h ∧
   output_cardinality
     (array_container_intersection_forced zero_filled Skewed_second_small
        1 2 3 h) = Some 0 ∧
   output_cardinality
     (array_container_intersection_forced zero_filled Balanced 1 2 3 h)
   = Some 1) ∧
  (let h := sample_store_of sample_probe sample_unsorted_short in
   array_container_intersection zero_filled 1 2 3 h
   = array_container_intersection_forced zero_filled Balanced 1 2 3 h ∧
   output_cardinality
     (array_container_intersection_forced zero_filled Balanced 1 2 3 h)
   = Some 1 ∧
   output_cardinality
     (array_container_intersection_forced zero_filled Skewed_first_small
        1 2 3 h) = Some 0).
Proof.
  destruct (sample_store_lookups sample_empty_out) as (H1 & H2 & H3).
  assert (3%positive ≠ 1%positive) as Hne1 by discriminate.
  assert (3%positive ≠ 2%positive) as Hne2 by discriminate.
  assert (Z.of_nat (length (array sample_empty_out))
          = capacity sample_empty_out) as Hlen by reflexivity.
  assert (in_int32 (cardinality sample_probe * 64)) as Hprobe
    by (unfold in_int32, INT32_MIN, INT32_MAX; cbn; lia).
  assert (in_int32 (cardinality sample_unsorted_long * 64)) as Hlong
    by (unfold in_int32, INT32_MIN, INT32_MAX; cbn; lia).
  assert (in_int32 (cardinality sample_unsorted_short * 64)) as Hshort
    by (unfold in_int32, INT32_MIN, INT32_MAX; cbn; lia).
  destruct (array_container_intersection_spec zero_filled _ _ _ _ _ _ _
              H1 H2 H3 Hne1 Hne2 wf_sample_A wf_sample_B Hlen)
    as ((O1 & O' & _ & Hrun & Hpath & _) & Hpinned).
  do 5 (split; [done|]). split; [apply wf_sample_A|].
  split; [apply wf_sample_B|]. split; [done|]. split.
  { exists O'. split; [done|]. split; [by rewrite Hpath|].
    vm_compute in Hrun. by injection Hrun as <-. }
  do 3 (split; [done|]). split; [|split].
  - split; [|split; by vm_compute].
    exact (Hpinned (sample_store_of sample_probe sample_unsorted_long)
             sample_probe sample_unsorted_long sample_roomy_out
             eq_refl eq_refl eq_refl Hprobe Hlong).
  - split; [|split; by vm_compute].
    exact (Hpinned (sample_store_of sample_unsorted_long sample_probe)
             sample_unsorted_long sample_probe sample_roomy_out
             eq_refl eq_refl eq_refl Hlong Hprobe).
  - split; [|split; by vm_compute].
    exact (Hpinned (sample_store_of sample_probe sample_unsorted_short)
             sample_probe sample_unsorted_short sample_roomy_out
             eq_refl eq_refl eq_refl Hprobe Hshort).
Defined.

(** On the sample containers the two skewed paths and the balanced path
leave the same store. *)
Lemma intersection_path_independent_witness :
  sample_store sample_empty_out !! 1%positive = Some sample_A ∧
  sample_store sample_empty_out !! 2%positive = Some sample_B ∧
  sample_store sample_empty_out !! 3%positive = Some sample_empty_out ∧
  3%positive ≠ 1%positive ∧ 3%positive ≠ 2%positive ∧
  wf sample_A ∧ wf sample_B ∧
  Z.of_nat (length (array sample_empty_out)) = capacity sample_empty_out ∧
  is_Some (array_container_intersection_forced zero_filled Balanced 1 2 3
             (sample_store sample_empty_out)) ∧
  array_container_intersection_forced zero_filled Skewed_first_small 1 2 3
    (sample_store sample_empty_out)
  = array_container_intersection_forced zero_filled Balanced 1 2 3
      (sample_store sample_empty_out) ∧
  array_container_intersection_forced zero_filled Skewed_second_small 1 2 3
    (sample_store sample_empty_out)
  = array_container_intersection_forced zero_filled Balanced 1 2 3
      (sample_store sample_empty_out).
Proof.
  destruct (sample_store_lookups sample_empty_out) as (H1 & H2 & H3).
  assert (3%positive ≠ 1%positive) as Hne1 by discriminate.
  assert (3%positive ≠ 2%positive) as Hne2 by discriminate.
  assert (Z.of_nat (length (array sample_empty_out))
          = capacity sample_empty_out) as Hlen by reflexivity.
  split_and!; try done; try apply wf_sample_A; try apply wf_sample_B;
    apply (intersection_path_independent zero_filled _ _ _ _ _ _ _
             H1 H2 H3 Hne1 Hne2 wf_sample_A wf_sample_B Hlen).
Defined.

(** In place, [{1, 3, 5}] becomes [{3, 5}] and [{3, 4, 5}] stays. *)
Lemma array_container_intersection_inplace_spec_witness :
  sample_store sample_empty_out !! 1%positive = Some sample_A ∧
  sample_store sample_empty_out !! 2%positive = Some sample_B ∧
  1%positive ≠ 2%positive ∧ wf sample_A ∧ wf sample_B ∧
  ∃ A', array_container_intersection_inplace 1 2
          (sample_store sample_empty_out)
        = Some (1%positive,
                <[1%positive := A']> (sample_store sample_empty_out)) ∧
        contents A' = [3; 5] ∧ cardinality A' = 2 ∧ capacity A' = 3 ∧
        <[1%positive := A']> (sample_store sample_empty_out) !! 2%positive
        = Some sample_B.
Proof.
  destruct (sample_store_lookups sample_empty_out) as (H1 & H2 & _).
  assert (1%positive ≠ 2%positive) as Hne by discriminate.
  split_and!; try done; try apply wf_sample_A; try apply wf_sample_B.
  destruct (array_container_intersection_inplace_spec _ _ _ _ _
              H1 H2 Hne wf_sample_A wf_sample_B)
    as (A' & Hrun & _ & Hcontents & _ & Hcard & Hcap & HB & _).
  exists A'. split; [done|]. split; [done|]. split; [done|].
  split; done.
Defined.

(** With eight slots in the output neither algorithm touches the capacity
or the slots after the result. *)
Lemma set_algorithms_frame_witness :
  sample_store sample_roomy_out !! 1%positive = Some sample_A ∧
  sample_store sample_roomy_out !! 2%positive = Some sample_B ∧
  sample_store sample_roomy_out !! 3%positive = Some sample_roomy_out ∧
  3%positive ≠ 1%positive ∧ 3%positive ≠ 2%positive ∧
  wf sample_A ∧ wf sample_B ∧
  Z.of_nat (length (array sample_roomy_out)) = capacity sample_roomy_out ∧
  cardinality sample_A + cardinality sample_B ≤ capacity sample_roomy_out ∧
  Z.min (cardinality sample_A) (cardinality sample_B)
  ≤ capacity sample_roomy_out ∧
  (∃ O', array_container_union zero_filled 1 2 3
           (sample_store sample_roomy_out)
         = Some ((), <[3%positive := O']> (sample_store sample_roomy_out)) ∧
         array O' = [1; 3; 4; 5; 9; 9; 9; 9] ∧ capacity O' = 8) ∧
  (∃ O', array_container_intersection zero_filled 1 2 3
           (sample_store sample_roomy_out)
         = Some ((), <[3%positive := O']> (sample_store sample_roomy_out)) ∧
         array O' = [3; 5; 9; 9; 9; 9; 9; 9] ∧ capacity O' = 8).
Proof.
  destruct (sample_store_lookups sample_roomy_out) as (H1 & H2 & H3).
  assert (3%positive ≠ 1%positive) as Hne1 by discriminate.
  assert (3%positive ≠ 2%positive) as Hne2 by discriminate.
  assert (Z.of_nat (length (array sample_roomy_out))
          = capacity sample_roomy_out) as Hlen by reflexivity.
  assert (cardinality sample_A + cardinality sample_B
          ≤ capacity sample_roomy_out) as Hu by (cbn; lia).
  assert (Z.min (cardinality sample_A) (cardinality sample_B)
          ≤ capacity sample_roomy_out) as Hi by (cbn; lia).
  destruct (set_algorithms_frame zero_filled _ _ _ _ _ _ _
              H1 H2 H3 Hne1 Hne2 wf_sample_A wf_sample_B Hlen)
    as [Hunion Hinter].
  destruct (Hunion Hu) as (U & HrunU & _).
  destruct (Hinter Hi) as (I' & HrunI & _).
  split_and!; try done; try apply wf_sample_A; try apply wf_sample_B.
  - exists U. split; [done|].
    vm_compute in HrunU. by injection HrunU as <-.
  - exists I'. split; [done|].
    vm_compute in HrunI. by injection HrunI as <-.
Defined.

(** The third scenario of the specification: with an empty first operand the
union holds the second operand's values and the intersection is empty. *)
Example empty_operand_scenario :
  let h : gmap positive array_container_t :=
    <[1%positive := sample_empty_out]>
      (<[2%positive := sample_B]> (<[3%positive := sample_roomy_out]> ∅)) in
  (array_container_union zero_filled 1 2 3 h
   ≫= λ '(_, h'), contents <$> h' !! 3%positive) = Some [3; 4; 5] ∧
  (array_container_intersection zero_filled 1 2 3 h
   ≫= λ '(_, h'), contents <$> h' !! 3%positive) = Some [].
Proof. split; by vm_compute. Qed.

(** ** Instances of the further properties *)

Ltac by_evaluation := apply (bool_decide_unpack _); vm_compute; exact I.

Lemma wf_sample_empty_out : wf sample_empty_out.
Proof. by_evaluation. Defined.

Lemma wf_sample_roomy_out : wf sample_roomy_out.
Proof. by_evaluation. Defined.

Lemma wf_sample_full : wf sample_full.
Proof. by_evaluation. Defined.

Lemma wf_sample_free_slot : wf sample_free_slot.
Proof. by_evaluation. Defined.

Lemma wf_sample_runs : wf sample_runs.
Proof. by_evaluation. Defined.

(** The clone of [{3, 7}] in a buffer of three slots whose last slot holds a
stale 9: the last slot of the clone is that of the fresh block. *)
Lemma array_container_clone_spec_witness :
  let S := {| cardinality := 2; capacity := 3; array := [3; 7; 9] |} in
  let h : gmap positive array_container_t := <[1%positive := S]> ∅ in
  h !! 1%positive = Some S ∧ wf S ∧
  ∃ p C, array_container_clone zero_filled 1 h
         = Some (Some p, <[p := C]> h) ∧
         p ≠ 1%positive ∧ wf C ∧ cardinality C = 2 ∧ capacity C = 3 ∧
         contents C = [3; 7] ∧ array C = [3; 7; 0] ∧
         <[p := C]> h !! 1%positive = Some S.
Proof.
  intros S h.
  assert (h !! 1%positive = Some S) as H1 by reflexivity.
  assert (wf S) as Hwf by by_evaluation.
  split; [done|]. split; [done|].
  destruct (array_container_clone_spec zero_filled h 1%positive S H1 Hwf)
    as (p & C & block & Hrun & _ & Hne & HwfC & Hcard & Hcap & Hcontents
        & Hblock & Harray & Hsrc).
  exists p, C. split; [done|]. split; [done|]. split; [done|].
  split; [done|]. split; [done|]. split; [done|]. split; [|done].
  rewrite Harray. vm_compute in Hblock. by injection Hblock as <-.
Defined.

(** Cloning [{1, 3, 5}] and releasing the clone. *)
Lemma array_container_clone_free_witness :
  sample_store sample_empty_out !! 1%positive = Some sample_A ∧ wf sample_A ∧
  ∃ p h', array_container_clone zero_filled 1 (sample_store sample_empty_out)
          = Some (Some p, h') ∧
          array_container_free p h'
          = Some ((), sample_store sample_empty_out) ∧
          array_container_free p (sample_store sample_empty_out) = None.
Proof.
  destruct (sample_store_lookups sample_empty_out) as (H1 & _).
  split; [done|]. split; [apply wf_sample_A|].
  exact (array_container_clone_free zero_filled _ _ _ H1 wf_sample_A).
Defined.

(** No capacity gives 16 slots; 100 slots give 150. *)
Lemma grow_capacity_progress_witness :
  0 ≤ 0 ∧ grow_capacity 0 = 16 ∧
  0 < 100 ≤ 429496729 ∧ 100 < grow_capacity 100 ≤ 2 * 100.
Proof.
  assert (0 ≤ 0) as H0 by lia. assert (0 < 100 ≤ 429496729) as H100 by lia.
  split; [done|]. split.
  { destruct (grow_capacity_progress 0) as [H _]. by apply H. }
  split; [done|].
  destruct (grow_capacity_progress 100) as [_ H]. by apply H.
Defined.

(** The full container [{3, 7}] grown to hold a third value, and an empty
container without a slot asked for no slot. *)
Lemma array_container_grow_preserves_witness :
  wf sample_full ∧ in_int32 INT32_MAX ∧
  cardinality sample_full ≤ 3 ≤ INT32_MAX ∧
  (0 < 3 ∨ (0 < INT32_MAX ∧ capacity sample_full ≤ 429496729)) ∧
  (∃ c', array_container_grow zero_filled sample_full 3 INT32_MAX true
         = Some c' ∧
         wf c' ∧ contents c' = [3; 7] ∧ capacity c' = 4 ∧
         array c' = [3; 7; 0; 0]) ∧
  wf sample_empty_out ∧ in_int32 0 ∧ cardinality sample_empty_out ≤ 0 ≤ 0 ∧
  array_container_grow zero_filled sample_empty_out 0 0 true = None.
Proof.
  assert (cardinality sample_full ≤ 3 ≤ INT32_MAX) as Hmin
    by (unfold INT32_MAX; cbn; lia).
  assert (0 < 3 ∨ (0 < INT32_MAX ∧ capacity sample_full ≤ 429496729))
    as Hreturns by (left; lia).
  assert (in_int32 0) as Hzero
    by (unfold in_int32, INT32_MIN, INT32_MAX; lia).
  assert (cardinality sample_empty_out ≤ 0 ≤ 0) as Hmin' by (cbn; lia).
  split; [apply wf_sample_full|]. split; [apply in_int32_MAX|].
  split; [done|]. split; [done|].
  destruct (array_container_grow_preserves zero_filled sample_full 3 INT32_MAX
              wf_sample_full in_int32_MAX Hmin) as [Hok _].
  destruct (array_container_grow_preserves zero_filled sample_empty_out 0 0
              wf_sample_empty_out Hzero Hmin') as [_ Habort].
  split.
  - destruct (Hok Hreturns) as (c' & Hrun & Hwf & Hcontents & _).
    exists c'. split; [done|]. split; [done|]. split; [done|].
    vm_compute in Hrun. by injection Hrun as <-.
  - split; [apply wf_sample_empty_out|]. split; [done|]. split; [done|].
    apply Habort. lia.
Defined.

(** [{1, 3, 5}] copied into a container of eight slots, and into one without
a slot. *)
Lemma array_container_copy_spec_witness :
  sample_store sample_roomy_out !! 1%positive = Some sample_A ∧
  sample_store sample_roomy_out !! 3%positive = Some sample_roomy_out ∧
  sample_store sample_empty_out !! 1%positive = Some sample_A ∧
  sample_store sample_empty_out !! 3%positive = Some sample_empty_out ∧
  1%positive ≠ 3%positive ∧ wf sample_A ∧
  Z.of_nat (length (array sample_roomy_out)) = capacity sample_roomy_out ∧
  Z.of_nat (length (array sample_empty_out)) = capacity sample_empty_out ∧
  cardinality sample_A ≤ capacity sample_roomy_out ∧
  capacity sample_empty_out < cardinality sample_A ∧
  (∃ D', array_container_copy zero_filled 1 3 (sample_store sample_roomy_out)
         = Some ((), <[3%positive := D']> (sample_store sample_roomy_out)) ∧
         wf D' ∧ contents D' = [1; 3; 5]) ∧
  array_container_copy zero_filled 1 3 (sample_store sample_empty_out) = None.
Proof.
  destruct (sample_store_lookups sample_roomy_out) as (H1 & _ & H3).
  destruct (sample_store_lookups sample_empty_out) as (H1' & _ & H3').
  assert (1%positive ≠ 3%positive) as Hne by discriminate.
  assert (Z.of_nat (length (array sample_roomy_out))
          = capacity sample_roomy_out) as Hlen by reflexivity.
  assert (Z.of_nat (length (array sample_empty_out))
          = capacity sample_empty_out) as Hlen' by reflexivity.
  assert (cardinality sample_A ≤ capacity sample_roomy_out) as Hfits
    by (cbn; lia).
  assert (capacity sample_empty_out < cardinality sample_A) as Hshort
    by (cbn; lia).
  destruct (array_container_copy_spec zero_filled _ _ _ _ _
              H1 H3 Hne wf_sample_A Hlen) as [Hok _].
  destruct (array_container_copy_spec zero_filled _ _ _ _ _
              H1' H3' Hne wf_sample_A Hlen') as [_ Hbad].
  destruct (Hok Hfits) as (D' & Hrun & Hwf & Hcontents & _).
  do 5 (split; [done|]). split; [apply wf_sample_A|].
  do 4 (split; [done|]). split.
  - by exists D'.
  - exact (Hbad Hshort).
Defined.

(** 5 added to the full container [{3, 7}]. *)
Lemma array_container_add_membership_witness :
  wf sample_full ∧ uint16 5 ∧
  ∃ c', array_container_add zero_filled sample_full 5 = Some (true, c') ∧
        wf c' ∧
        (∀ y, y ∈ contents c' ↔ y = 5 ∨ y ∈ contents sample_full) ∧
        cardinality c' = 3.
Proof.
  assert (uint16 5) as Hx by (unfold uint16; lia).
  split; [apply wf_sample_full|]. split; [done|].
  destruct (array_container_add_membership zero_filled sample_full 5
              wf_sample_full Hx) as (c' & Hadd & Hwf & Hmem & Hcard).
  exists c'. split; [done|]. split; [done|]. split; done.
Defined.

(** The same insertion raises the capacity from two to four slots. *)
Lemma array_container_add_grows_when_full_witness :
  wf sample_full ∧ uint16 5 ∧
  ∃ r c', array_container_add zero_filled sample_full 5 = Some (r, c') ∧
          capacity sample_full ≤ capacity c' ∧
          (capacity sample_full < capacity c'
           ↔ cardinality sample_full = capacity sample_full
             ∧ 5 ∉ contents sample_full).
Proof.
  assert (uint16 5) as Hx by (unfold uint16; lia).
  split; [apply wf_sample_full|]. split; [done|].
  exact (array_container_add_grows_when_full zero_filled sample_full 5
           wf_sample_full Hx).
Defined.

(** 5, 3 and 5 again added to an empty container without a slot. *)
Lemma add_all_spec_witness :
  wf sample_empty_out ∧ Forall uint16 [5; 3; 5] ∧
  ∃ c', add_all zero_filled sample_empty_out [5; 3; 5] = Some c' ∧
        wf c' ∧ contents c' = [3; 5] ∧ cardinality c' = 2.
Proof.
  assert (Forall uint16 [5; 3; 5]) as Hxs by by_evaluation.
  split; [apply wf_sample_empty_out|]. split; [done|].
  destruct (add_all_spec zero_filled sample_empty_out [5; 3; 5]
              wf_sample_empty_out Hxs) as (c' & Hall & Hwf & _).
  exists c'. split; [done|]. split; [done|].
  vm_compute in Hall. by injection Hall as <-.
Defined.

(** 5, 3, 5 and 3, 5 leave the same container. *)
Lemma add_all_order_witness :
  wf sample_empty_out ∧ Forall uint16 [5; 3; 5] ∧ Forall uint16 [3; 5] ∧
  (∀ x : Z, x ∈ [5; 3; 5] ↔ x ∈ [3; 5]) ∧
  ∃ c1 c2, add_all zero_filled sample_empty_out [5; 3; 5] = Some c1 ∧
           add_all zero_filled sample_empty_out [3; 5] = Some c2 ∧
           contents c1 = contents c2 ∧ cardinality c1 = cardinality c2.
Proof.
  assert (Forall uint16 [5; 3; 5]) as Hxs by by_evaluation.
  assert (Forall uint16 [3; 5]) as Hys by by_evaluation.
  assert (∀ x : Z, x ∈ [5; 3; 5] ↔ x ∈ [3; 5]) as Hsame.
  { intros x. rewrite !elem_of_cons, elem_of_nil. tauto. }
  split; [apply wf_sample_empty_out|]. split; [done|]. split; [done|].
  split; [done|].
  exact (add_all_order zero_filled sample_empty_out _ _
           wf_sample_empty_out Hxs Hys Hsame).
Defined.

(** 3 removed from [{3, 7}] in a buffer of three slots. *)
Lemma array_container_remove_spec_witness :
  wf sample_free_slot ∧
  (3 ∉ contents sample_free_slot
   ∨ cardinality sample_free_slot < capacity sample_free_slot) ∧
  ∃ c', array_container_remove sample_free_slot 3 = Some (true, c') ∧
        wf c' ∧ contents c' = [7] ∧ cardinality c' = 1 ∧ capacity c' = 3 ∧
        array_container_contains c' 3 = Some false.
Proof.
  assert (3 ∉ contents sample_free_slot
          ∨ cardinality sample_free_slot < capacity sample_free_slot) as Hcase
    by (right; cbn; lia).
  split; [apply wf_sample_free_slot|]. split; [done|].
  destruct (array_container_remove_spec zero_filled sample_free_slot 3
              wf_sample_free_slot Hcase)
    as (c' & Hrm & Hwf & _ & _ & _ & Hgone).
  exists c'. split; [done|]. split; [done|].
  vm_compute in Hrm. injection Hrm as <-. split_and!; by vm_compute.
Defined.

(** 3 removed from [{3, 7}] in a buffer of two slots. *)
Lemma array_container_remove_full_witness :
  wf sample_full ∧ 3 ∈ contents sample_full ∧
  cardinality sample_full = capacity sample_full ∧
  array_container_remove sample_full 3 = None.
Proof.
  assert (3 ∈ contents sample_full) as Hin by by_evaluation.
  assert (cardinality sample_full = capacity sample_full) as Hfull
    by reflexivity.
  split; [apply wf_sample_full|]. split; [done|]. split; [done|].
  exact (array_container_remove_full zero_filled sample_full 3
           wf_sample_full Hin Hfull).
Defined.

(** 5 added to [{9}] in a buffer of eight slots, and removed again. *)
Lemma array_container_add_remove_witness :
  wf sample_roomy_out ∧ uint16 5 ∧ (5 ∉ contents sample_roomy_out) ∧
  ∃ c', array_container_add zero_filled sample_roomy_out 5
        = Some (true, c') ∧
        cardinality c' < capacity c' ∧
        ∃ c'', array_container_remove c' 5 = Some (true, c'') ∧
               contents c'' = contents sample_roomy_out ∧
               cardinality c'' = cardinality sample_roomy_out.
Proof.
  assert (uint16 5) as Hx by (unfold uint16; lia).
  assert (5 ∉ contents sample_roomy_out) as Hnotin by by_evaluation.
  split; [apply wf_sample_roomy_out|]. split; [done|]. split; [done|].
  destruct (array_container_add_remove zero_filled sample_roomy_out 5
              wf_sample_roomy_out Hx Hnotin) as (c' & Hadd & Hback).
  exists c'. split; [done|].
  assert (cardinality c' < capacity c') as Hroom.
  { vm_compute in Hadd. injection Hadd as <-. cbn. lia. }
  split; [done|]. by apply Hback.
Defined.

(** 3 removed from [{3, 7}] in a buffer of three slots, and added again. *)
Lemma array_container_remove_add_witness :
  wf sample_free_slot ∧ 3 ∈ contents sample_free_slot ∧
  cardinality sample_free_slot < capacity sample_free_slot ∧
  ∃ c' c'', array_container_remove sample_free_slot 3 = Some (true, c') ∧
            array_container_add zero_filled c' 3 = Some (true, c'') ∧
            contents c'' = contents sample_free_slot ∧
            cardinality c'' = cardinality sample_free_slot ∧
            capacity c'' = capacity sample_free_slot.
Proof.
  assert (3 ∈ contents sample_free_slot) as Hin by by_evaluation.
  assert (cardinality sample_free_slot < capacity sample_free_slot) as Hroom
    by (cbn; lia).
  split; [apply wf_sample_free_slot|]. split; [done|]. split; [done|].
  exact (array_container_remove_add zero_filled sample_free_slot 3
           wf_sample_free_slot Hin Hroom).
Defined.

(** [{1, 3, 5}] written above the base 65536 into four slots. *)
Lemma array_container_to_uint32_array_spec_witness :
  0 ≤ cardinality sample_A ≤ Z.of_nat (length (array sample_A)) ∧
  in_int32 (cardinality sample_A) ∧
  cardinality sample_A ≤ Z.of_nat (length [0; 0; 0; 7]) ∧
  array_container_to_uint32_array [0; 0; 0; 7] sample_A 65536
  = Some (3, [65537; 65539; 65541; 7]).
Proof.
  assert (0 ≤ cardinality sample_A ≤ Z.of_nat (length (array sample_A)))
    as Hcard by (cbn; lia).
  assert (in_int32 (cardinality sample_A)) as Hint
    by (unfold in_int32, INT32_MIN, INT32_MAX; cbn; lia).
  assert (cardinality sample_A ≤ Z.of_nat (length [0; 0; 0; 7])) as Hout
    by (cbn; lia).
  split; [done|]. split; [done|]. split; [done|].
  destruct (array_container_to_uint32_array_spec [0; 0; 0; 7] sample_A 65536
              Hcard Hint Hout) as (out' & Hrun & _).
  rewrite Hrun. vm_compute in Hrun. by injection Hrun as <-.
Defined.

(** [{1, 3, 5}] written into two slots. *)
Lemma array_container_to_uint32_array_overrun_witness :
  in_int32 (cardinality sample_A) ∧
  Z.of_nat (length [0; 0]) < cardinality sample_A ∧
  array_container_to_uint32_array [0; 0] sample_A 65536 = None.
Proof.
  assert (in_int32 (cardinality sample_A)) as Hint
    by (unfold in_int32, INT32_MIN, INT32_MAX; cbn; lia).
  assert (Z.of_nat (length [0; 0]) < cardinality sample_A) as Hout
    by (cbn; lia).
  split; [done|]. split; [done|].
  exact (array_container_to_uint32_array_overrun [0; 0] sample_A 65536
           Hint Hout).
Defined.

(** [{1, 3, 5}] under the high half 1. *)
Lemma array_container_to_uint32_array_round_trip_witness :
  wf sample_A ∧ uint16 1 ∧
  cardinality sample_A ≤ Z.of_nat (length [0; 0; 0; 7]) ∧
  ∃ out', array_container_to_uint32_array [0; 0; 0; 7] sample_A (1 * 65536)
          = Some (cardinality sample_A, out') ∧
          let written := take (Z.to_nat (cardinality sample_A)) out' in
          StronglySorted Z.lt written ∧
          Forall (λ w, Z.shiftr w 16 = 1) written ∧
          (λ w, Z.land w 65535) <$> written = contents sample_A.
Proof.
  assert (uint16 1) as Hhb by (unfold uint16; lia).
  assert (cardinality sample_A ≤ Z.of_nat (length [0; 0; 0; 7])) as Hout
    by (cbn; lia).
  split; [apply wf_sample_A|]. split; [done|]. split; [done|].
  exact (array_container_to_uint32_array_round_trip [0; 0; 0; 7] sample_A 1
           wf_sample_A Hhb Hout).
Defined.

(** The second scenario of the specification: [{1, 2, 3, 7, 8, 10}] has
three runs. *)
Lemma array_container_number_of_runs_spec_witness :
  wf sample_runs ∧
  ∃ rs, array_container_number_of_runs sample_runs
        = Some (Z.of_nat (length rs)) ∧
        array_container_number_of_runs sample_runs = Some 3 ∧
        concat rs = contents sample_runs ∧ Forall is_run rs.
Proof.
  split; [apply wf_sample_runs|].
  destruct (array_container_number_of_runs_spec sample_runs wf_sample_runs)
    as (rs & Hrun & Hcat & Hruns & _).
  exists rs. split; [done|]. split; [by vm_compute|]. split; done.
Defined.

Lemma array_container_number_of_runs_bounds_witness :
  wf sample_runs ∧
  ∃ n, array_container_number_of_runs sample_runs = Some n ∧
       0 ≤ n ≤ cardinality sample_runs ∧
       (n = 0 ↔ cardinality sample_runs = 0) ∧
       (n = 1 ↔ is_run (contents sample_runs)).
Proof.
  split; [apply wf_sample_runs|].
  exact (array_container_number_of_runs_bounds sample_runs wf_sample_runs).
Defined.

(** A cardinality of three over a buffer of two slots. *)
Lemma array_container_number_of_runs_overrun_witness :
  let a := {| cardinality := 3; capacity := 2; array := [1; 2] |} in
  ¬ (0 ≤ cardinality a ≤ Z.of_nat (length (array a))) ∧
  array_container_number_of_runs a = None.
Proof.
  intros a.
  assert (¬ (0 ≤ cardinality a ≤ Z.of_nat (length (array a)))) as Hcard
    by (cbn; lia).
  split; [done|].
  exact (array_container_number_of_runs_overrun a Hcard).
Defined.

(** [{1, 3, 5}] intersected with itself in place. *)
Lemma array_container_intersection_inplace_alias_witness :
  sample_store sample_empty_out !! 1%positive = Some sample_A ∧ wf sample_A ∧
  array_container_intersection_inplace 1 1 (sample_store sample_empty_out)
  = Some (1%positive, sample_store sample_empty_out).
Proof.
  destruct (sample_store_lookups sample_empty_out) as (H1 & _).
  split; [done|]. split; [apply wf_sample_A|].
  exact (array_container_intersection_inplace_alias _ _ _ H1 wf_sample_A).
Defined.

(** Two calls from the empty store: create with two slots, add 5. *)
Lemma reachable_within_capacity_witness :
  let c := {| cardinality := 1; capacity := 2; array := [5; 0] |} in
  let h : gmap positive array_container_t := <[1%positive := c]> ∅ in
  reachable zero_filled h ∧ h !! 1%positive = Some c ∧
  0 ≤ cardinality c ≤ capacity c ∧
  Z.of_nat (length (array c)) = capacity c ∧
  Forall uint16 (take (Z.to_nat (cardinality c)) (array c)) ∧
  cardinality c ≤ 65536.
Proof.
  intros c h.
  assert (reachable zero_filled h) as Hreach.
  { apply (reachable_call zero_filled
             (<[1%positive := {| cardinality := 0; capacity := 2;
                                 array := [0; 0] |}]> ∅)
             (Add 1%positive 5)).
    - apply (reachable_call zero_filled ∅ (Create_given_capacity 2)).
      + apply reachable_empty.
      + unfold legal, in_int32, INT32_MIN, INT32_MAX. lia.
      + by vm_compute.
    - unfold legal, uint16. lia.
    - by vm_compute. }
  assert (h !! 1%positive = Some c) as Hp by reflexivity.
  split; [done|]. split; [done|].
  exact (reachable_within_capacity zero_filled h 1%positive c Hreach Hp).
Defined.
